(** * P2667: a vector over allocators with an inline buffer

    A shallow embedding of [experimental_memory.h] and
    [experimental_vector.h]: the allocator capability queries, the
    [buffered_allocator] adapter, the three allocators that never allocate,
    and the stripped-down [vector] built on them, followed by the properties
    of the design that the code has, and the ones it does not have. *)

From Stdlib Require Import NArith Lia.
From stdpp Require Import base numbers option list gmap.

Set Default Proof Using "Type".
Local Open Scope N_scope.

(** ** [size_t] arithmetic

    [size_type] is [size_t] everywhere in the two headers; it is taken as a
    64-bit unsigned integer, a value of [N] below [size_modulus], and every
    sum, product and difference of the source is reduced explicitly. *)

Definition size_modulus : N := 18446744073709551616.

Definition wrap (n : N) : N := n mod size_modulus.

(** [a - b] on [size_t]. *)
Definition size_sub (a b : N) : N := wrap (a + (size_modulus - wrap b)).

(** [detail::uint_holding<SZ>(sz)]: the conversion of [sz] to the narrowest
    of [uint8_t], [uint16_t], [uint32_t], [uint64_t] chosen by
    [__get_uint_holding<SZ>]. *)
Definition uint_holding (SZ : N) (sz : N) : N :=
  if SZ <? 256 then sz mod 256
  else if SZ <? 65536 then sz mod 65536
  else if SZ <? 4294967296 (* 65536*65536ull *) then sz mod 4294967296
  else sz mod size_modulus.

(** ** Allocator types and the capability queries *)

Module Memory.

(** An ordinary allocator type, one that declares neither [buffer_capacity]
    nor [can_allocate]: its name, whether it has a member
    [allocate_at_least], and the three [allocator_traits] members the
    container asks for. *)
Record heap_alloc := HeapAlloc {
  ha_name : nat;
  ha_has_allocate_at_least : bool;
  ha_propagate_on_container_copy_assignment : bool;
  ha_propagate_on_container_move_assignment : bool;
  ha_is_always_equal : bool;
}.

(** [std::allocator<T>]. *)
Definition std_allocator : heap_alloc :=
  {| ha_name := 0%nat;
     ha_has_allocate_at_least := true;
     ha_propagate_on_container_copy_assignment := false;
     ha_propagate_on_container_move_assignment := true;
     ha_is_always_equal := true |}.

Inductive alloc_ty : Type :=
  | allocator (h : heap_alloc)
  | terminating_allocator
  | throwing_allocator
  | unchecked_allocator
  | buffered_allocator (SZ : N) (Backing : alloc_ty).

Global Instance heap_alloc_eq_dec : EqDecision heap_alloc.
Proof. solve_decision. Defined.

Global Instance alloc_ty_eq_dec : EqDecision alloc_ty.
Proof. solve_decision. Defined.

(** [allocator_info::backing_allocator_of_t<Alloc>]: the primary template is
    the identity, the partial specialisation for [buffered_allocator]
    recurses. *)
Fixpoint backing_allocator_of (Alloc : alloc_ty) : alloc_ty :=
  match Alloc with
  | buffered_allocator _ Backing => backing_allocator_of Backing
  | _ => Alloc
  end.

(** [allocator_info::buffer_capacity<Alloc>]: [Alloc::buffer_capacity] where
    the type has one, else [0]. *)
Definition buffer_capacity (Alloc : alloc_ty) : N :=
  match Alloc with
  | buffered_allocator SZ _ => SZ
  | _ => 0
  end.

(** [allocator_info::can_allocate<Alloc>]: [Alloc::can_allocate] where the
    type has one, else [true]; [buffered_allocator] forwards the question to
    its backing allocator. *)
Fixpoint can_allocate (Alloc : alloc_ty) : bool :=
  match Alloc with
  | allocator _ => true
  | terminating_allocator | throwing_allocator | unchecked_allocator => false
  | buffered_allocator _ Backing => can_allocate Backing
  end.

(** [_Has_member_allocate_at_least<_Alloc>]. *)
Definition _Has_member_allocate_at_least (_Alloc : alloc_ty) : bool :=
  match _Alloc with
  | allocator h => ha_has_allocate_at_least h
  | buffered_allocator _ _ => true
  | _ => false
  end.

(** The [allocator_traits] members. [buffered_allocator] derives the
    propagation traits of its backing allocator; it declares no
    [is_always_equal], so the default [is_empty] applies, which [m_data]
    makes false. The three allocators that never allocate declare nothing
    and are empty. *)
Fixpoint propagate_on_container_copy_assignment (Alloc : alloc_ty) : bool :=
  match Alloc with
  | allocator h => ha_propagate_on_container_copy_assignment h
  | buffered_allocator _ Backing => propagate_on_container_copy_assignment Backing
  | _ => false
  end.

Fixpoint propagate_on_container_move_assignment (Alloc : alloc_ty) : bool :=
  match Alloc with
  | allocator h => ha_propagate_on_container_move_assignment h
  | buffered_allocator _ Backing => propagate_on_container_move_assignment Backing
  | _ => false
  end.

Definition is_always_equal (Alloc : alloc_ty) : bool :=
  match Alloc with
  | allocator h => ha_is_always_equal h
  | buffered_allocator _ _ => false
  | _ => true
  end.

(** ** The store

    A pointer is a block and an element offset in it. The blocks are the
    null block, the [m_data] arrays of the [buffered_allocator] objects (one
    per adapter layer of the allocator of the container at address
    [owner]), and the blocks of the free store. *)

Inductive base : Type :=
  | BNull
  | BInline (owner depth : nat)
  | BHeap (id : nat).

Global Instance base_eq_dec : EqDecision base.
Proof. solve_decision. Defined.

Definition base_enc (b : base) : unit + (nat * nat + nat) :=
  match b with
  | BNull => inl ()
  | BInline o d => inr (inl (o, d))
  | BHeap i => inr (inr i)
  end.

Definition base_dec (s : unit + (nat * nat + nat)) : base :=
  match s with
  | inl _ => BNull
  | inr (inl (o, d)) => BInline o d
  | inr (inr i) => BHeap i
  end.

Definition base_dec_enc (b : base) : base_dec (base_enc b) = b :=
  match b with
  | BNull => eq_refl
  | BInline _ _ => eq_refl
  | BHeap _ => eq_refl
  end.

Global Instance base_countable : Countable base :=
  inj_countable' base_enc base_dec base_dec_enc.

Record ptr := Ptr { p_base : base; p_off : N }.

Global Instance ptr_eq_dec : EqDecision ptr.
Proof. solve_decision. Defined.

Definition nullptr : ptr := Ptr BNull 0.

(** [p + n] and [p - q]; the difference is converted to [size_t] where the
    source uses it. *)
Definition ptr_add (p : ptr) (n : N) : ptr := Ptr (p_base p) (p_off p + n).

Definition ptr_diff (p q : ptr) : N := size_sub (wrap (p_off p)) (p_off q).

(** What happens to elements and blocks, most recent first. *)
Inductive event : Type :=
  | Allocate (id : nat) (count : N)
  | Deallocate (p : ptr)
  | Construct (p : ptr)
  | Destroy (p : ptr)
  | Assign (p : ptr).

Definition is_Allocate (e : event) : bool :=
  match e with Allocate _ _ => true | _ => false end.

Definition is_element_event (e : event) : bool :=
  match e with Construct _ | Destroy _ | Assign _ => true | _ => false end.

Section store.
Context {T : Type}.

(** A cell holds a live object, [Some x], or none. *)
Record mem := Mem {
  blocks : gmap base (list (option T));
  next_block : nat;
  log : list event;
}.

Definition record (e : event) (m : mem) : mem :=
  {| blocks := blocks m; next_block := next_block m; log := e :: log m |}.

Definition block_size (m : mem) (b : base) : N :=
  match blocks m !! b with
  | Some cells => N.of_nat (length cells)
  | None => 0
  end.

Definition load (m : mem) (p : ptr) : option T :=
  match blocks m !! p_base p with
  | Some cells => mjoin (cells !! N.to_nat (p_off p))
  | None => None
  end.

(** A write through [p]. C++ gives a write outside a live block no meaning;
    the store keeps no trace of one. *)
Definition store (p : ptr) (c : option T) (m : mem) : mem :=
  match blocks m !! p_base p with
  | Some cells =>
      {| blocks := <[p_base p := <[N.to_nat (p_off p) := c]> cells]> (blocks m);
         next_block := next_block m;
         log := log m |}
  | None => m
  end.

(** [std::construct_at(p, x)], [std::destroy_at(p)] and [*p = x]. The value
    is the content of another cell where the source moves or copies an
    element, and a moved-from element keeps its value, as an [int] does. *)
Definition construct_at (p : ptr) (x : option T) (m : mem) : mem :=
  record (Construct p) (store p x m).

Definition destroy_at (p : ptr) (m : mem) : mem :=
  record (Destroy p) (store p None m).

Definition assign (p : ptr) (x : option T) (m : mem) : mem :=
  record (Assign p) (store p x m).

(** The free store: [count] raw cells in a block that was never used
    before. It never runs out. *)
Definition heap_allocate (count : N) (m : mem) : ptr * mem :=
  (Ptr (BHeap (next_block m)) 0,
   {| blocks := <[BHeap (next_block m) := replicate (N.to_nat count) None]> (blocks m);
      next_block := S (next_block m);
      log := Allocate (next_block m) count :: log m |}).

(** Giving a block back: the start of a block of the free store releases
    it; [nullptr] and any other pointer leave the blocks as they are. *)
Definition heap_deallocate (p : ptr) (m : mem) : mem :=
  match p with
  | Ptr (BHeap id) 0 =>
      {| blocks := delete (BHeap id) (blocks m);
         next_block := next_block m;
         log := Deallocate p :: log m |}
  | _ => record (Deallocate p) m
  end.

Definition heap_allocations (m : mem) : nat := length (filter is_Allocate (log m)).

Definition element_events (m : mem) : nat := length (filter is_element_event (log m)).

(** ** The allocator members *)

Record allocation_result := { ptr_ : ptr; count : N }.

(** What a call that may allocate comes to: a result and the store after
    it, [bad_alloc] thrown, or [terminate()]. *)
Inductive alloc_outcome (R : Type) : Type :=
  | Granted (r : R) (m : mem)
  | BadAlloc
  | Terminated.
Global Arguments Granted {R} r m.
Global Arguments BadAlloc {R}.
Global Arguments Terminated {R}.

(** What the member [allocate_at_least] of an ordinary allocator grants for
    a request; these members are outside this repository. *)
Variable native_allocate_at_least : heap_alloc -> N -> N.

(** [m_data] of the adapter at nesting [depth] in the allocator of the
    object at [owner]. *)
Definition m_data (owner depth : nat) : ptr := Ptr (BInline owner depth) 0.

(** [Alloc::allocate(count)]. [buffered_allocator::allocate] returns
    [m_data] whatever the count. *)
Definition allocate (Alloc : alloc_ty) (owner depth : nat) (count : N) (m : mem)
  : alloc_outcome ptr :=
  match Alloc with
  | allocator _ => let '(p, m') := heap_allocate count m in Granted p m'
  | terminating_allocator => Terminated
  | throwing_allocator => BadAlloc
  | unchecked_allocator => Granted nullptr m
  | buffered_allocator _ _ => Granted (m_data owner depth) m
  end.

(** [std::allocate_at_least(_Al, _Count)]: the member where the allocator
    has one, else [{_Al.allocate(_Count), _Count}]. For
    [buffered_allocator] the member is written out: the inline buffer for
    [count <= SZ], else [std::allocate_at_least] on [m_backingAllocator]. *)
Fixpoint allocate_at_least (Alloc : alloc_ty) (owner depth : nat) (_Count : N) (m : mem)
  : alloc_outcome allocation_result :=
  match Alloc with
  | buffered_allocator SZ Backing =>
      if _Count <=? SZ then
        match allocate Alloc owner depth 0 m with
        | Granted p m' => Granted {| ptr_ := p; count := SZ |} m'
        | BadAlloc => BadAlloc
        | Terminated => Terminated
        end
      else allocate_at_least Backing owner (S depth) _Count m
  | allocator h =>
      if _Has_member_allocate_at_least Alloc then
        let n := native_allocate_at_least h _Count in
        let '(p, m') := heap_allocate n m in
        Granted {| ptr_ := p; count := n |} m'
      else
        match allocate Alloc owner depth _Count m with
        | Granted p m' => Granted {| ptr_ := p; count := _Count |} m'
        | BadAlloc => BadAlloc
        | Terminated => Terminated
        end
  | _ =>
      match allocate Alloc owner depth _Count m with
      | Granted p m' => Granted {| ptr_ := p; count := _Count |} m'
      | BadAlloc => BadAlloc
      | Terminated => Terminated
      end
  end.

(** [allocator_traits<Alloc>::deallocate(a, p, count)].
    [buffered_allocator::deallocate] does nothing for its own [m_data] and
    forwards any other pointer; the allocators that never allocate do
    nothing. *)
Fixpoint deallocate (Alloc : alloc_ty) (owner depth : nat) (p : ptr) (count : N) (m : mem)
  : mem :=
  match Alloc with
  | buffered_allocator _ Backing =>
      if bool_decide (p = m_data owner depth) then m
      else deallocate Backing owner (S depth) p count m
  | allocator _ => heap_deallocate p m
  | _ => m
  end.

(** [allocator_traits<Alloc>::construct(a, p, x)]: [buffered_allocator]
    forwards to its backing allocator, every other type here has no member
    [construct] and [construct_at] is used. *)
Fixpoint construct (Alloc : alloc_ty) (p : ptr) (x : option T) (m : mem) : mem :=
  match Alloc with
  | buffered_allocator _ Backing => construct Backing p x m
  | _ => construct_at p x m
  end.

(** [allocator_traits<Alloc>::destroy(a, p)]: [buffered_allocator::destroy]
    forwards every pointer but [m_data] itself. *)
Fixpoint destroy (Alloc : alloc_ty) (owner depth : nat) (p : ptr) (m : mem) : mem :=
  match Alloc with
  | buffered_allocator _ Backing =>
      if bool_decide (p ≠ m_data owner depth) then destroy Backing owner (S depth) p m
      else m
  | _ => destroy_at p m
  end.

(** The [m_data] arrays that come with an allocator object of type [Alloc]
    at [owner]: [SZ] raw cells per adapter layer. *)
Fixpoint place_buffers (Alloc : alloc_ty) (owner depth : nat)
    (bs : gmap base (list (option T))) : gmap base (list (option T)) :=
  match Alloc with
  | buffered_allocator SZ Backing =>
      <[BInline owner depth := replicate (N.to_nat SZ) None]>
        (place_buffers Backing owner (S depth) bs)
  | _ => bs
  end.

End store.

Global Arguments mem : clear implicits.
Global Arguments alloc_outcome : clear implicits.

End Memory.

(** ** The container *)

Module Vector.
Import Memory.

(** [detail::vector_storage<T, SZ>]. The specialisation for [SZ = 0] has the
    three pointers and the primary template has [m_size]; which one a
    container has is fixed by [can_allocate] of its allocator type, and
    every member function reads only the fields of its own specialisation,
    so one record carries both. *)
Record vector_storage := VectorStorage {
  m_begin : ptr;
  m_end : ptr;
  m_capacity : ptr;
  m_size : N;
}.

(** A [vector<T, Alloc>] object: its address [this], which names the
    [m_data] arrays inside its allocator, its allocator type, [m_storage],
    and [m_alloc], the state of the backing allocator instance that
    [operator==] compares. *)
Record vector := Vector {
  this : nat;
  Alloc : alloc_ty;
  m_storage : vector_storage;
  m_alloc : nat;
}.

Definition with_storage (s : vector_storage) (v : vector) : vector :=
  {| this := this v; Alloc := Alloc v; m_storage := s; m_alloc := m_alloc v |}.

Definition with_alloc (a : nat) (v : vector) : vector :=
  {| this := this v; Alloc := Alloc v; m_storage := m_storage v; m_alloc := a |}.

Definition with_begin (p : ptr) (s : vector_storage) : vector_storage :=
  {| m_begin := p; m_end := m_end s; m_capacity := m_capacity s; m_size := m_size s |}.

Definition with_end (p : ptr) (s : vector_storage) : vector_storage :=
  {| m_begin := m_begin s; m_end := p; m_capacity := m_capacity s; m_size := m_size s |}.

Definition with_capacity (p : ptr) (s : vector_storage) : vector_storage :=
  {| m_begin := m_begin s; m_end := m_end s; m_capacity := p; m_size := m_size s |}.

Definition with_size (n : N) (s : vector_storage) : vector_storage :=
  {| m_begin := m_begin s; m_end := m_end s; m_capacity := m_capacity s; m_size := n |}.

(** The three pointer assignments that both move operations make on their
    source. *)
Definition null_pointers (s : vector_storage) : vector_storage :=
  with_capacity nullptr (with_end nullptr (with_begin nullptr s)).

Definition Backing (v : vector) : alloc_ty := backing_allocator_of (Alloc v).

(** What a member function comes to: it returns, it lets [bad_alloc]
    through, or the process ends. [Raise] carries the state the exception
    leaves behind. *)
Inductive outcome (S : Type) : Type :=
  | Ok (s : S)
  | Raise (s : S)
  | Abort.
Global Arguments Ok {S} s.
Global Arguments Raise {S} s.
Global Arguments Abort {S}.

Definition capacity (v : vector) : N :=
  if can_allocate (Alloc v) then ptr_diff (m_capacity (m_storage v)) (m_begin (m_storage v))
  else buffer_capacity (Alloc v).

(** [data()]. The second branch is [m_alloc.allocate(0)]: a container type
    that cannot allocate is over a [buffered_allocator] (with any other
    allocator [m_storage] has no [m_size] and the class does not compile),
    whose [allocate] is [m_data]. *)
Definition data (v : vector) : ptr :=
  if can_allocate (Alloc v) then m_begin (m_storage v)
  else m_data (this v) 0.

Definition size (v : vector) : N :=
  if can_allocate (Alloc v) then ptr_diff (m_end (m_storage v)) (m_begin (m_storage v))
  else m_size (m_storage v).

Definition empty (v : vector) : bool := size v =? 0.

(** [&operator[](ix)], [begin()] and [end()]. *)
Definition index (v : vector) (ix : N) : ptr := ptr_add (data v) ix.
Definition begin_ (v : vector) : ptr := data v.
Definition end_ (v : vector) : ptr := ptr_add (begin_ v) (size v).

Definition set_size (sz : N) (v : vector) : vector :=
  if can_allocate (Alloc v) then
    with_storage (with_end (ptr_add (m_begin (m_storage v)) sz) (m_storage v)) v
  else
    with_storage (with_size (uint_holding (buffer_capacity (Alloc v)) sz) (m_storage v)) v.

Section ops.
Context {T : Type}.
Variable native_allocate_at_least : heap_alloc -> N -> N.
#[local] Notation "'mem'" := (Memory.mem T) (only parsing).

(** The elements of [v], as the store has them. *)
Definition elements (v : vector) (m : mem) : list (option T) :=
  (fun i => load m (index v (N.of_nat i))) <$> seq 0 (N.to_nat (size v)).

(** The loop of [reserve]: [n] rounds from index [i],
    [construct(m_alloc, result.ptr + i, move(operator[](i)))]. *)
Fixpoint relocate (A : alloc_ty) (n : nat) (i : N) (from to : ptr) (m : mem) : mem :=
  match n with
  | O => m
  | S k => relocate A k (i + 1) from to
             (construct A (ptr_add to i) (load m (ptr_add from i)) m)
  end.

Definition reserve (sz : N) (v : vector) (m : mem) : outcome (vector * mem) :=
  if sz <=? capacity v then Ok (v, m)
  else if can_allocate (Alloc v) then
    match allocate_at_least native_allocate_at_least (Alloc v) (this v) 0 sz m with
    | Granted result m1 =>
        let old_size := size v in
        let m2 := relocate (Alloc v) (N.to_nat old_size) 0 (data v) (ptr_ result) m1 in
        let m3 := deallocate (Alloc v) (this v) 0 (data v) (capacity v) m2 in
        Ok (with_storage
              (with_end (ptr_add (ptr_ result) old_size)
                 (with_capacity (ptr_add (ptr_ result) (count result))
                    (with_begin (ptr_ result) (m_storage v)))) v,
            m3)
    | BadAlloc => Raise (v, m)
    | Terminated => Abort
    end
  else
    match allocate_at_least native_allocate_at_least (Alloc v) (this v) 0 sz m with
    | Granted _ m1 => Ok (v, m1)
    | BadAlloc => Raise (v, m)
    | Terminated => Abort
    end.

Definition bump (sz : N) (v : vector) (m : mem) : outcome (vector * mem) :=
  if sz <=? size v then Ok (v, m)
  else reserve (N.max sz (wrap (size v * 3) / 2)) v m.

Definition push_back (elem : T) (v : vector) (m : mem) : outcome (vector * mem) :=
  match bump (wrap (size v + 1)) v m with
  | Ok (v1, m1) =>
      let m2 := construct (Alloc v1) (end_ v1) (Some elem) m1 in
      Ok (set_size (wrap (size v1 + 1)) v1, m2)
  | Raise s => Raise s
  | Abort => Abort
  end.

Definition pop_back (v : vector) (m : mem) : vector * mem :=
  let v1 := set_size (size_sub (size v) 1) v in
  (v1, destroy (Alloc v1) (this v1) 0 (end_ v1) m).

(** [while (size() > sz) pop_back();] for at most [fuel] rounds. *)
Fixpoint pop_loop (fuel : nat) (sz : N) (v : vector) (m : mem) : vector * mem :=
  match fuel with
  | O => (v, m)
  | S k =>
      if sz <? size v then
        let '(v1, m1) := pop_back v m in pop_loop k sz v1 m1
      else (v, m)
  end.

(** [while (size() < sz) push_back({});] for at most [fuel] rounds; [None]
    when the rounds are used up and the loop has not ended. *)
Fixpoint push_loop (T0 : T) (fuel : nat) (sz : N) (v : vector) (m : mem)
  : option (outcome (vector * mem)) :=
  if size v <? sz then
    match fuel with
    | O => None
    | S k =>
        match push_back T0 v m with
        | Ok (v1, m1) => push_loop T0 k sz v1 m1
        | Raise s => Some (Raise s)
        | Abort => Some Abort
        end
    end
  else Some (Ok (v, m)).

(** [resize(sz)], [T0] being [T{}]. The second loop takes [size()] off by
    one or more each round, so [size()] rounds end it; the first is given
    its rounds by the caller. *)
Definition resize (T0 : T) (fuel : nat) (sz : N) (v : vector) (m : mem)
  : option (outcome (vector * mem)) :=
  if size v <? sz then
    match bump sz v m with
    | Ok (v1, m1) => push_loop T0 fuel sz v1 m1
    | Raise s => Some (Raise s)
    | Abort => Some Abort
    end
  else Some (Ok (pop_loop (N.to_nat (size v)) sz v m)).

(** [clear()] is [resize(0)], where [0 > size()] never holds. *)
Definition clear (v : vector) (m : mem) : vector * mem :=
  pop_loop (N.to_nat (size v)) 0 v m.

Definition destroy_me (v : vector) (m : mem) : vector * mem :=
  let '(v1, m1) := clear v m in
  (v1, deallocate (Alloc v1) (this v1) 0 (data v1) (capacity v1) m1).

(** [std::move(first, first + n, d_first)] and [std::copy]: [n] element
    assignments; the iterator returned is [d_first + n]. *)
Fixpoint assign_range (n : nat) (first d_first : ptr) (m : mem) : mem :=
  match n with
  | O => m
  | S k => assign_range k (ptr_add first 1) (ptr_add d_first 1)
             (assign d_first (load m first) m)
  end.

(** [for (i = ...; ...; i++) { construct(m_alloc, dest, src[i]); dest++; }] *)
Fixpoint construct_rest (A : alloc_ty) (n : nat) (i : N) (src dest : ptr) (m : mem) : mem :=
  match n with
  | O => m
  | S k => construct_rest A k (i + 1) src (ptr_add dest 1)
             (construct A dest (load m (ptr_add src i)) m)
  end.

(** [for (...) { destroy(m_alloc, dest); dest++; }] *)
Fixpoint destroy_rest (A : alloc_ty) (owner : nat) (n : nat) (dest : ptr) (m : mem) : mem :=
  match n with
  | O => m
  | S k => destroy_rest A owner k (ptr_add dest 1) (destroy A owner 0 dest m)
  end.

Definition take_elements (src : ptr) (count : N) (v : vector) (m : mem)
  : outcome (vector * mem) :=
  match reserve count v m with
  | Ok (v1, m1) =>
      let dest := data v1 in
      if size v1 <? count then
        let m2 := assign_range (N.to_nat (size v1)) src dest m1 in
        let dest := ptr_add dest (size v1) in
        let m3 := construct_rest (Alloc v1) (N.to_nat (count - size v1)) (size v1) src dest m2 in
        Ok (set_size count v1, m3)
      else
        let m2 := assign_range (N.to_nat count) src dest m1 in
        let dest := ptr_add dest count in
        let m3 := destroy_rest (Alloc v1) (this v1) (N.to_nat (size v1 - count)) dest m2 in
        Ok (set_size count v1, m3)
  | Raise s => Raise s
  | Abort => Abort
  end.

(** [copy_elements] is [take_elements] with [std::copy] for [std::move] and
    a copy for each move of an element, which are the same on the values. *)
Definition copy_elements (src : ptr) (count : N) (v : vector) (m : mem)
  : outcome (vector * mem) :=
  match reserve count v m with
  | Ok (v1, m1) =>
      let dest := data v1 in
      if size v1 <? count then
        let m2 := assign_range (N.to_nat (size v1)) src dest m1 in
        let dest := ptr_add dest (size v1) in
        let m3 := construct_rest (Alloc v1) (N.to_nat (count - size v1)) (size v1) src dest m2 in
        Ok (set_size count v1, m3)
      else
        let m2 := assign_range (N.to_nat count) src dest m1 in
        let dest := ptr_add dest count in
        let m3 := destroy_rest (Alloc v1) (this v1) (N.to_nat (size v1 - count)) dest m2 in
        Ok (set_size count v1, m3)
  | Raise s => Raise s
  | Abort => Abort
  end.

(** A container object coming into being at address [addr]: the [m_data]
    arrays of its allocator are raw, the pointers have their default member
    initialisers, and [m_size], which has none, is whatever [junk] the
    memory held; the backing allocator is default-constructed, state [0]. *)
Definition emerge (A : alloc_ty) (addr : nat) (junk : N) (m : mem) : vector * mem :=
  ({| this := addr; Alloc := A;
      m_storage := {| m_begin := nullptr; m_end := nullptr; m_capacity := nullptr;
                      m_size := junk |};
      m_alloc := 0%nat |},
   {| blocks := place_buffers A addr 0 (blocks m);
      next_block := next_block m;
      log := log m |}).

(** [vector()]: the constructor body sets the pointers, or [m_size]. *)
Definition default_ctor (A : alloc_ty) (addr : nat) (junk : N) (m : mem) : vector * mem :=
  let '(v, m0) := emerge A addr junk m in
  (if can_allocate A then with_storage (null_pointers (m_storage v)) v
   else with_storage (with_size 0 (m_storage v)) v, m0).

(** The test of the move constructor: the [if constexpr] and the [if] in
    it. [buffer_capacity] alone is that of the container under
    construction. *)
Definition move_ctor_condition (A : alloc_ty) (src : vector) : bool :=
  (bool_decide (backing_allocator_of A = Backing src) && can_allocate (Alloc src))
  && ((buffer_capacity (Alloc src) <? capacity src) || (buffer_capacity A <? size src)).

(** [take_elements(src.data(), src.size()); src.clear();], the tail of both
    move operations. *)
Definition take_and_clear (v src : vector) (m : mem) : outcome (vector * vector * mem) :=
  match take_elements (data src) (size src) v m with
  | Ok (v1, m1) => let '(src1, m2) := clear src m1 in Ok (v1, src1, m2)
  | Raise (v1, m1) => Raise (v1, src, m1)
  | Abort => Abort
  end.

(** [template<typename A> vector(vector<T, A>&& src)], for a container of
    type [vector<T, A>] at [addr]. *)
Definition move_ctor (A : alloc_ty) (addr : nat) (junk : N) (src : vector) (m : mem)
  : outcome (vector * vector * mem) :=
  let '(v, m0) := emerge A addr junk m in
  if move_ctor_condition A src then
    Ok (with_storage (m_storage src) (with_alloc (m_alloc src) v),
        with_storage (null_pointers (m_storage src)) src,
        m0)
  else take_and_clear v src m0.


(** [~vector()]. *)
Definition dtor (v : vector) (m : mem) : vector * mem := destroy_me v m.

(** The capacity and size test of move assignment. *)
Definition move_assign_condition (v src : vector) : bool :=
  (bool_decide (Backing v = Backing src) && can_allocate (Alloc src))
  && ((buffer_capacity (Alloc src) <? capacity src) && (buffer_capacity (Alloc v) <? size src)).

(** "And taking the src element vector is allowed"; [m_alloc == src.m_alloc]
    compares the backing allocator instances. *)
Definition move_assign_allowed (v src : vector) : bool :=
  propagate_on_container_move_assignment (Backing v)
  || is_always_equal (Backing v)
  || bool_decide (m_alloc v = m_alloc src).

(** [template<typename A> vector& operator=(vector<T, A>&& src)]. *)
Definition move_assign (v src : vector) (m : mem) : outcome (vector * vector * mem) :=
  if move_assign_condition v src && move_assign_allowed v src then
    let '(v1, m1) := destroy_me v m in
    let v2 := if propagate_on_container_move_assignment (Backing v1)
              then with_alloc (m_alloc src) v1 else v1 in
    Ok (with_storage (m_storage src) v2,
        with_storage (null_pointers (m_storage src)) src,
        m1)
  else take_and_clear v src m.

(** [template<typename A> vector& operator=(const vector<T, A>& src)]. The
    assignment [m_alloc = src.m_alloc] is taken as the assignment of the
    backing allocator instance. *)
Definition copy_assign (v src : vector) (m : mem) : outcome (vector * mem) :=
  let '(v2, m2) :=
    if bool_decide (Backing v = Backing src)
       && propagate_on_container_copy_assignment (Backing v) then
      let '(v1, m1) :=
        if negb (is_always_equal (Backing v)) && bool_decide (m_alloc v ≠ m_alloc src)
        then destroy_me v m else (v, m) in
      (with_alloc (m_alloc src) v1, m1)
    else (v, m) in
  copy_elements (data src) (size src) v2 m2.

End ops.

(** The aliases at the end of [experimental_vector.h], as the allocator
    types they give to [vector]. *)
Definition sbo_vector (SZ : N) (Backing : alloc_ty) : alloc_ty :=
  buffered_allocator SZ Backing.

Definition static_vector_throw (SZ : N) : alloc_ty := sbo_vector SZ throwing_allocator.

Definition static_vector_terminate (SZ : N) : alloc_ty := sbo_vector SZ throwing_allocator.

Definition static_vector (SZ : N) : alloc_ty := sbo_vector SZ unchecked_allocator.

End Vector.

(** * Notions for the properties *)

Import Memory Vector.

(** ** Allocator types *)

(** The size of the adapter layer at nesting depth [d] of an allocator
    type. *)
Fixpoint layer_size (A : alloc_ty) (d : nat) : option N :=
  match A, d with
  | buffered_allocator SZ _, O => Some SZ
  | buffered_allocator _ B, S d' => layer_size B d'
  | _, _ => None
  end.

(** Every [SZ] in the type is a [size_t]. *)
Fixpoint sizes_in_range (A : alloc_ty) : Prop :=
  match A with
  | buffered_allocator SZ B => SZ < size_modulus /\ sizes_in_range B
  | _ => True
  end.

(** [sizes_in_range] as a check. *)
Fixpoint sizes_in_rangeb (A : alloc_ty) : bool :=
  match A with
  | buffered_allocator SZ B => (SZ <? size_modulus) && sizes_in_rangeb B
  | _ => true
  end.

(** A container type is usable when every [SZ] in it is a [size_t] and,
    with an allocator that cannot allocate, the allocator is an adapter,
    whose [m_data] is all the storage there is. *)
Definition usable (A : alloc_ty) : Prop :=
  sizes_in_range A
  /\ (can_allocate A = false -> layer_size A 0 = Some (buffer_capacity A)).

(** [p] is the [m_data] of an adapter layer: what
    [buffered_allocator::destroy] does not pass on. *)
Fixpoint own_data (A : alloc_ty) (o d : nat) (p : ptr) : bool :=
  match A with
  | buffered_allocator _ B => bool_decide (p = m_data o d) || own_data B o (S d) p
  | _ => false
  end.

(** The three allocators that never allocate. *)
Definition sentinel (P : alloc_ty) : Prop :=
  P = terminating_allocator \/ P = throwing_allocator \/ P = unchecked_allocator.

(** Whether [allocate_at_least(n)] on an allocator of type [A] returns: an
    adapter layer with [n <= SZ] is reached, or an allocator at the bottom
    that neither throws nor ends the process. *)
Fixpoint grants (A : alloc_ty) (n : N) : bool :=
  match A with
  | buffered_allocator SZ B => (n <=? SZ) || grants B n
  | terminating_allocator | throwing_allocator => false
  | allocator _ | unchecked_allocator => true
  end.

(** An allocator type that turns down every request beyond [SZ]: no adapter
    layer in it has a buffer of more than [SZ], and the allocator at the
    bottom throws or ends the process. *)
Fixpoint refuses_beyond (SZ : N) (A : alloc_ty) : bool :=
  match A with
  | buffered_allocator SZ' B => (SZ' <=? SZ) && refuses_beyond SZ B
  | terminating_allocator | throwing_allocator => true
  | allocator _ | unchecked_allocator => false
  end.

(** The contract of the members [allocate_at_least] from outside: at least
    the request, and a [size_t]. *)
Definition native_contract (native : heap_alloc -> N -> N) : Prop :=
  forall h i, i < size_modulus -> i <= native h i < size_modulus.

(** A member [allocate_at_least] that grants the request and no more. *)
Definition exact (h : heap_alloc) (n : N) : N := n.

(** An ordinary allocator type without a member [allocate_at_least]. *)
Definition plain_allocator : heap_alloc :=
  {| ha_name := 1%nat;
     ha_has_allocate_at_least := false;
     ha_propagate_on_container_copy_assignment := false;
     ha_propagate_on_container_move_assignment := true;
     ha_is_always_equal := true |}.

(** An ordinary allocator type with state: it propagates on copy and move
    assignment, and two instances are equal when their states are. *)
Definition pool_allocator : heap_alloc :=
  {| ha_name := 2%nat;
     ha_has_allocate_at_least := false;
     ha_propagate_on_container_copy_assignment := true;
     ha_propagate_on_container_move_assignment := true;
     ha_is_always_equal := false |}.

(** ** Stores and containers *)

Section notions.
Context {T : Type}.

(** [frame P m m']: from [m] to [m'] the blocks in [P] keep their cells and
    their size, and no block number is given out twice. *)
Definition frame (P : base -> Prop) (m m' : mem T) : Prop :=
  (forall q, P (p_base q) -> load m' q = load m q)
  /\ (forall b, P b -> block_size m' b = block_size m b)
  /\ (next_block m <= next_block m')%nat.

(** The three loops that copy a run of cells, [relocate], [assign_range]
    and [construct_rest], are one loop up to the event they leave. *)
Fixpoint copy_cells (ev : ptr -> event) (n : nat) (p q : ptr) (m : mem T) : mem T :=
  match n with
  | O => m
  | S k => copy_cells ev k (ptr_add p 1) (ptr_add q 1)
             (record (ev q) (store q (load m p) m))
  end.

(** The representation invariant: the null block has no cells, the [m_data]
    arrays of the allocator are in the store, [data()] is the start of a
    block whose size is [capacity()], which is [nullptr], an [m_data] of the
    container's own allocator or a block of the free store, and with the
    pointer representation [m_end] and [m_capacity] point into that block,
    [size()] not beyond [capacity()]. *)
Record wf (v : vector) (m : mem T) : Prop := {
  wf_null : block_size m BNull = 0;
  wf_type : sizes_in_range (Alloc v);
  wf_placed : forall d SZ,
    layer_size (Alloc v) d = Some SZ -> block_size m (BInline (this v) d) = SZ;
  wf_data_off : p_off (data v) = 0;
  wf_size : can_allocate (Alloc v) = true -> size v <= capacity v;
  wf_rep : can_allocate (Alloc v) = true ->
    m_end (m_storage v) = ptr_add (data v) (size v)
    /\ m_capacity (m_storage v) = ptr_add (data v) (capacity v);
  wf_home : match p_base (data v) with
            | BNull => capacity v = 0
            | BInline o d => o = this v /\ layer_size (Alloc v) d = Some (capacity v)
            | BHeap id => (id < next_block m)%nat /\ block_size m (BHeap id) = capacity v
            end;
}.

(** A block that work on [v] leaves alone: not the block of [data()], not an
    [m_data] of its allocator, not a block yet to be given out. *)
Definition foreign (v : vector) (m : mem T) (b : base) : Prop :=
  b <> p_base (data v)
  /\ (forall d, b <> BInline (this v) d)
  /\ (forall id, b = BHeap id -> (id < next_block m)%nat).

(** The invariant as a check: the [m_data] arrays first, then the whole. *)
Fixpoint placedb (A : alloc_ty) (o d : nat) (m : mem T) : bool :=
  match A with
  | buffered_allocator SZ B => (block_size m (BInline o d) =? SZ) && placedb B o (S d) m
  | _ => true
  end.

Definition wfb (v : vector) (m : mem T) : bool :=
  (block_size m BNull =? 0)
  && sizes_in_rangeb (Alloc v)
  && placedb (Alloc v) (this v) 0 m
  && (p_off (data v) =? 0)
  && (if can_allocate (Alloc v) then
        (size v <=? capacity v)
        && bool_decide (m_end (m_storage v) = ptr_add (data v) (size v))
        && bool_decide (m_capacity (m_storage v) = ptr_add (data v) (capacity v))
      else true)
  && match p_base (data v) with
     | BNull => capacity v =? 0
     | BInline o d =>
         bool_decide (o = this v)
         && bool_decide (layer_size (Alloc v) d = Some (capacity v))
     | BHeap id => bool_decide (id < next_block m)%nat
                   && (block_size m (BHeap id) =? capacity v)
     end.

End notions.

(** Two distinct containers: different objects, and the same block only
    when it is the null block. *)
Definition apart (v src : vector) : Prop :=
  this v <> this src
  /\ (p_base (data src) = BNull \/ p_base (data src) <> p_base (data v)).

(** The container after [reserve] has taken the block of [result]. *)
Definition adopted (result : allocation_result) (v : vector) : vector :=
  with_storage
    (with_end (ptr_add (ptr_ result) (size v))
       (with_capacity (ptr_add (ptr_ result) (count result))
          (with_begin (ptr_ result) (m_storage v)))) v.

(** What [bump] asks [reserve] for. *)
Definition request (v : vector) : N :=
  N.max (wrap (size v + 1)) (wrap (size v * 3) / 2).

Section outcomes.
Context {T : Type}.

(** What [reserve] leaves behind, seen from the state before it. *)
Record reserved (n : N) (v : vector) (m : mem T) (v' : vector) (m' : mem T) : Prop := {
  rs_wf : wf v' m';
  rs_Alloc : Alloc v' = Alloc v;
  rs_this : this v' = this v;
  rs_m_alloc : m_alloc v' = m_alloc v;
  rs_size : size v' = size v;
  rs_capacity : n <= capacity v';
  rs_grow : capacity v <= capacity v';
  rs_load : forall j, j < size v -> load m' (index v' j) = load m (index v j);
  rs_frame : frame (foreign v m) m m';
  rs_foreign : forall b, foreign v m b -> foreign v' m' b;
}.

(** What [push_back] leaves behind. *)
Record pushed (x : T) (v : vector) (m : mem T) (v' : vector) (m' : mem T) : Prop := {
  ps_wf : wf v' m';
  ps_Alloc : Alloc v' = Alloc v;
  ps_this : this v' = this v;
  ps_m_alloc : m_alloc v' = m_alloc v;
  ps_size : size v' = size v + 1;
  ps_capacity : capacity v <= capacity v';
  ps_new : load m' (index v' (size v)) = Some x;
  ps_old : forall j, j < size v -> load m' (index v' j) = load m (index v j);
  ps_frame : frame (foreign v m) m m';
  ps_foreign : forall b, foreign v m b -> foreign v' m' b;
}.

End outcomes.

(** Events by kind, and how many of each the store has seen. *)
Definition is_Assign (e : event) : bool := match e with Assign _ => true | _ => false end.

Definition is_Construct (e : event) : bool := match e with Construct _ => true | _ => false end.

Definition is_Destroy (e : event) : bool := match e with Destroy _ => true | _ => false end.

Definition assignments {T : Type} (m : mem T) : nat := length (filter is_Assign (log m)).

Definition constructions {T : Type} (m : mem T) : nat := length (filter is_Construct (log m)).

Definition destructions {T : Type} (m : mem T) : nat := length (filter is_Destroy (log m)).

(** What [take_elements] does to the store once [reserve] has returned. *)
Definition fill {T : Type} (src : ptr) (count : N) (v1 : vector) (m1 : mem T) : mem T :=
  if size v1 <? count then
    copy_cells Construct (N.to_nat (count - size v1)) (ptr_add src (size v1))
      (ptr_add (data v1) (size v1))
      (copy_cells Assign (N.to_nat (size v1)) src (data v1) m1)
  else
    destroy_rest (Alloc v1) (this v1) (N.to_nat (size v1 - count)) (ptr_add (data v1) count)
      (copy_cells Assign (N.to_nat count) src (data v1) m1).

(** What a request beyond the inline buffer comes to under each of the
    three allocators that never allocate. *)
Definition overflow {S : Type} (P : alloc_ty) (s : S) : outcome S :=
  match P with
  | terminating_allocator => Abort
  | throwing_allocator => Raise s
  | _ => Ok s
  end.



(** The constant-time transfer of the move constructor and its linear-time
    path, each on its own. *)
Definition transfer {T : Type} (A : alloc_ty) (addr : nat) (junk : N)
    (src : vector) (m : mem T) : outcome (vector * vector * mem T) :=
  let '(v, m0) := emerge A addr junk m in
  Ok (with_storage (m_storage src) (with_alloc (m_alloc src) v),
      with_storage (null_pointers (m_storage src)) src,
      m0).

Definition linear {T : Type} (native : heap_alloc -> N -> N) (A : alloc_ty) (addr : nat)
    (junk : N) (src : vector) (m : mem T) : outcome (vector * vector * mem T) :=
  let '(v, m0) := emerge A addr junk m in take_and_clear native v src m0.

(** ** Concrete containers *)

(** A store of [int] with nothing in it. *)
Definition empty_store : mem Z := {| blocks := ∅; next_block := 0; log := [] |}.

(** One call after another, as long as the calls return. *)
Definition and_then {S : Type} (o : outcome S) (f : S -> outcome S) : outcome S :=
  match o with
  | Ok s => f s
  | _ => o
  end.

(** [push_back] of each element of [xs] in turn. *)
Definition push_all {T : Type} (native : heap_alloc -> N -> N) (xs : list T)
    (s : vector * mem T) : outcome (vector * mem T) :=
  foldl (fun o x => and_then o (fun '(v, m) => push_back native x v m)) (Ok s) xs.

(** The result of an operation on concrete containers, or a container that
    was never touched when it did not return. *)
Definition the {S : Type} (o : outcome S) (d : S) : S :=
  match o with
  | Ok s => s
  | _ => d
  end.

(** An SBO container with three inline elements, [1; 2; 3], as the test
    program builds it. *)
Definition sbo3 : alloc_ty := sbo_vector 3 (allocator std_allocator).

(** The first three pushes of the test program. *)
Definition pushed3 (native : heap_alloc -> N -> N) : outcome (vector * mem Z) :=
  push_all native [1; 2; 3]%Z (default_ctor sbo3 1 0 empty_store).

(** [std::sbo_vector<int, 3> sbo;] at address [1]. *)
Definition nothing : vector * mem Z :=
  Eval vm_compute in default_ctor sbo3 1 0 empty_store.

Definition three : vector * mem Z :=
  Eval vm_compute in
  match pushed3 exact with
  | Ok s => s
  | _ => default_ctor sbo3 1 0 empty_store
  end.

(** An SBO container holding [1; 2] in its inline buffer, one holding
    [1; 2; 3; 4; 5] in a block of the free store, and a [vector<int>]
    holding [1; 2], all at address [1]. *)
Definition two_inline : vector * mem Z :=
  Eval vm_compute in the (push_all exact [1; 2]%Z nothing) nothing.

Definition five : vector * mem Z :=
  Eval vm_compute in the (push_all exact [1; 2; 3; 4; 5]%Z nothing) nothing.

Definition two_heap : vector * mem Z :=
  Eval vm_compute in
  the (push_all exact [1; 2]%Z (default_ctor (allocator std_allocator) 1 0 empty_store))
      nothing.

(** The three fixed-capacity aliases with three elements in a buffer of
    three. *)
Definition full (A : alloc_ty) : outcome (vector * mem Z) :=
  push_all exact [1; 2; 3]%Z (default_ctor A 1 0 empty_store).

(** A [vector] over [pool_allocator] with three elements, and a second one
    with two elements whose allocator instance is another. *)
Definition pool3 : vector * mem Z :=
  Eval vm_compute in
  the (push_all exact [1; 2; 3]%Z (default_ctor (allocator pool_allocator) 1 0 empty_store))
      nothing.

Definition pool2 : vector * mem Z :=
  Eval vm_compute in
  let '(s0, m0) := default_ctor (allocator pool_allocator) 2 0 pool3.2 in
  the (push_all exact [9; 8]%Z (with_alloc 7 s0, m0)) (s0, m0).

(** The moves at the end of [main] in [test_vector.cpp], from the SBO
    container with five elements: into a [vector<int>] by construction,
    back by assignment, on into a [static_vector<int, 10>] by construction,
    whose [m_size] starts as [junk], and from there into the [vector<int>]
    by assignment. The result is what [svec] and [v] hold when the
    assertions on them are made. *)
Definition test_moves (junk : N) : option (list (option Z) * list (option Z)) :=
  match move_ctor exact (allocator std_allocator) 2 0 five.1 five.2 with
  | Ok (v, sbo, m1) =>
      match move_assign exact sbo v m1 with
      | Ok (sbo, v, m2) =>
          match move_ctor exact (static_vector 10) 3 junk sbo m2 with
          | Ok (svec, sbo, m3) =>
              match move_assign exact v svec m3 with
              | Ok (v, _, m4) => Some (elements svec m3, elements v m4)
              | _ => None
              end
          | _ => None
          end
      | _ => None
      end
  | _ => None
  end.

(** ** More concrete containers *)

(** [std::static_vector<int, 3> s;] at address [1]. *)
Definition empty_static3 : vector * mem Z :=
  Eval vm_compute in default_ctor (static_vector 3) 1 0 empty_store.

(** A [static_vector_throw<int, 5>] holding [1; 2; 3; 4]. *)
Definition four_of_five : vector * mem Z :=
  Eval vm_compute in
  the (push_all exact [1; 2; 3; 4]%Z (default_ctor (static_vector_throw 5) 1 0 empty_store))
      nothing.

(** A second SBO container, at address [2], in the store of [five]: as it
    is constructed, and holding [7; 8; 9]. *)
Definition beside_five : vector * mem Z :=
  Eval vm_compute in default_ctor sbo3 2 0 five.2.

Definition three_beside_five : vector * mem Z :=
  Eval vm_compute in the (push_all exact [7; 8; 9]%Z beside_five) beside_five.

(** An SBO container after [push_back(1)] and [pop_back()]: no element, and
    the inline buffer of three as its capacity. *)
Definition emptied : vector * mem Z :=
  Eval vm_compute in
  match push_back exact 1%Z nothing.1 nothing.2 with
  | Ok (v, m) => pop_back v m
  | _ => nothing
  end.

(** A full SBO container, [1; 2; 3] in its inline buffer, and beside it, at
    address [2], an empty [static_vector<int, 10>]. *)
Definition static10_beside_three : vector * mem Z :=
  Eval vm_compute in default_ctor (static_vector 10) 2 0 three.2.

(** A container over an adapter of three nested over an adapter of five
    over [throwing_allocator], holding [1; 2; 3]. *)
Definition nested : alloc_ty := sbo_vector 3 (sbo_vector 5 throwing_allocator).

Definition nested_full : vector * mem Z :=
  Eval vm_compute in
  the (push_all exact [1; 2; 3]%Z (default_ctor nested 1 0 empty_store)) nothing.

(** ** Notions for the further properties *)

(** The blocks of the free store numbered [n0] and up are gone, but for the
    one [data()] is in. *)
Definition released {T : Type} (n0 : nat) (v : vector) (m : mem T) : Prop :=
  forall id, (n0 <= id)%nat -> BHeap id <> p_base (data v) -> blocks m !! BHeap id = None.

(** The case of copy assignment in which the destination is torn down
    first: [destroy_me()] is called. *)
Definition tears_down (v src : vector) : bool :=
  bool_decide (Backing v = Backing src)
  && propagate_on_container_copy_assignment (Backing v)
  && negb (is_always_equal (Backing v))
  && bool_decide (m_alloc v <> m_alloc src).

(** ** The test program *)

(** What a run of a program comes to: it returns, an [assert] fails, an
    exception leaves [main], or [terminate()] ends it. *)
Inductive run (S : Type) : Type :=
  | Returned (s : S)
  | AssertionFailed (line : nat)
  | Thrown
  | Ended.
Arguments Returned {S} s.
Arguments AssertionFailed {S} line.
Arguments Thrown {S}.
Arguments Ended {S}.

Notation "'let!' p ':=' o 'in' k" :=
  (match o with Ok p => k | Raise _ => Thrown | Abort => Ended end)
  (at level 10, p pattern, o at level 100, k at level 200, only parsing).

Notation "'assert!' b 'line' n ';;' k" :=
  (if b then k else AssertionFailed n)
  (at level 10, b at level 100, n at level 0, k at level 200, only parsing).

(** [v[i] == x] *)
Definition at_is (v : vector) (i : N) (x : Z) (m : mem Z) : bool :=
  bool_decide (load m (index v i) = Some x).

(** [main] of [test_vector.cpp]. The objects [x], [s], [sbo], [v] and
    [svec] are at the addresses [1] to [5]; [junk] is what the memory of
    each holds before its constructor runs; the destructors run at the end
    in the reverse order. *)
Definition main (native : heap_alloc -> N -> N) (junk : nat -> N) : run (mem Z) :=
  let '(x, m) := default_ctor (allocator std_allocator) 1 (junk 1%nat) empty_store in
  let! (x, m) := push_back native 1%Z x m in
  assert! (size x =? 1) line 12 ;;
  let '(s, m) := default_ctor (static_vector 3) 2 (junk 2%nat) m in
  let! (s, m) := push_back native 1%Z s m in
  assert! (size s =? 1) line 17 ;;
  let '(sbo, m) := default_ctor sbo3 3 (junk 3%nat) m in
  let! (sbo, m) := push_back native 1%Z sbo m in
  assert! (size sbo =? 1) line 22 ;;
  let! (sbo, m) := push_back native 2%Z sbo m in
  assert! (size sbo =? 2) line 24 ;;
  let! (sbo, m) := push_back native 3%Z sbo m in
  assert! (size sbo =? 3) line 26 ;;
  let! (sbo, m) := push_back native 4%Z sbo m in
  assert! (size sbo =? 4) line 28 ;;
  let! (sbo, m) := push_back native 5%Z sbo m in
  assert! (size sbo =? 5) line 30 ;;
  assert! (at_is sbo 0 1 m) line 32 ;;
  assert! (at_is sbo 1 2 m) line 33 ;;
  assert! (at_is sbo 2 3 m) line 34 ;;
  assert! (at_is sbo 3 4 m) line 35 ;;
  assert! (at_is sbo 4 5 m) line 36 ;;
  let! (v, sbo, m) := move_ctor native (allocator std_allocator) 4 (junk 4%nat) sbo m in
  let! (sbo, v, m) := move_assign native sbo v m in
  let! (svec, sbo, m) := move_ctor native (static_vector 10) 5 (junk 5%nat) sbo m in
  assert! (at_is svec 0 1 m) line 41 ;;
  assert! (at_is svec 1 2 m) line 42 ;;
  assert! (at_is svec 2 3 m) line 43 ;;
  assert! (at_is svec 3 4 m) line 44 ;;
  assert! (at_is svec 4 5 m) line 45 ;;
  let! (v, svec, m) := move_assign native v svec m in
  assert! (at_is v 0 1 m) line 48 ;;
  assert! (at_is v 1 2 m) line 49 ;;
  assert! (at_is v 2 3 m) line 50 ;;
  assert! (at_is v 3 4 m) line 51 ;;
  assert! (at_is v 4 5 m) line 52 ;;
  let '(_, m) := dtor svec m in
  let '(_, m) := dtor v m in
  let '(_, m) := dtor sbo m in
  let '(_, m) := dtor s m in
  let '(_, m) := dtor x m in
  Returned m.

(** ** The claims that do not hold, as they are stated *)

(** The test of C1 as it is stated: same backing allocator, a source that
    can allocate, and the capacity of the source beyond the inline buffer of
    the destination. *)
Definition stated_condition (A : alloc_ty) (src : vector) : bool :=
  bool_decide (backing_allocator_of A = Backing src)
  && can_allocate (Alloc src)
  && (buffer_capacity A <? capacity src).

(** C1 as it is stated. *)
Definition stated_move_ctor : Prop :=
  forall (A : alloc_ty) (addr : nat) (junk : N) (src : vector) (m : mem Z),
    wf src m -> this src <> addr ->
    move_ctor exact A addr junk src m
    = if stated_condition A src then transfer A addr junk src m
      else linear exact A addr junk src m.


(** C6 as it is stated, for a container with room for one more element. *)
Definition stated_push_back : Prop :=
  forall (v : vector) (m : mem Z) (x : Z),
    wf v m -> size v < capacity v ->
    exists v' m', push_back exact x v m = Ok (v', m')
      /\ size v' = size v + 1
      /\ elements v' m' = elements v m ++ [Some x].



(** The bound of C8 read with real numbers: a reallocation leaves room for
    the new element and for one and a half times the elements before it. *)
Definition real_growth_bound (native : heap_alloc -> N -> N) : Prop :=
  forall (v : vector) (m : mem Z) (x : Z) (v' : vector) (m' : mem Z),
    wf v m -> can_allocate (Alloc v) = true ->
    push_back native x v m = Ok (v', m') -> data v' <> data v ->
    size v + 1 <= capacity v' /\ 3 * size v <= 2 * capacity v'.

(** * Properties *)

Ltac Zify.zify_post_hook ::= Z.to_euclidean_division_equations.

Ltac split_andb :=
  repeat match goal with
  | H : (_ && _) = true |- _ => apply andb_prop in H as [? ?]
  end.

(** Case analysis on the comparisons of [N] in the goal. *)
Ltac N_cases :=
  repeat match goal with
  | |- context [N.ltb ?a ?b] => destruct (N.ltb_spec a b)
  | |- context [N.leb ?a ?b] => destruct (N.leb_spec a b)
  | |- context [N.eqb ?a ?b] => destruct (N.eqb_spec a b)
  end.

(** ** [size_t] arithmetic *)

Lemma wrap_small n : n < size_modulus -> wrap n = n.
Proof. unfold wrap, size_modulus. lia. Qed.

Lemma wrap_lt n : wrap n < size_modulus.
Proof. unfold wrap, size_modulus. lia. Qed.


Lemma size_sub_small a b : a < size_modulus -> b <= a -> size_sub a b = a - b.
Proof. unfold size_sub, wrap, size_modulus. lia. Qed.

Lemma size_sub_lt a b : size_sub a b < size_modulus.
Proof. apply wrap_lt. Qed.

Lemma ptr_diff_lt p q : ptr_diff p q < size_modulus.
Proof. apply size_sub_lt. Qed.

Lemma ptr_diff_add p n : ptr_diff (ptr_add p n) p = wrap n.
Proof. unfold ptr_diff, ptr_add, size_sub, wrap, size_modulus. simpl. lia. Qed.

Lemma ptr_diff_self p : ptr_diff p p = 0.
Proof. unfold ptr_diff, size_sub, wrap, size_modulus. lia. Qed.

Lemma uint_holding_le SZ sz : uint_holding SZ sz <= sz.
Proof.
  unfold uint_holding, size_modulus. N_cases; lia.
Qed.

Lemma uint_holding_small SZ sz :
  SZ < size_modulus -> sz <= SZ -> uint_holding SZ sz = sz.
Proof.
  unfold uint_holding, size_modulus. intros HSZ Hsz. N_cases; lia.
Qed.

Lemma ptr_add_0 p : ptr_add p 0 = p.
Proof. destruct p as [b o]. unfold ptr_add. simpl. f_equal. lia. Qed.

Lemma ptr_add_add p a b : ptr_add (ptr_add p a) b = ptr_add p (a + b).
Proof. unfold ptr_add. simpl. f_equal. lia. Qed.

Lemma ptr_add_base p n : p_base (ptr_add p n) = p_base p.
Proof. reflexivity. Qed.

(** ** The store *)

Section store_facts.
Context {T : Type}.
Implicit Types (m : mem T) (p q : ptr) (c x : option T) (b : base).

Lemma block_size_store p c m b : block_size (store p c m) b = block_size m b.
Proof.
  unfold store, block_size.
  destruct (blocks m !! p_base p) as [cells|] eqn:E; [|done]. simpl.
  destruct (decide (p_base p = b)) as [<-|Hne].
  - by rewrite lookup_insert_eq, E, length_insert.
  - by rewrite lookup_insert_ne.
Qed.

Lemma next_block_store p c m : next_block (store p c m) = next_block m.
Proof. unfold store. by destruct (blocks m !! p_base p). Qed.

Lemma log_store p c m : log (store p c m) = log m.
Proof. unfold store. by destruct (blocks m !! p_base p). Qed.

Lemma load_store_eq p c m :
  p_off p < block_size m (p_base p) -> load (store p c m) p = c.
Proof.
  unfold store, block_size, load.
  destruct (blocks m !! p_base p) as [cells|] eqn:E; [|lia]. simpl. intros Hlt.
  rewrite lookup_insert_eq, list_lookup_insert_eq by lia. done.
Qed.

Lemma load_store_ne p c m q : q <> p -> load (store p c m) q = load m q.
Proof.
  intros Hne. unfold store, load.
  destruct (blocks m !! p_base p) as [cells|] eqn:E; [|done]. simpl.
  destruct (decide (p_base p = p_base q)) as [Hb|Hb].
  - rewrite <- Hb, lookup_insert_eq, E.
    rewrite list_lookup_insert_ne; [done|].
    intros Heq. apply Hne. destruct p, q; simpl in *. f_equal; [done|lia].
  - by rewrite lookup_insert_ne.
Qed.

Lemma load_store_base p c m q : p_base q <> p_base p -> load (store p c m) q = load m q.
Proof. intros H. apply load_store_ne. by intros ->. Qed.

Lemma load_record e m p : load (record e m) p = load m p.
Proof. reflexivity. Qed.

Lemma block_size_record e m b : block_size (record e m) b = block_size m b.
Proof. reflexivity. Qed.

(** [construct] reaches [construct_at] through every adapter layer. *)
Lemma construct_construct_at A p x m : construct A p x m = construct_at p x m.
Proof. induction A; simpl; auto. Qed.

(** [destroy] reaches [destroy_at], or stops at an adapter whose [m_data]
    the pointer is. *)
Lemma destroy_cases A o d p m :
  destroy A o d p m = destroy_at p m \/ destroy A o d p m = m.
Proof.
  revert d. induction A; intros d; simpl; auto.
  case_bool_decide; auto.
Qed.

Lemma block_size_destroy A o d p m b : block_size (destroy A o d p m) b = block_size m b.
Proof.
  destruct (destroy_cases A o d p m) as [-> | ->]; [|done].
  unfold destroy_at. by rewrite block_size_record, block_size_store.
Qed.

Lemma next_block_destroy A o d p m : next_block (destroy A o d p m) = next_block m.
Proof.
  destruct (destroy_cases A o d p m) as [-> | ->]; [|done].
  unfold destroy_at. simpl. apply next_block_store.
Qed.

Lemma load_destroy_ne A o d p m q :
  q <> p -> load (destroy A o d p m) q = load m q.
Proof.
  intros H. destruct (destroy_cases A o d p m) as [-> | ->]; [|done].
  unfold destroy_at. by rewrite load_record, load_store_ne.
Qed.

Lemma allocations_destroy A o d p m :
  filter is_Allocate (log (destroy A o d p m)) = filter is_Allocate (log m).
Proof.
  destruct (destroy_cases A o d p m) as [-> | ->]; [|done].
  unfold destroy_at. simpl. by rewrite log_store.
Qed.

End store_facts.

(** ** Blocks that come and go, and the loops over cells *)

Lemma layer_size_in_range A d SZ :
  sizes_in_range A -> layer_size A d = Some SZ -> SZ < size_modulus.
Proof.
  revert d. induction A; intros d Hr Hl; destruct d; simpl in *; try discriminate.
  - injection Hl as <-. tauto.
  - apply (IHA d); tauto.
Qed.

Lemma can_allocate_backing A : can_allocate (backing_allocator_of A) = can_allocate A.
Proof. induction A; simpl; auto. Qed.

Section blocks.
Context {T : Type}.
Implicit Types (m : mem T) (p q : ptr) (c x : option T) (b : base).

Lemma frame_refl P m : frame P m m.
Proof. repeat split; auto. Qed.

Lemma frame_trans P m1 m2 m3 : frame P m1 m2 -> frame P m2 m3 -> frame P m1 m3.
Proof.
  intros (L1 & S1 & N1) (L2 & S2 & N2). repeat split.
  - intros q Hq. rewrite L2, L1; auto.
  - intros b Hb. rewrite S2, S1; auto.
  - lia.
Qed.

Lemma frame_weaken (P Q : base -> Prop) m m' :
  (forall b, Q b -> P b) -> frame P m m' -> frame Q m m'.
Proof. intros H (L & S & N). repeat split; auto. Qed.

Lemma frame_store P p c m : ~ P (p_base p) -> frame P m (store p c m).
Proof.
  intros HP. repeat split.
  - intros q Hq. apply load_store_base. congruence.
  - intros b _. apply block_size_store.
  - by rewrite next_block_store.
Qed.

Lemma frame_record P e m : frame P m (record e m).
Proof. repeat split; auto. Qed.

Lemma frame_destroy P A o d p m : ~ P (p_base p) -> frame P m (destroy A o d p m).
Proof.
  intros HP. destruct (destroy_cases A o d p m) as [-> | ->]; [|apply frame_refl].
  unfold destroy_at. eapply frame_trans; [by apply frame_store|apply frame_record].
Qed.

(** *** The free store *)

Lemma block_size_heap_allocate n m b :
  block_size (heap_allocate n m).2 b
  = if decide (b = BHeap (next_block m)) then n else block_size m b.
Proof.
  unfold heap_allocate, block_size. simpl.
  destruct (decide (b = BHeap (next_block m))) as [->|Hne].
  - rewrite lookup_insert_eq, length_replicate. lia.
  - by rewrite lookup_insert_ne.
Qed.

Lemma load_heap_allocate n m q :
  p_base q <> BHeap (next_block m) -> load (heap_allocate n m).2 q = load m q.
Proof. intros H. unfold heap_allocate, load. simpl. by rewrite lookup_insert_ne. Qed.

Lemma frame_heap_allocate P n m :
  ~ P (BHeap (next_block m)) -> frame P m (heap_allocate n m).2.
Proof.
  intros HP. repeat split.
  - intros q Hq. apply load_heap_allocate. congruence.
  - intros b Hb. rewrite block_size_heap_allocate. case_decide; congruence.
  - simpl. lia.
Qed.

Lemma block_size_heap_deallocate p m b :
  b <> p_base p -> block_size (heap_deallocate p m) b = block_size m b.
Proof.
  intros H. unfold heap_deallocate, block_size.
  destruct p as [[| |id] o]; try done.
  destruct o; try done. simpl in *. by rewrite lookup_delete_ne.
Qed.

Lemma load_heap_deallocate p m q :
  p_base q <> p_base p -> load (heap_deallocate p m) q = load m q.
Proof.
  intros H. unfold heap_deallocate, load.
  destruct p as [[| |id] o]; try done.
  destruct o; try done. simpl in *. by rewrite lookup_delete_ne.
Qed.

Lemma next_block_heap_deallocate p m : next_block (heap_deallocate p m) = next_block m.
Proof. unfold heap_deallocate. destruct p as [[| |id] o]; try done. by destruct o. Qed.

Lemma frame_heap_deallocate P p m : ~ P (p_base p) -> frame P m (heap_deallocate p m).
Proof.
  intros HP. repeat split.
  - intros q Hq. apply load_heap_deallocate. congruence.
  - intros b Hb. apply block_size_heap_deallocate. congruence.
  - by rewrite next_block_heap_deallocate.
Qed.

Lemma heap_deallocate_gone id m :
  blocks (heap_deallocate (Ptr (BHeap id) 0) m) !! BHeap id = None.
Proof. simpl. apply lookup_delete_eq. Qed.

(** *** [deallocate] *)

(** [deallocate] does nothing, or reaches the free store. *)
Lemma deallocate_cases A o d p n m :
  deallocate A o d p n m = m \/ deallocate A o d p n m = heap_deallocate p m.
Proof.
  revert d. induction A; intros d; simpl; auto.
  case_bool_decide; auto.
Qed.

Lemma deallocate_own A o d k SZ n m :
  layer_size A k = Some SZ -> deallocate A o d (m_data o (d + k)) n m = m.
Proof.
  revert d k. induction A; intros d k Hl; destruct k; simpl in *; try discriminate.
  - rewrite Nat.add_0_r. by rewrite bool_decide_eq_true_2.
  - rewrite bool_decide_eq_false_2.
    + replace (d + S k)%nat with (S d + k)%nat by lia. by apply IHA.
    + unfold m_data. intros [=]. lia.
Qed.

Lemma deallocate_heap A o d p n m :
  can_allocate A = true -> (forall o' d', p_base p <> BInline o' d') ->
  deallocate A o d p n m = heap_deallocate p m.
Proof.
  revert d. induction A; intros d Hc Hp; simpl in *; try discriminate; auto.
  rewrite bool_decide_eq_false_2; [by apply IHA|].
  intros ->. by apply (Hp o d).
Qed.

Lemma frame_deallocate P A o d p n m :
  ~ P (p_base p) -> frame P m (deallocate A o d p n m).
Proof.
  intros HP. destruct (deallocate_cases A o d p n m) as [-> | ->].
  - apply frame_refl.
  - by apply frame_heap_deallocate.
Qed.

Lemma allocations_deallocate A o d p n m :
  filter is_Allocate (log (deallocate A o d p n m)) = filter is_Allocate (log m).
Proof.
  destruct (deallocate_cases A o d p n m) as [-> | ->]; [done|].
  unfold heap_deallocate. destruct p as [[| |id] off]; try done. by destruct off.
Qed.

Lemma assign_range_copy_cells n p q m : assign_range n p q m = copy_cells Assign n p q m.
Proof. revert p q m. induction n; intros; simpl; [done|]. by rewrite IHn. Qed.

Lemma relocate_copy_cells A n i p q m :
  relocate A n i p q m = copy_cells Construct n (ptr_add p i) (ptr_add q i) m.
Proof.
  revert i m. induction n; intros; simpl; [done|].
  rewrite IHn, construct_construct_at, !ptr_add_add. done.
Qed.

Lemma construct_rest_copy_cells A n i p q m :
  construct_rest A n i p q m = copy_cells Construct n (ptr_add p i) q m.
Proof.
  revert i q m. induction n; intros; simpl; [done|].
  rewrite IHn, construct_construct_at, !ptr_add_add. done.
Qed.

Lemma frame_copy_cells P ev n p q m :
  ~ P (p_base q) -> frame P m (copy_cells ev n p q m).
Proof.
  revert p q m. induction n; intros p q m HP; simpl; [apply frame_refl|].
  eapply frame_trans; [|apply IHn; by rewrite ptr_add_base].
  eapply frame_trans; [by apply frame_store|apply frame_record].
Qed.

Lemma block_size_copy_cells ev n p q m b :
  block_size (copy_cells ev n p q m) b = block_size m b.
Proof.
  revert p q m. induction n; intros; simpl; [done|].
  by rewrite IHn, block_size_record, block_size_store.
Qed.

Lemma next_block_copy_cells ev n p q m :
  next_block (copy_cells ev n p q m) = next_block m.
Proof.
  revert p q m. induction n; intros; simpl; [done|].
  rewrite IHn. simpl. apply next_block_store.
Qed.

(** The cells before the run are not written. *)
Lemma load_copy_cells_before ev n p q m r :
  p_base r = p_base q -> p_off r < p_off q ->
  load (copy_cells ev n p q m) r = load m r.
Proof.
  revert p q m. induction n; intros p q m Hb Ho; simpl; [done|].
  rewrite IHn; [|done|simpl; lia].
  rewrite load_record. apply load_store_ne. intros ->. lia.
Qed.

(** The run holds what the source cells held, when the source is in another
    block and the run is inside its block. *)
Lemma load_copy_cells ev n p q m (j : N) :
  p_base p <> p_base q ->
  p_off q + N.of_nat n <= block_size m (p_base q) ->
  j < N.of_nat n ->
  load (copy_cells ev n p q m) (ptr_add q j) = load m (ptr_add p j).
Proof.
  revert p q m j. induction n; intros p q m j Hb Hr Hj; simpl; [lia|].
  destruct (decide (j = 0)) as [->|Hj0].
  - rewrite !ptr_add_0.
    rewrite load_copy_cells_before; [|done|simpl; lia].
    rewrite load_record. apply load_store_eq. lia.
  - replace (ptr_add q j) with (ptr_add (ptr_add q 1) (j - 1))
      by (rewrite ptr_add_add; f_equal; lia).
    rewrite IHn; try (simpl; lia); try done.
    + rewrite ptr_add_add, load_record, load_store_base by done.
      f_equal. f_equal. lia.
    + rewrite block_size_record, block_size_store. simpl. lia.
Qed.

Lemma allocations_copy_cells ev n p q m :
  (forall r, is_Allocate (ev r) = false) ->
  filter is_Allocate (log (copy_cells ev n p q m)) = filter is_Allocate (log m).
Proof.
  intros Hev. revert p q m. induction n; intros; simpl; [done|].
  rewrite IHn. simpl. rewrite log_store, filter_cons.
  destruct (decide (is_Allocate (ev q))) as [Hd|Hd]; [|done].
  by rewrite Hev in Hd.
Qed.

Lemma log_copy_cells (P : event -> bool) (t : bool) ev n p q m :
  (forall r, P (ev r) = t) ->
  length (filter P (log (copy_cells ev n p q m)))
  = ((if t then n else 0) + length (filter P (log m)))%nat.
Proof.
  intros HP. revert p q m. induction n; intros; simpl.
  - by destruct t.
  - rewrite IHn. simpl. rewrite log_store, filter_cons.
    specialize (HP q). destruct t; destruct (decide (P (ev q))) as [Hd|Hd]; simpl;
      rewrite HP in Hd; try lia; try (by exfalso; apply Hd); by exfalso.
Qed.

(** *** [allocate_at_least] *)

Variable native : heap_alloc -> N -> N.

(** With an allocator that can allocate, the request is met by the first
    adapter layer that is large enough, or by the free store. *)
Lemma allocate_at_least_can A o d n m :
  can_allocate A = true ->
  (exists k SZ, layer_size A k = Some SZ /\ n <= SZ
     /\ allocate_at_least native A o d n m
        = Granted {| ptr_ := m_data o (d + k); count := SZ |} m)
  \/ (exists g : N, (forall k SZ, layer_size A k = Some SZ -> SZ < n)
     /\ (native_contract native -> n < size_modulus -> n <= g < size_modulus)
     /\ allocate_at_least native A o d n m
        = Granted {| ptr_ := Ptr (BHeap (next_block m)) 0; count := g |}
            (heap_allocate g m).2).
Proof.
  revert d. induction A as [h| | | |SZ B IH]; intros d Hc; simpl in *; try discriminate.
  - right. destruct (ha_has_allocate_at_least h).
    + exists (native h n). repeat split; try (by apply H); auto. intros [|?] ? [=].
    + exists n. repeat split; auto; try lia. intros [|?] ? [=].
  - destruct (N.leb_spec n SZ) as [Hle|Hgt].
    + left. exists 0%nat, SZ. rewrite Nat.add_0_r. auto.
    + destruct (IH (S d) Hc) as [(k & SZ' & Hl & Hn & E) | (g & Hall & Hg & E)].
      * left. exists (S k), SZ'. replace (d + S k)%nat with (S d + k)%nat by lia. auto.
      * right. exists g. repeat split; auto; try (by apply Hg).
        intros [|k] SZ' Hl; simpl in Hl; [injection Hl as <-; lia|eauto].
Qed.

End blocks.

(** ** The container: representation invariant and basic facts *)

Lemma data_set_size sz v : data (set_size sz v) = data v.
Proof. unfold set_size, data. by destruct (can_allocate (Alloc v)) eqn:E; simpl; rewrite E. Qed.

Lemma capacity_set_size sz v : capacity (set_size sz v) = capacity v.
Proof. unfold set_size, capacity. by destruct (can_allocate (Alloc v)) eqn:E; simpl; rewrite E. Qed.

Lemma Alloc_set_size sz v : Alloc (set_size sz v) = Alloc v.
Proof. unfold set_size. by destruct (can_allocate (Alloc v)). Qed.

Lemma this_set_size sz v : this (set_size sz v) = this v.
Proof. unfold set_size. by destruct (can_allocate (Alloc v)). Qed.

Lemma m_alloc_set_size sz v : m_alloc (set_size sz v) = m_alloc v.
Proof. unfold set_size. by destruct (can_allocate (Alloc v)). Qed.

Lemma m_begin_set_size sz v : m_begin (m_storage (set_size sz v)) = m_begin (m_storage v).
Proof. unfold set_size. by destruct (can_allocate (Alloc v)). Qed.

Lemma m_capacity_set_size sz v :
  m_capacity (m_storage (set_size sz v)) = m_capacity (m_storage v).
Proof. unfold set_size. by destruct (can_allocate (Alloc v)). Qed.

Lemma size_set_size sz v :
  size (set_size sz v)
  = if can_allocate (Alloc v) then wrap sz else uint_holding (buffer_capacity (Alloc v)) sz.
Proof.
  unfold set_size, size. destruct (can_allocate (Alloc v)) eqn:E; simpl; rewrite E; simpl.
  - apply ptr_diff_add.
  - done.
Qed.


Lemma index_set_size sz v j : index (set_size sz v) j = index v j.
Proof. unfold index. by rewrite data_set_size. Qed.

Create Rewrite HintDb vec.
#[export] Hint Rewrite data_set_size capacity_set_size Alloc_set_size this_set_size
  m_alloc_set_size m_begin_set_size m_capacity_set_size index_set_size : vec.

Lemma size_lt_heap v : can_allocate (Alloc v) = true -> size v < size_modulus.
Proof. unfold size. intros ->. apply ptr_diff_lt. Qed.

Section container.
Context {T : Type}.
Implicit Types (m : mem T) (v : vector) (b : base).

Lemma wf_block_size v m : wf v m -> block_size m (p_base (data v)) = capacity v.
Proof.
  intros W. pose proof (wf_home v m W) as H.
  destruct (p_base (data v)) as [|o d|id].
  - rewrite H. apply W.
  - destruct H as [-> H]. by apply W.
  - tauto.
Qed.

Lemma wf_capacity_lt v m : wf v m -> capacity v < size_modulus.
Proof.
  intros W. destruct (can_allocate (Alloc v)) eqn:E.
  - unfold capacity. rewrite E. apply ptr_diff_lt.
  - pose proof (wf_home v m W) as H. unfold data in H. rewrite E in H. simpl in H.
    destruct H as [_ H]. eapply layer_size_in_range; [apply W|exact H].
Qed.

(** *** [pop_back], the loop over it, [clear] *)

Lemma pop_back_size_lt v m : 0 < size v -> size (pop_back v m).1 < size v.
Proof.
  intros H. unfold pop_back. simpl. rewrite size_set_size.
  destruct (can_allocate (Alloc v)) eqn:E.
  - pose proof (size_lt_heap v E). rewrite size_sub_small by lia.
    rewrite wrap_small; lia.
  - pose proof (uint_holding_le (buffer_capacity (Alloc v)) (size_sub (size v) 1)).
    unfold size_sub, wrap, size_modulus in *. lia.
Qed.

(** What [pop_back] keeps holds after the loop. *)
Lemma pop_loop_ind (R : vector -> mem T -> Prop) fuel sz v m :
  R v m ->
  (forall v m, R v m -> sz < size v -> R (pop_back v m).1 (pop_back v m).2) ->
  R (pop_loop fuel sz v m).1 (pop_loop fuel sz v m).2.
Proof.
  intros H0 Hstep. revert v m H0. induction fuel; intros v m H0; cbn [pop_loop]; [done|].
  destruct (N.ltb_spec sz (size v)); [|done].
  specialize (Hstep v m H0 H). destruct (pop_back v m) as [v1 m1]. apply IHfuel, Hstep.
Qed.

(** With [size()] rounds the loop ends. *)
Lemma pop_loop_size fuel sz v m :
  (N.to_nat (size v) <= fuel)%nat -> size (pop_loop fuel sz v m).1 <= sz.
Proof.
  revert v m. induction fuel; intros v m Hf; cbn [pop_loop].
  - simpl. lia.
  - destruct (N.ltb_spec sz (size v)); [|done].
    pose proof (pop_back_size_lt v m ltac:(lia)).
    destruct (pop_back v m) as [v1 m1]. apply IHfuel. simpl in *. lia.
Qed.


Lemma pop_loop_keeps fuel sz v m :
  let v' := (pop_loop fuel sz v m).1 in
  Alloc v' = Alloc v /\ this v' = this v /\ m_alloc v' = m_alloc v
  /\ data v' = data v /\ capacity v' = capacity v
  /\ m_begin (m_storage v') = m_begin (m_storage v)
  /\ m_capacity (m_storage v') = m_capacity (m_storage v).
Proof.
  apply (pop_loop_ind (fun v' _ =>
    Alloc v' = Alloc v /\ this v' = this v /\ m_alloc v' = m_alloc v
    /\ data v' = data v /\ capacity v' = capacity v
    /\ m_begin (m_storage v') = m_begin (m_storage v)
    /\ m_capacity (m_storage v') = m_capacity (m_storage v))); [tauto|].
  intros v' m' H _. unfold pop_back. simpl. autorewrite with vec. exact H.
Qed.

Lemma pop_loop_frame P fuel sz v m :
  ~ P (p_base (data v)) -> frame P m (pop_loop fuel sz v m).2.
Proof.
  intros HP.
  apply (pop_loop_ind (fun v' m' => data v' = data v /\ frame P m m')).
  - split; [done|apply frame_refl].
  - intros v' m' [Hd Hf] _. unfold pop_back. simpl. autorewrite with vec.
    split; [done|]. eapply frame_trans; [exact Hf|].
    apply frame_destroy. unfold end_, begin_. autorewrite with vec.
    by rewrite ptr_add_base, Hd.
Qed.

Lemma pop_loop_store fuel sz v m :
  let m' := (pop_loop fuel sz v m).2 in
  (forall b, block_size m' b = block_size m b)
  /\ next_block m' = next_block m
  /\ filter is_Allocate (log m') = filter is_Allocate (log m).
Proof.
  apply (pop_loop_ind (fun _ m' =>
    (forall b, block_size m' b = block_size m b)
    /\ next_block m' = next_block m
    /\ filter is_Allocate (log m') = filter is_Allocate (log m))); [done|].
  intros v' m' (Hs & Hn & Hl) _. unfold pop_back. simpl. repeat split.
  - intros b. by rewrite block_size_destroy.
  - by rewrite next_block_destroy.
  - by rewrite allocations_destroy.
Qed.

Lemma clear_size v m : size (clear v m).1 = 0.
Proof.
  pose proof (pop_loop_size (N.to_nat (size v)) 0 v m ltac:(lia)). unfold clear. lia.
Qed.

End container.

(** ** [reserve] *)

Section reserve_facts.
Context {T : Type}.
Implicit Types (m : mem T) (v : vector) (b : base).

Lemma block_size_deallocate_ne A o d p n m b :
  b <> p_base p -> block_size (deallocate A o d p n m) b = block_size m b.
Proof.
  intros H. destruct (deallocate_cases A o d p n m) as [-> | ->]; [done|].
  by apply block_size_heap_deallocate.
Qed.

Lemma block_size_deallocate_not_heap A o d p n m b :
  (forall id, b <> BHeap id) -> block_size (deallocate A o d p n m) b = block_size m b.
Proof.
  intros H. destruct (deallocate_cases A o d p n m) as [-> | ->]; [done|].
  unfold heap_deallocate, block_size. destruct p as [[| |id] off]; try done.
  destruct off; try done. simpl. rewrite lookup_delete_ne; [done|]. intros <-. by apply (H id).
Qed.

Lemma next_block_deallocate A o d p n m :
  next_block (deallocate A o d p n m) = next_block m.
Proof.
  destruct (deallocate_cases A o d p n m) as [-> | ->]; [done|].
  apply next_block_heap_deallocate.
Qed.

Lemma data_adopted r v : can_allocate (Alloc v) = true -> data (adopted r v) = ptr_ r.
Proof. intros H. unfold data, adopted. simpl. by rewrite H. Qed.

Lemma size_adopted r v : can_allocate (Alloc v) = true -> size (adopted r v) = size v.
Proof.
  intros H. unfold size at 1. simpl. rewrite H, ptr_diff_add.
  apply wrap_small. by apply size_lt_heap.
Qed.

Lemma capacity_adopted r v :
  can_allocate (Alloc v) = true -> count r < size_modulus ->
  capacity (adopted r v) = count r.
Proof.
  intros H Hc. unfold capacity. simpl. rewrite H, ptr_diff_add. by apply wrap_small.
Qed.

(** The heart of [reserve]: the cells go to the new block [b'], which is
    inside [m1] with [cnt] cells, the old block is given back, and the
    container is again well formed. *)
Lemma reserve_adopt v m m1 b' cnt :
  wf v m -> can_allocate (Alloc v) = true ->
  b' <> p_base (data v) ->
  size v <= cnt -> cnt < size_modulus ->
  block_size m1 b' = cnt ->
  frame (fun b => b <> b') m m1 ->
  ((exists k, b' = BInline (this v) k /\ layer_size (Alloc v) k = Some cnt)
   \/ (exists id, b' = BHeap id /\ (next_block m <= id < next_block m1)%nat)) ->
  let r := {| ptr_ := Ptr b' 0; count := cnt |} in
  let m3 := deallocate (Alloc v) (this v) 0 (data v) (capacity v)
              (copy_cells Construct (N.to_nat (size v)) (data v) (ptr_ r) m1) in
  wf (adopted r v) m3
  /\ (forall j, j < size v -> load m3 (index (adopted r v) j) = load m (index v j))
  /\ frame (foreign v m) m m3
  /\ (forall b, foreign v m b -> foreign (adopted r v) m3 b)
  /\ filter is_Allocate (log m3) = filter is_Allocate (log m1)
  /\ (forall id, p_base (data v) = BHeap id -> blocks m3 !! BHeap id = None).
Proof.
  intros W Hc Hne Hsz Hcnt Hbs Hfr Hhome r m3.
  set (m2 := copy_cells Construct (N.to_nat (size v)) (data v) (ptr_ r) m1) in *.
  assert (Hr : ptr_ r = Ptr b' 0) by done.
  assert (Hd : data (adopted r v) = Ptr b' 0) by (by rewrite data_adopted).
  assert (Hs' : size (adopted r v) = size v) by (by apply size_adopted).
  assert (Hc' : capacity (adopted r v) = cnt) by (by apply capacity_adopted).
  assert (Hnb : next_block m3 = next_block m1).
  { unfold m3, m2. by rewrite next_block_deallocate, next_block_copy_cells. }
  assert (Hbs3 : forall b, b <> p_base (data v) \/ (forall id, b <> BHeap id) ->
                           block_size m3 b = block_size m1 b).
  { intros b [H|H]; unfold m3, m2.
    - by rewrite block_size_deallocate_ne, block_size_copy_cells.
    - by rewrite block_size_deallocate_not_heap, block_size_copy_cells. }
  assert (Hfor : forall b, foreign v m b -> b <> b').
  { intros b (F1 & F2 & F3) ->.
    destruct Hhome as [(k & -> & _) | (id & -> & Hid)].
    - by apply (F2 k).
    - specialize (F3 id eq_refl). lia. }
  destruct Hfr as (FL & FS & FN).
  split; [|split; [|split; [|split; [|split]]]].
  - (* wf *)
    constructor.
    + rewrite Hbs3 by (right; done). destruct (decide (b' = BNull)) as [->|H0].
      * destruct Hhome as [(k & ? & _) | (id & ? & _)]; done.
      * rewrite FS by done. apply W.
    + apply W.
    + intros d SZ Hl. change (this (adopted r v)) with (this v).
      rewrite Hbs3 by (right; done).
      destruct (decide (BInline (this v) d = b')) as [<-|Hdb].
      * rewrite Hbs. destruct Hhome as [(k & [= <-] & Hk) | (id & ? & _)]; [|done].
        change (Alloc (adopted r v)) with (Alloc v) in Hl. congruence.
      * rewrite FS by done. by apply W.
    + by rewrite Hd.
    + intros _. lia.
    + intros _. rewrite Hd, Hs', Hc'. done.
    + rewrite Hd. simpl. destruct Hhome as [(k & -> & Hk) | (id & -> & Hid)].
      * rewrite Hc'. done.
      * rewrite Hc', Hnb. split; [lia|]. by rewrite Hbs3 by (left; congruence).
  - (* the cells *)
    intros j Hj. unfold index. rewrite Hd. unfold m3.
    destruct (frame_deallocate (fun b => b = b') (Alloc v) (this v) 0 (data v)
                (capacity v) m2) as (DL & _); [congruence|].
    rewrite DL by done. unfold m2. rewrite Hr.
    rewrite load_copy_cells.
    + apply FL. simpl. congruence.
    + simpl. congruence.
    + change (p_base (Ptr b' 0)) with b'. rewrite Hbs. simpl. lia.
    + lia.
  - (* frame *)
    apply (frame_trans _ m m1); [|apply (frame_trans _ m1 m2)].
    + eapply frame_weaken; [|exact (conj FL (conj FS FN))]. exact Hfor.
    + apply (frame_copy_cells (foreign v m)). simpl. intros F.
      exact (Hfor b' F eq_refl).
    + apply frame_deallocate. intros (F & _). by apply F.
  - (* foreign *)
    intros b F. pose proof (Hfor b F) as Hb. destruct F as (F1 & F2 & F3).
    repeat split.
    + by rewrite Hd.
    + exact F2.
    + intros id Hid. specialize (F3 id Hid). lia.
  - unfold m3, m2. rewrite allocations_deallocate, allocations_copy_cells; done.
  - intros id Hid. unfold m3.
    pose proof (wf_data_off v m W) as Hoff.
    assert (Hdv : data v = Ptr (BHeap id) 0)
      by (destruct (data v); simpl in *; congruence).
    rewrite deallocate_heap; [|done|rewrite Hid; done].
    rewrite Hdv. apply heap_deallocate_gone.
Qed.

Variable native : heap_alloc -> N -> N.

Lemma reserve_noop n v m : n <= capacity v -> reserve native n v m = Ok (v, m).
Proof. intros H. unfold reserve. destruct (N.leb_spec n (capacity v)); [done|lia]. Qed.

Lemma reserve_unfold n v m :
  capacity v < n -> can_allocate (Alloc v) = true ->
  reserve native n v m =
  match allocate_at_least native (Alloc v) (this v) 0 n m with
  | Granted result m1 =>
      Ok (adopted result v,
          deallocate (Alloc v) (this v) 0 (data v) (capacity v)
            (copy_cells Construct (N.to_nat (size v)) (data v) (ptr_ result) m1))
  | BadAlloc => Raise (v, m)
  | Terminated => Abort
  end.
Proof.
  intros H Hc. unfold reserve. destruct (N.leb_spec n (capacity v)); [lia|].
  rewrite Hc. destruct (allocate_at_least _ _ _ _ _ _); try done.
  by rewrite relocate_copy_cells, !ptr_add_0.
Qed.

End reserve_facts.

Section reserve_spec.
Context {T : Type}.
Variable native : heap_alloc -> N -> N.
Implicit Types (m : mem T) (v : vector) (b : base).

Lemma reserve_grow n v m :
  wf v m -> can_allocate (Alloc v) = true -> capacity v < n -> n < size_modulus ->
  native_contract native ->
  exists v' m', reserve native n v m = Ok (v', m')
    /\ reserved n v m v' m'
    /\ p_base (data v') <> p_base (data v)
    /\ (forall id, p_base (data v) = BHeap id -> blocks m' !! BHeap id = None)
    /\ (length (filter is_Allocate (log m')) <= S (length (filter is_Allocate (log m))))%nat
    /\ ((forall k SZ, layer_size (Alloc v) k = Some SZ -> SZ < n) ->
        length (filter is_Allocate (log m')) = S (length (filter is_Allocate (log m)))).
Proof.
  intros W Hc Hlt HM Hnat.
  rewrite reserve_unfold by done.
  pose proof (wf_size v m W Hc) as Hsz.
  destruct (allocate_at_least_can native (Alloc v) (this v) 0 n m Hc)
    as [(k & SZ & Hl & Hn & ->) | (g & Hall & Hg & ->)].
  - (* an inline buffer of the allocator *)
    change (m_data (this v) (0 + k)) with (Ptr (BInline (this v) k) 0).
    assert (HSZ : SZ < size_modulus) by (eapply layer_size_in_range; [apply W|exact Hl]).
    assert (Hne : BInline (this v) k <> p_base (data v)).
    { intros E. pose proof (wf_home v m W) as H. rewrite <- E in H.
      destruct H as [_ H]. rewrite Hl in H. injection H as H. lia. }
    destruct (reserve_adopt v m m (BInline (this v) k) SZ W Hc Hne ltac:(lia) HSZ
                (wf_placed v m W k SZ Hl) (frame_refl _ _)
                (or_introl (ex_intro _ k (conj eq_refl Hl))))
      as (R1 & R2 & R3 & R4 & R5 & R6).
    eexists _, _. split; [reflexivity|]. split; [|split; [|split; [|split]]].
    + constructor; try done.
      * by apply size_adopted.
      * rewrite capacity_adopted by done. simpl. lia.
      * rewrite capacity_adopted by done. simpl. lia.
    + by rewrite data_adopted.
    + exact R6.
    + unfold m_data. rewrite R5. lia.
    + intros Hall. specialize (Hall k SZ Hl). lia.
  - (* the free store *)
    destruct (Hg Hnat HM) as [Hg1 Hg2].
    assert (Hne : BHeap (next_block m) <> p_base (data v)).
    { intros E. pose proof (wf_home v m W) as H. rewrite <- E in H. lia. }
    assert (Hbs : block_size (heap_allocate g m).2 (BHeap (next_block m)) = g).
    { rewrite block_size_heap_allocate. by rewrite decide_True. }
    assert (Hfr : frame (fun b => b <> BHeap (next_block m)) m (heap_allocate g m).2).
    { apply frame_heap_allocate. auto. }
    assert (Hhome : (exists k, BHeap (next_block m) = BInline (this v) k
                               /\ layer_size (Alloc v) k = Some g)
                    \/ (exists id, BHeap (next_block m) = BHeap id
                         /\ (next_block m <= id < next_block (heap_allocate g m).2)%nat)).
    { right. exists (next_block m). simpl. split; [done|lia]. }
    destruct (reserve_adopt v m (heap_allocate g m).2 (BHeap (next_block m)) g
                W Hc Hne ltac:(lia) Hg2 Hbs Hfr Hhome)
      as (R1 & R2 & R3 & R4 & R5 & R6).
    eexists _, _. split; [reflexivity|]. split; [|split; [|split; [|split]]].
    + constructor; try done.
      * by apply size_adopted.
      * rewrite capacity_adopted by done. simpl. lia.
      * rewrite capacity_adopted by done. simpl. lia.
    + by rewrite data_adopted.
    + exact R6.
    + rewrite R5. simpl. lia.
    + intros _. rewrite R5. simpl. lia.
Qed.

Lemma reserved_refl n v m : wf v m -> n <= capacity v -> reserved n v m v m.
Proof. intros W H. constructor; auto; try lia. apply frame_refl. Qed.

(** [reserve] returns whenever the allocator can allocate or the request
    fits. *)
Lemma reserve_ok n v m :
  wf v m -> n < size_modulus -> native_contract native ->
  can_allocate (Alloc v) = true \/ n <= capacity v ->
  exists v' m', reserve native n v m = Ok (v', m') /\ reserved n v m v' m'.
Proof.
  intros W HM Hnat Hor.
  destruct (N.le_gt_cases n (capacity v)) as [Hle|Hgt].
  - exists v, m. split; [by apply reserve_noop|by apply reserved_refl].
  - destruct Hor as [Hc|?]; [|lia].
    destruct (reserve_grow n v m W Hc Hgt HM Hnat) as (v' & m' & E & R & _).
    eauto.
Qed.

End reserve_spec.

(** ** [push_back] *)

Section push_back_spec.
Context {T : Type}.
Implicit Types (m : mem T) (v : vector) (b : base).

Lemma wf_mem v m m' :
  wf v m -> (forall b, block_size m' b = block_size m b) ->
  (next_block m <= next_block m')%nat -> wf v m'.
Proof.
  intros W Hs Hn. constructor; try apply W.
  - rewrite Hs. apply W.
  - intros d SZ Hl. rewrite Hs. by apply W.
  - pose proof (wf_home v m W) as H. destruct (p_base (data v)); auto.
    rewrite Hs. split; [lia|tauto].
Qed.

Lemma wf_set_size s v m : wf v m -> s <= capacity v -> wf (set_size s v) m.
Proof.
  intros W Hs. pose proof (wf_capacity_lt v m W) as HM.
  constructor; autorewrite with vec; try apply W.
  - intros Hc. rewrite size_set_size, Hc, wrap_small; lia.
  - intros Hc. rewrite size_set_size, Hc, wrap_small by lia.
    destruct (wf_rep v m W Hc) as [_ H2]. split; [|exact H2].
    unfold set_size, data. rewrite Hc. simpl. done.
Qed.

Lemma size_set_size_fits s v m :
  wf v m -> s <= capacity v -> size (set_size s v) = s.
Proof.
  intros W Hs. pose proof (wf_capacity_lt v m W) as HM. rewrite size_set_size.
  destruct (can_allocate (Alloc v)) eqn:Hc.
  - apply wrap_small. lia.
  - pose proof (wf_home v m W) as H. unfold data, capacity in *. rewrite Hc in *.
    simpl in H. destruct H as [_ H]. apply uint_holding_small; [|done].
    eapply layer_size_in_range; [apply W|exact H].
Qed.

Lemma elements_lookup v m (i : nat) :
  elements v m !! i
  = if decide (i < N.to_nat (size v))%nat then Some (load m (index v (N.of_nat i))) else None.
Proof.
  unfold elements. rewrite list_lookup_fmap.
  destruct (decide (i < N.to_nat (size v))%nat) as [H|H].
  - by rewrite lookup_seq_lt.
  - by rewrite lookup_seq_ge by lia.
Qed.

Lemma elements_length v m : length (elements v m) = N.to_nat (size v).
Proof. unfold elements. by rewrite length_fmap, length_seq. Qed.

Lemma elements_ext v m v' m' :
  size v' = size v ->
  (forall j, j < size v -> load m' (index v' j) = load m (index v j)) ->
  elements v' m' = elements v m.
Proof.
  intros Hs Hl. apply list_eq. intros i. rewrite !elements_lookup, Hs.
  case_decide; [|done]. f_equal. apply Hl. lia.
Qed.

Lemma elements_snoc v m v' m' x :
  size v' = size v + 1 ->
  (forall j, j < size v -> load m' (index v' j) = load m (index v j)) ->
  load m' (index v' (size v)) = x ->
  elements v' m' = elements v m ++ [x].
Proof.
  intros Hs Hl Hx. apply list_eq. intros i.
  rewrite elements_lookup, Hs.
  destruct (decide (i < N.to_nat (size v))%nat) as [H|H].
  - rewrite lookup_app_l by (rewrite elements_length; lia).
    rewrite elements_lookup, decide_True by lia.
    rewrite decide_True by lia. f_equal. apply Hl. lia.
  - rewrite lookup_app_r by (rewrite elements_length; lia).
    rewrite elements_length.
    destruct (decide (i = N.to_nat (size v))) as [->|Hne].
    + rewrite decide_True by lia. rewrite Nat.sub_diag. simpl.
      by rewrite N2Nat.id, Hx.
    + rewrite decide_False by lia.
      destruct (i - N.to_nat (size v))%nat eqn:E; [lia|done].
Qed.

Variable native : heap_alloc -> N -> N.

Lemma request_lt v : request v < size_modulus.
Proof. unfold request, wrap, size_modulus. lia. Qed.

Lemma bump_push v m :
  size v + 1 < size_modulus ->
  bump native (wrap (size v + 1)) v m = reserve native (request v) v m.
Proof.
  intros H. unfold bump, request. rewrite (wrap_small (size v + 1)) by done.
  by destruct (N.leb_spec (size v + 1) (size v)); [lia|].
Qed.

Lemma push_back_spec x v m :
  wf v m -> size v + 1 < size_modulus -> native_contract native ->
  can_allocate (Alloc v) = true \/ request v <= capacity v ->
  exists v' m', push_back native x v m = Ok (v', m') /\ pushed x v m v' m'
    /\ exists v1 m1, reserve native (request v) v m = Ok (v1, m1)
         /\ v' = set_size (size v + 1) v1
         /\ filter is_Allocate (log m') = filter is_Allocate (log m1).
Proof.
  intros W HM Hnat Hor.
  destruct (reserve_ok native (request v) v m W (request_lt v) Hnat Hor)
    as (v1 & m1 & E & R).
  unfold push_back. rewrite bump_push, E by done.
  destruct R as [RW RA Rt Ra Rs Rc Rg Rl Rf Rfo].
  assert (Hreq : size v + 1 <= request v).
  { unfold request. rewrite wrap_small by done. lia. }
  rewrite Rs, (wrap_small (size v + 1)) by done.
  rewrite construct_construct_at. unfold construct_at.
  set (m2 := record _ _).
  assert (Hbs : forall b, block_size m2 b = block_size m1 b).
  { intros b. unfold m2. by rewrite block_size_record, block_size_store. }
  assert (Hnb : next_block m2 = next_block m1).
  { unfold m2. simpl. by rewrite next_block_store. }
  assert (Hend : end_ v1 = index v1 (size v)).
  { unfold end_, begin_, index. by rewrite Rs. }
  eexists _, _. split; [reflexivity|]. split.
  - constructor; autorewrite with vec; auto.
    + apply wf_set_size; [|lia]. eapply wf_mem; [exact RW|exact Hbs|lia].
    + rewrite (size_set_size_fits _ _ m1); [done|done|lia].
    + unfold m2. rewrite load_record, Hend. apply load_store_eq.
      unfold index. rewrite ptr_add_base. rewrite (wf_block_size v1 m1 RW).
      simpl. rewrite (wf_data_off v1 m1 RW). lia.
    + intros j Hj. unfold m2. rewrite index_set_size, load_record, load_store_ne.
      * by apply Rl.
      * rewrite Hend. unfold index, ptr_add. intros [=]. lia.
    + eapply frame_trans; [exact Rf|]. unfold m2.
      eapply frame_trans; [|apply frame_record]. apply frame_store.
      intros F. apply Rfo in F. destruct F as [F _]. apply F.
      unfold end_, begin_. by rewrite ptr_add_base.
    + intros b F. apply Rfo in F. destruct F as (F1 & F2 & F3).
      repeat split; autorewrite with vec; auto.
      intros id Hid. rewrite Hnb. auto.
  - exists v1, m1. repeat split. unfold m2. simpl. by rewrite log_store.
Qed.

End push_back_spec.

(** ** Containers coming into being, and a check of the invariant *)

Section emerge_facts.
Context {T : Type}.
Implicit Types (m : mem T) (v : vector) (b : base).

Lemma place_buffers_own A o d k SZ (bs : gmap base (list (option T))) :
  layer_size A k = Some SZ ->
  place_buffers A o d bs !! BInline o (d + k) = Some (replicate (N.to_nat SZ) None).
Proof.
  revert d k. induction A; intros d k Hl; destruct k; simpl in *; try discriminate.
  - injection Hl as ->. by rewrite Nat.add_0_r, lookup_insert_eq.
  - rewrite lookup_insert_ne by (intros [=]; lia).
    replace (d + S k)%nat with (S d + k)%nat by lia. by apply IHA.
Qed.

Lemma place_buffers_other A o d b (bs : gmap base (list (option T))) :
  (forall k, b <> BInline o k) -> place_buffers A o d bs !! b = bs !! b.
Proof.
  revert d. induction A; intros d Hb; simpl; auto.
  rewrite lookup_insert_ne; auto.
Qed.

Lemma frame_emerge A addr junk m :
  frame (fun b => forall k, b <> BInline addr k) m (emerge A addr junk m).2.
Proof.
  repeat split; simpl; auto.
  - intros q Hq. unfold load. simpl. by rewrite place_buffers_other.
  - intros b Hb. unfold block_size. simpl. by rewrite place_buffers_other.
Qed.

Lemma emerge_wf A addr junk m :
  block_size m BNull = 0 -> usable A ->
  wf (emerge A addr junk m).1 (emerge A addr junk m).2.
Proof.
  intros H0 [Hr Hs]. constructor; simpl.
  - unfold block_size in *. simpl. by rewrite place_buffers_other.
  - done.
  - intros d SZ Hl. unfold block_size. simpl.
    rewrite (place_buffers_own A addr 0 d SZ) by done.
    rewrite length_replicate. lia.
  - unfold data. simpl. by destruct (can_allocate A).
  - intros Hc. unfold size, capacity. simpl. rewrite Hc. by rewrite ptr_diff_self.
  - intros Hc. unfold size, capacity, data. simpl. rewrite Hc. by rewrite ptr_diff_self.
  - unfold data, capacity. simpl. destruct (can_allocate A) eqn:Hc; simpl.
    + apply ptr_diff_self.
    + auto.
Qed.

Lemma default_ctor_wf A addr junk m :
  block_size m BNull = 0 -> usable A ->
  wf (default_ctor A addr junk m).1 (default_ctor A addr junk m).2.
Proof.
  intros H0 HA. pose proof (emerge_wf A addr junk m H0 HA) as W.
  unfold default_ctor. destruct (emerge A addr junk m) as [v m0] eqn:E.
  injection E as <- <-. simpl in *.
  destruct (can_allocate A) eqn:Hc; simpl.
  - destruct W as [W1 W2 W3 W4 W5 W6 W7]. constructor; auto.
  - destruct W as [W1 W2 W3 W4 W5 W6 W7].
    constructor; auto; simpl; try (intros ?; congruence);
      unfold data, capacity in *; simpl in *; rewrite Hc in *; auto.
Qed.

Lemma sizes_in_rangeb_true A : sizes_in_rangeb A = true -> sizes_in_range A.
Proof.
  induction A; simpl; auto. intros [H1 H2]%andb_prop.
  split; [by apply N.ltb_lt|auto].
Qed.

Lemma placedb_true A o d m k SZ :
  placedb A o d m = true -> layer_size A k = Some SZ ->
  block_size m (BInline o (d + k)) = SZ.
Proof.
  revert d k. induction A; intros d k Hp Hl; destruct k; simpl in *; try discriminate.
  - apply andb_prop in Hp as [Hp _]. injection Hl as <-.
    rewrite Nat.add_0_r. by apply N.eqb_eq.
  - apply andb_prop in Hp as [_ Hp].
    replace (d + S k)%nat with (S d + k)%nat by lia. by apply IHA.
Qed.

Lemma wfb_wf v m : wfb v m = true -> wf v m.
Proof.
  unfold wfb. intros H. split_andb. constructor.
  - by apply N.eqb_eq.
  - by apply sizes_in_rangeb_true.
  - intros d SZ Hl. by apply (placedb_true (Alloc v) (this v) 0 m d SZ).
  - by apply N.eqb_eq.
  - intros Hc. rewrite Hc in *. split_andb. by apply N.leb_le.
  - intros Hc. rewrite Hc in *. split_andb. split; by eapply bool_decide_eq_true_1.
  - destruct (p_base (data v)); cbn beta iota in *; split_andb.
    + by apply N.eqb_eq.
    + split; by eapply bool_decide_eq_true_1.
    + split; [by eapply bool_decide_eq_true_1|by apply N.eqb_eq].
Qed.

End emerge_facts.

(** ** Concrete allocators and stores *)

Lemma exact_contract : native_contract exact.
Proof. intros h i Hi. unfold exact. lia. Qed.

(** ** The allocation protocol *)

(** C9. [allocate_at_least] grants at least the request: a result it
    returns has [count] at least the requested count, given that the
    members [allocate_at_least] from outside this repository keep their
    contract; an allocator without the member gets [allocate] and exactly
    the requested count; the buffered adapter answers a request of at most
    [SZ] with its [m_data] and [SZ], and passes a larger one on to
    [allocate_at_least] of its backing allocator; an allocator that can
    allocate always gets a result. *)
Theorem allocate_at_least_grants {T : Type} (native : heap_alloc -> N -> N)
    (A : alloc_ty) (o d : nat) (n : N) (m : mem T) :
  native_contract native -> n < size_modulus ->
  (forall r m', allocate_at_least native A o d n m = Granted r m' -> n <= count r)
  /\ (_Has_member_allocate_at_least A = false ->
      allocate_at_least native A o d n m
      = match allocate A o d n m with
        | Granted p m' => Granted {| ptr_ := p; count := n |} m'
        | BadAlloc => BadAlloc
        | Terminated => Terminated
        end)
  /\ (forall SZ B, n <= SZ ->
      allocate_at_least native (buffered_allocator SZ B) o d n m
      = Granted {| ptr_ := m_data o d; count := SZ |} m)
  /\ (forall SZ B, SZ < n ->
      allocate_at_least native (buffered_allocator SZ B) o d n m
      = allocate_at_least native B o (S d) n m)
  /\ (can_allocate A = true ->
      exists r m', allocate_at_least native A o d n m = Granted r m').
Proof.
  intros Hnat HM. split; [|split; [|split; [|split]]].
  - revert d. induction A as [h| | | |SZ B IH]; intros d r m'; simpl.
    + destruct (ha_has_allocate_at_least h); intros [= <- _]; simpl; [|lia].
      by apply Hnat.
    + discriminate.
    + discriminate.
    + intros [= <- _]. simpl. lia.
    + destruct (N.leb_spec n SZ); [intros [= <- _]; simpl; lia|apply IH].
  - destruct A as [h| | | |SZ B]; simpl; try done. by intros ->.
  - intros SZ B Hle. simpl. by destruct (N.leb_spec n SZ); [|lia].
  - intros SZ B Hlt. simpl. by destruct (N.leb_spec n SZ); [lia|].
  - intros Hc.
    destruct (allocate_at_least_can native A o d n m Hc)
      as [(k & SZ & _ & _ & ->) | (g & _ & _ & ->)]; eauto.
Qed.

Lemma allocate_at_least_grants_witness :
  match allocate_at_least exact (sbo_vector 3 (allocator std_allocator)) 1 0 4 empty_store with
  | Granted r _ => 4 <= count r
  | _ => False
  end.
Proof.
  destruct (allocate_at_least exact (sbo_vector 3 (allocator std_allocator)) 1 0 4 empty_store)
    as [r m'| |] eqn:E.
  - apply (proj1 (allocate_at_least_grants exact (sbo_vector 3 (allocator std_allocator))
                    1 0 4 empty_store exact_contract ltac:(reflexivity)) r m' E).
  - discriminate E.
  - discriminate E.
Defined.

(** ** [reserve] and [push_back] on a container that can allocate *)

Lemma three_wf : wf three.1 three.2.
Proof. apply wfb_wf. vm_compute. reflexivity. Qed.

(** C5. With an allocator that can allocate, [reserve(n)] for
    [n <= capacity()] changes nothing, neither the container nor the
    store; for [n > capacity()] it returns with [size()] and the elements
    as they were, in order, [capacity() >= n], the old block given back to
    the free store if it came from there, and the container in a new block
    whose bounds [m_begin], [m_end] and [m_capacity] are. *)
Theorem reserve_keeps_elements {T : Type} (native : heap_alloc -> N -> N)
    (v : vector) (m : mem T) (n : N) :
  wf v m -> can_allocate (Alloc v) = true -> n < size_modulus ->
  native_contract native ->
  (n <= capacity v -> reserve native n v m = Ok (v, m))
  /\ (capacity v < n ->
      exists v' m', reserve native n v m = Ok (v', m')
        /\ size v' = size v
        /\ elements v' m' = elements v m
        /\ n <= capacity v'
        /\ (forall id, p_base (data v) = BHeap id -> blocks m' !! BHeap id = None)
        /\ p_base (data v') <> p_base (data v)
        /\ block_size m' (p_base (data v')) = capacity v'
        /\ m_begin (m_storage v') = data v'
        /\ m_end (m_storage v') = ptr_add (data v') (size v)
        /\ m_capacity (m_storage v') = ptr_add (data v') (capacity v')).
Proof.
  intros W Hc HM Hnat. split; [apply reserve_noop|].
  intros Hlt.
  destruct (reserve_grow native n v m W Hc Hlt HM Hnat)
    as (v' & m' & E & R & Hnew & Hgone & _).
  destruct R as [RW RA Rt Ra Rs Rc Rg Rl Rf Rfo].
  assert (Hc' : can_allocate (Alloc v') = true) by congruence.
  destruct (wf_rep v' m' RW Hc') as [He Hcap].
  exists v', m'. repeat split; auto.
  - by apply elements_ext.
  - by apply wf_block_size.
  - unfold data. by rewrite Hc'.
  - by rewrite He, Rs.
Qed.

Lemma reserve_keeps_elements_witness :
  reserve exact 3 three.1 three.2 = Ok three
  /\ match reserve exact 5 three.1 three.2 with
     | Ok (v', m') =>
         size v' = 3 /\ elements v' m' = [Some 1; Some 2; Some 3]%Z /\ 5 <= capacity v'
     | _ => False
     end.
Proof.
  pose proof (reserve_keeps_elements exact three.1 three.2 3 three_wf
                ltac:(reflexivity) ltac:(reflexivity) exact_contract) as [H3 _].
  pose proof (reserve_keeps_elements exact three.1 three.2 5 three_wf
                ltac:(reflexivity) ltac:(reflexivity) exact_contract) as [_ H5].
  split.
  - apply H3. vm_compute. discriminate.
  - destruct H5 as (v' & m' & -> & Hs & He & Hc & _); [reflexivity|].
    rewrite Hs, He. split; [reflexivity|]. split; [vm_compute; reflexivity|exact Hc].
Defined.

(** ** Requests that are turned down *)

Lemma grants_can_allocate A n : can_allocate A = true -> grants A n = true.
Proof.
  induction A as [h| | | |SZ B IH]; simpl; try done.
  intros Hc. rewrite IH by done. apply orb_true_r.
Qed.

Lemma grants_buffer A n : grants A n = false -> 0 < n -> buffer_capacity A < n.
Proof.
  destruct A as [h| | | |SZ B]; simpl; try done.
  intros H _. apply orb_false_elim in H as [H _]. by apply N.leb_gt.
Qed.

Lemma grants_backing A n :
  grants A n = false ->
  backing_allocator_of A = throwing_allocator
  \/ backing_allocator_of A = terminating_allocator.
Proof.
  induction A as [h| | | |SZ B IH]; simpl; try done; auto.
  intros H. apply orb_false_elim in H as [_ H]. auto.
Qed.

Lemma refuses_beyond_grants SZ A n :
  refuses_beyond SZ A = true -> SZ < n -> grants A n = false.
Proof.
  induction A as [h| | | |SZ' B IH]; simpl; try done.
  intros H Hn. apply andb_prop in H as [H1 H2]. apply N.leb_le in H1.
  rewrite IH by done. destruct (N.leb_spec n SZ'); [lia|done].
Qed.

(** [refuses_beyond] says what its name says: an allocator type for which
    it fails grants the request for [SZ + 1]. *)
Lemma refuses_beyond_spec SZ A :
  refuses_beyond SZ A = true <-> (forall n, SZ < n -> grants A n = false).
Proof.
  split; [intros H n; by apply refuses_beyond_grants|].
  intros H. specialize (H (SZ + 1) ltac:(lia)).
  induction A as [h| | | |SZ' B IH]; simpl in *; try done.
  apply orb_false_elim in H as [H1 H2]. apply N.leb_gt in H1.
  rewrite IH by done. destruct (N.leb_spec SZ' SZ); [done|lia].
Qed.

Section requests.
Context {T : Type}.
Variable native : heap_alloc -> N -> N.
Implicit Types (m : mem T) (v : vector).


Lemma allocate_at_least_refused A o d n m :
  grants A n = false ->
  allocate_at_least native A o d n m
  = match backing_allocator_of A with
    | terminating_allocator => Terminated
    | _ => BadAlloc
    end.
Proof.
  revert d. induction A as [h| | | |SZ B IH]; intros d Hg; simpl in *; try done.
  apply orb_false_elim in Hg as [-> Hg]. by apply IH.
Qed.


Lemma reserve_refused n v m :
  grants (Alloc v) n = false -> 0 < n ->
  reserve native n v m = overflow (Backing v) (v, m).
Proof.
  intros Hg Hn.
  assert (Hc : can_allocate (Alloc v) = false).
  { destruct (can_allocate (Alloc v)) eqn:Hc; [|done].
    by rewrite (grants_can_allocate _ n Hc) in Hg. }
  pose proof (grants_buffer _ _ Hg Hn) as Hb.
  unfold reserve, capacity. rewrite Hc.
  destruct (N.leb_spec n (buffer_capacity (Alloc v))); [lia|].
  rewrite (allocate_at_least_refused _ _ _ _ _ Hg). unfold Backing.
  by destruct (grants_backing _ _ Hg) as [-> | ->].
Qed.

(** [push_back] when the request is turned down. *)
Lemma push_back_refused x v m :
  size v + 1 < size_modulus -> grants (Alloc v) (request v) = false ->
  push_back native x v m = overflow (Backing v) (v, m).
Proof.
  intros HM Hg.
  assert (Hr : 0 < request v).
  { unfold request. rewrite (wrap_small (size v + 1)) by done. lia. }
  unfold push_back. rewrite bump_push by done.
  rewrite (reserve_refused _ _ _ Hg Hr). unfold Backing.
  by destruct (grants_backing _ _ Hg) as [-> | ->].
Qed.

End requests.

Lemma four_of_five_wf : wf four_of_five.1 four_of_five.2.
Proof. apply wfb_wf. vm_compute. reflexivity. Qed.

(** C6 as it is stated fails. A [static_vector_throw<int, 5>] holding four
    elements has room for a fifth; [push_back] asks the allocator for
    [max(4 + 1, 4 * 3 / 2) = 6] elements, beyond the buffer of five, and
    throws, [size()] still four. *)
Lemma stated_push_back_fails : ~ stated_push_back.
Proof.
  intros Hclaim.
  destruct (Hclaim four_of_five.1 four_of_five.2 5%Z four_of_five_wf
              ltac:(vm_compute; reflexivity)) as (v' & m' & E & _).
  vm_compute in E. discriminate E.
Qed.

(** C6, amended. [push_back(x)] returns with [size()] one more, [x] at
    index old [size()], and the elements before it as they were, on a
    container that can allocate, and on one that cannot when what it asks
    the allocator for, [max(size() + 1, size() * 3 / 2)], is within
    [capacity()]. Where the allocator turns that request down, the
    container having room or not, [push_back] appends nothing: it throws
    [bad_alloc], container and store as they were, over
    [throwing_allocator], and ends the process over
    [terminating_allocator]. Pushing [1, 2, 3, 4, 5] into an SBO container
    with an inline buffer of three: the first three pushes allocate nothing
    from the free store and leave [capacity()] at [3]; the fourth allocates
    once and leaves [capacity() >= 4]; the elements in the end are
    [1, 2, 3, 4, 5]. *)
Theorem push_back_appends {T : Type} (native : heap_alloc -> N -> N) :
  native_contract native ->
  (forall (x : T) (v : vector) (m : mem T),
     wf v m -> size v + 1 < size_modulus ->
     can_allocate (Alloc v) = true \/ request v <= capacity v ->
     exists v' m', push_back native x v m = Ok (v', m')
       /\ size v' = size v + 1
       /\ elements v' m' = elements v m ++ [Some x]
       /\ wf v' m')
  /\ (forall (x : T) (v : vector) (m : mem T),
        size v + 1 < size_modulus -> grants (Alloc v) (request v) = false ->
        capacity v < request v
        /\ push_back native x v m
           = match Backing v with
             | terminating_allocator => Abort
             | _ => Raise (v, m)
             end)
  /\ (exists v3 m3 v4 m4 v5 m5,
        pushed3 native = Ok (v3, m3)
        /\ heap_allocations m3 = 0%nat /\ capacity v3 = 3
        /\ push_back native 4%Z v3 m3 = Ok (v4, m4)
        /\ heap_allocations m4 = 1%nat /\ 4 <= capacity v4
        /\ push_back native 5%Z v4 m4 = Ok (v5, m5)
        /\ elements v5 m5 = [Some 1; Some 2; Some 3; Some 4; Some 5]%Z).
Proof.
  intros Hnat.
  assert (Hpush : forall (U : Type) (x : U) (v : vector) (m : mem U),
     wf v m -> size v + 1 < size_modulus ->
     can_allocate (Alloc v) = true \/ request v <= capacity v ->
     exists v' m', push_back native x v m = Ok (v', m')
       /\ size v' = size v + 1
       /\ elements v' m' = elements v m ++ [Some x]
       /\ wf v' m' /\ Alloc v' = Alloc v).
  { intros U x v m W HM Hor.
    destruct (push_back_spec native x v m W HM Hnat Hor)
      as (v' & m' & E & P & _).
    exists v', m'. destruct P as [PW PA Pt Pa Ps Pc Pn Po _ _].
    split; [done|]. split; [done|]. split; [by apply elements_snoc|]. by split. }
  split.
  { intros x v m W HM Hor. destruct (Hpush T x v m W HM Hor) as (v' & m' & H).
    exists v', m'. tauto. }
  split.
  { intros x v m HM Hg. split.
    - assert (Hr : 0 < request v).
      { unfold request. rewrite (wrap_small (size v + 1)) by done. lia. }
      pose proof (grants_buffer _ _ Hg Hr) as Hb. unfold capacity.
      destruct (can_allocate (Alloc v)) eqn:Hc; [|done].
      by rewrite (grants_can_allocate _ (request v) Hc) in Hg.
    - rewrite (push_back_refused native x v m HM Hg). unfold Backing.
      by destruct (grants_backing _ _ Hg) as [-> | ->]. }
  assert (E3 : pushed3 native = Ok three) by (vm_compute; reflexivity).
  destruct three as [v3 m3] eqn:Ethree.
  assert (W3 : wf v3 m3) by (pose proof three_wf as W; by rewrite Ethree in W).
  assert (Hv3 : Alloc v3 = sbo3 /\ size v3 = 3 /\ capacity v3 = 3
                /\ elements v3 m3 = [Some 1; Some 2; Some 3]%Z
                /\ heap_allocations m3 = 0%nat
                /\ data v3 = m_data 1 0 /\ this v3 = 1%nat /\ next_block m3 = 0%nat
                /\ log m3 = log three.2).
  { vm_compute in Ethree. injection Ethree as <- <-. vm_compute. repeat split. }
  destruct Hv3 as (A3 & S3 & C3 & L3 & H3 & D3 & T3 & N3 & G3).
  assert (Hc3 : can_allocate (Alloc v3) = true) by (by rewrite A3).
  destruct (push_back_spec native 4%Z v3 m3 W3 ltac:(rewrite S3; reflexivity) Hnat
              (or_introl Hc3)) as (v4 & m4 & E4 & P4 & v1 & m1 & Er & Ev & Hl).
  destruct P4 as [W4 A4 T4 _ S4 C4 N4 O4 _ _].
  assert (Hc4 : can_allocate (Alloc v4) = true) by congruence.
  destruct (Hpush Z 5%Z v4 m4 W4 ltac:(rewrite S4, S3; reflexivity) (or_introl Hc4))
    as (v5 & m5 & E5 & S5 & L5 & _).
  exists v3, m3, v4, m4, v5, m5. repeat split; auto.
  - (* the fourth push allocates once *)
    assert (Hreq : request v3 = 4) by (unfold request; rewrite S3; reflexivity).
    rewrite Hreq in Er.
    destruct (reserve_grow native 4 v3 m3 W3 Hc3 ltac:(rewrite C3; reflexivity)
                ltac:(reflexivity) Hnat) as (v1' & m1' & Er' & _ & _ & _ & _ & Hone).
    rewrite Er in Er'. injection Er' as <- <-.
    unfold heap_allocations in *. rewrite Hl, Hone, H3; [done|].
    rewrite A3. intros [|[|k]] SZ; simpl; intros [=]. subst. reflexivity.
  - pose proof (wf_size v4 m4 W4 Hc4). lia.
  - rewrite L5. rewrite (elements_snoc v3 m3 v4 m4 (Some 4%Z)); auto.
    by rewrite L3.
Qed.

Lemma push_back_appends_witness :
  match push_back exact 4%Z three.1 three.2 with
  | Ok (v', m') =>
      size v' = 4 /\ elements v' m' = [Some 1; Some 2; Some 3; Some 4]%Z
  | _ => False
  end
  /\ capacity four_of_five.1 < request four_of_five.1
  /\ push_back exact 5%Z four_of_five.1 four_of_five.2 = Raise four_of_five.
Proof.
  split.
  - destruct (proj1 (push_back_appends exact exact_contract) 4%Z three.1 three.2 three_wf
                ltac:(reflexivity) (or_introl eq_refl))
      as (v' & m' & -> & Hs & He & _).
    rewrite Hs, He. split; vm_compute; reflexivity.
  - apply (proj1 (proj2 (push_back_appends exact exact_contract))
             5%Z four_of_five.1 four_of_five.2); reflexivity.
Defined.

(** ** The growth policy *)

Lemma push_all_snoc {T : Type} native (xs : list T) (x : T) s :
  push_all native (xs ++ [x]) s
  = and_then (push_all native xs s) (fun '(v, m) => push_back native x v m).
Proof. unfold push_all. by rewrite foldl_app. Qed.

Lemma push_all_spec {T : Type} native (xs : list T) (v0 : vector) (m0 : mem T) :
  native_contract native -> wf v0 m0 -> can_allocate (Alloc v0) = true ->
  size v0 + N.of_nat (length xs) < size_modulus ->
  exists v m, push_all native xs (v0, m0) = Ok (v, m)
    /\ wf v m /\ Alloc v = Alloc v0
    /\ size v = size v0 + N.of_nat (length xs)
    /\ elements v m = elements v0 m0 ++ (Some <$> xs).
Proof.
  intros Hnat W0 Hc0. induction xs as [|x xs IH] using rev_ind; intros HM.
  - exists v0, m0. simpl. rewrite app_nil_r. split_and!; auto. lia.
  - rewrite length_app in HM. simpl in HM.
    destruct IH as (v & m & E & W & HA & Hs & He); [lia|].
    assert (Hc : can_allocate (Alloc v) = true) by congruence.
    destruct (push_back_spec native x v m W ltac:(lia) Hnat (or_introl Hc))
      as (v' & m' & E' & P & _).
    destruct P as [PW PA Pt Pa Ps Pc Pn Po _ _].
    exists v', m'. rewrite push_all_snoc, E. simpl. split; [done|].
    split; [done|]. split; [congruence|]. split.
    + rewrite length_app. simpl. lia.
    + rewrite (elements_snoc v m v' m' (Some x)) by done.
      rewrite He, fmap_app, app_assoc. done.
Qed.

(** C8 as it is stated fails: the fourth [push_back] into a [vector] over
    an allocator without [allocate_at_least] moves three elements into a
    block of four, less than one and a half times three. *)
Lemma real_growth_bound_fails : ~ real_growth_bound exact.
Proof.
  intros Hclaim.
  destruct (push_all exact [1; 2; 3]%Z
              (default_ctor (allocator plain_allocator) 1 0 empty_store))
    as [[v3 m3]| |] eqn:E3; try (vm_compute in E3; discriminate E3).
  destruct (push_back exact 4%Z v3 m3) as [[v4 m4]| |] eqn:E4;
    try (vm_compute in E3; injection E3 as <- <-; vm_compute in E4; discriminate E4).
  assert (W3 : wf v3 m3).
  { vm_compute in E3. injection E3 as <- <-. apply wfb_wf. vm_compute. reflexivity. }
  destruct (Hclaim v3 m3 4%Z v4 m4 W3) as [_ H]; try exact E4.
  - vm_compute in E3. injection E3 as <- <-. reflexivity.
  - vm_compute in E3. injection E3 as <- <-. vm_compute in E4.
    injection E4 as <- <-. vm_compute. discriminate.
  - vm_compute in E3. injection E3 as <- <-. vm_compute in E4.
    injection E4 as <- <-. vm_compute in H. by apply H.
Qed.

(** C8, amended. In a run of [push_back] calls on a container that can
    allocate, every call returns, it moves the elements to a new block
    exactly when [max(size() + 1, size() * 3 / 2)] is more than
    [capacity()], and the capacity after such a move is at least that
    maximum, the quotient being the integer one. *)
Theorem growth_bound {T : Type} (native : heap_alloc -> N -> N)
    (v0 : vector) (m0 : mem T) (pre : list T) (x : T) :
  native_contract native -> wf v0 m0 -> can_allocate (Alloc v0) = true ->
  (size v0 + N.of_nat (length pre)) * 3 < size_modulus ->
  exists v m v' m',
    push_all native pre (v0, m0) = Ok (v, m)
    /\ push_back native x v m = Ok (v', m')
    /\ size v = size v0 + N.of_nat (length pre)
    /\ (data v' <> data v <-> capacity v < N.max (size v + 1) (size v * 3 / 2))
    /\ (data v' <> data v -> N.max (size v + 1) (size v * 3 / 2) <= capacity v').
Proof.
  intros Hnat W0 Hc0 HM.
  assert (H1 : 1 < size_modulus) by reflexivity.
  destruct (push_all_spec native pre v0 m0 Hnat W0 Hc0 ltac:(lia))
    as (v & m & E & W & HA & Hs & _).
  assert (Hc : can_allocate (Alloc v) = true) by congruence.
  destruct (push_back_spec native x v m W ltac:(lia) Hnat (or_introl Hc))
    as (v' & m' & E' & P & v1 & m1 & Er & -> & _).
  assert (Hreq : request v = N.max (size v + 1) (size v * 3 / 2)).
  { unfold request. rewrite !wrap_small by lia. done. }
  rewrite Hreq in Er.
  exists v, m, (set_size (size v + 1) v1), m'. autorewrite with vec.
  split; [done|]. split; [done|]. split; [done|].
  destruct (N.le_gt_cases (N.max (size v + 1) (size v * 3 / 2)) (capacity v)) as [Hle|Hgt].
  - rewrite reserve_noop in Er by done. injection Er as <- <-.
    split; [split; [congruence|lia]|congruence].
  - destruct (reserve_grow native _ v m W Hc Hgt ltac:(lia) Hnat)
      as (v1' & m1' & Er' & R & Hnew & _).
    rewrite Er in Er'. injection Er' as <- <-.
    split; [split; [done|congruence]|].
    intros _. apply R.
Qed.

Lemma growth_bound_witness :
  match push_back exact 4%Z three.1 three.2 with
  | Ok (v', m') => data v' <> data three.1 /\ 4 <= capacity v'
  | _ => False
  end.
Proof.
  destruct (growth_bound exact three.1 three.2 [] 4%Z exact_contract three_wf
              ltac:(reflexivity) ltac:(reflexivity))
    as (v & m & v' & m' & E & E' & _ & Hiff & Hb).
  assert (Hv : (three.1, three.2) = (v, m))
    by (unfold push_all in E; cbn [foldl] in E; congruence).
  apply pair_equal_spec in Hv as [<- <-]. rewrite E'.
  assert (Hd : data v' <> data three.1) by (apply Hiff; reflexivity).
  split; [exact Hd|]. exact (Hb Hd).
Defined.

(** ** Containers that cannot allocate *)

Section static_facts.
Context {T : Type}.
Variable native : heap_alloc -> N -> N.
Implicit Types (m : mem T) (v : vector) (b : base).

Lemma capacity_static SZ P v :
  Alloc v = sbo_vector SZ P -> sentinel P -> capacity v = SZ.
Proof.
  intros HA HP. unfold capacity. rewrite HA. simpl.
  by destruct HP as [-> | [-> | ->]].
Qed.

Lemma can_allocate_static SZ P v :
  Alloc v = sbo_vector SZ P -> sentinel P -> can_allocate (Alloc v) = false.
Proof. intros HA HP. rewrite HA. simpl. by destruct HP as [-> | [-> | ->]]. Qed.

Lemma reserve_static SZ P n v m :
  Alloc v = sbo_vector SZ P -> sentinel P ->
  reserve native n v m = if n <=? SZ then Ok (v, m) else overflow P (v, m).
Proof.
  intros HA HP. unfold reserve.
  rewrite (capacity_static SZ P), (can_allocate_static SZ P) by done.
  destruct (N.leb_spec n SZ) as [Hle|Hgt]; [done|].
  rewrite HA. simpl. destruct (N.leb_spec n SZ); [lia|].
  by destruct HP as [-> | [-> | ->]].
Qed.



(** At full capacity [push_back] comes to what the allocator does on
    overflow, before anything is written. *)
Lemma push_back_full SZ P x v m :
  Alloc v = sbo_vector SZ P -> sentinel P -> size v = SZ -> SZ + 1 < size_modulus ->
  push_back native x v m
  = match P with
    | terminating_allocator => Abort
    | throwing_allocator => Raise (v, m)
    | _ => Ok (set_size (SZ + 1) v, construct (Alloc v) (end_ v) (Some x) m)
    end.
Proof.
  intros HA HP Hs HM. unfold push_back, bump. rewrite Hs, (wrap_small (SZ + 1)) by done.
  destruct (N.leb_spec (SZ + 1) SZ) as [Hle|Hgt]; [lia|].
  rewrite (reserve_static SZ P) by done.
  destruct (N.leb_spec (N.max (SZ + 1) (wrap (SZ * 3) / 2)) SZ) as [Hle|_]; [lia|].
  destruct HP as [-> | [-> | ->]]; simpl; try done.
  by rewrite Hs, (wrap_small (SZ + 1)).
Qed.

End static_facts.

(** What the fourth [push_back] does under each allocator that never
    allocates: [bad_alloc] with the container and the store as they were,
    [terminate()], or a return with [size()] beyond the buffer. *)
Lemma push_back_overflow {T : Type} native (SZ : N) (x : T) (v : vector) (m : mem T) :
  size v = SZ -> SZ + 1 < size_modulus ->
  (Alloc v = sbo_vector SZ throwing_allocator -> push_back native x v m = Raise (v, m))
  /\ (Alloc v = sbo_vector SZ terminating_allocator -> push_back native x v m = Abort)
  /\ (Alloc v = sbo_vector SZ unchecked_allocator ->
      exists v' m', push_back native x v m = Ok (v', m') /\ m_size (m_storage v') = uint_holding SZ (SZ + 1)).
Proof.
  intros Hs HM. split_and!; intros HA.
  - rewrite (push_back_full native SZ throwing_allocator); auto. right; by left.
  - rewrite (push_back_full native SZ terminating_allocator); auto. by left.
  - rewrite (push_back_full native SZ unchecked_allocator); auto; [|right; by right].
    eexists _, _. split; [reflexivity|]. unfold set_size. rewrite HA. reflexivity.
Qed.

(** C3, at the alias. [static_vector_terminate<int, 3>] holding three
    elements: the fourth [push_back] lets [bad_alloc] through, container
    and store unchanged, where [terminate()] is what the name of the alias
    announces; the alias is over [throwing_allocator]. *)
Theorem static_vector_terminate_raises :
  exists v m,
    full (static_vector_terminate 3) = Ok (v, m)
    /\ size v = 3 /\ capacity v = 3
    /\ push_back exact 4%Z v m = Raise (v, m)
    /\ push_back exact 4%Z v m <> Abort.
Proof.
  destruct (full (static_vector_terminate 3)) as [[v m]| |] eqn:E;
    try (vm_compute in E; discriminate E).
  exists v, m. vm_compute in E. injection E as <- <-.
  split; [reflexivity|]. split; [reflexivity|]. split; [reflexivity|].
  split; [vm_compute; reflexivity|vm_compute; discriminate].
Qed.

(** [bump] asks for [size() * 3 / 2] also where nothing can be allocated:
    a [static_vector_throw<int, 5>] with four elements throws on the fifth
    [push_back], one short of its capacity. *)
Lemma push_back_raises_early :
  exists v m,
    push_all exact [1; 2; 3; 4]%Z (default_ctor (static_vector_throw 5) 1 0 empty_store)
    = Ok (v, m)
    /\ size v = 4 /\ capacity v = 5
    /\ push_back exact 5%Z v m = Raise (v, m).
Proof. eexists _, _. split; [vm_compute; reflexivity|]. vm_compute. auto. Qed.


Section static_invariant.
Context {T : Type}.
Variable native : heap_alloc -> N -> N.
Implicit Types (m : mem T) (v : vector).





End static_invariant.

Lemma nested_full_wf : wf nested_full.1 nested_full.2.
Proof. apply wfb_wf. vm_compute. reflexivity. Qed.

(** An adapter of three over an adapter of five over [throwing_allocator]:
    the fourth [push_back] is granted by the inner adapter, and [size()] is
    [4], beyond the buffer of three the elements are in. *)
Example nested_adapter_overflows :
  size nested_full.1 = 3 /\ capacity nested_full.1 = 3
  /\ exists v' m', push_back exact 4%Z nested_full.1 nested_full.2 = Ok (v', m')
       /\ size v' = 4 /\ capacity v' = 3.
Proof.
  split; [reflexivity|]. split; [reflexivity|].
  eexists _, _. split; [vm_compute; reflexivity|]. split; reflexivity.
Qed.


(** ** The two move operations: which path is taken *)

Lemma five_wf : wf five.1 five.2.
Proof. apply wfb_wf. vm_compute. reflexivity. Qed.

Lemma emptied_wf : wf emptied.1 emptied.2.
Proof. apply wfb_wf. vm_compute. reflexivity. Qed.

(** C1 as it is stated fails. An SBO container with an inline buffer of
    three, empty after [push_back] and [pop_back], moved into a
    [vector<int>]: the capacity of the source, three, is beyond the inline
    buffer of the destination, none, and the linear-time path is taken all
    the same, the source having no block to hand over: its capacity is not
    beyond its own buffer, and its size, zero, is not beyond the buffer of
    the destination. The destination is left without storage, where the
    transfer would have given it the three pointers of the source. *)
Lemma stated_move_ctor_fails : ~ stated_move_ctor.
Proof.
  intros Hclaim.
  specialize (Hclaim (allocator std_allocator) 2%nat 0
                emptied.1 emptied.2 emptied_wf ltac:(vm_compute; discriminate)).
  vm_compute in Hclaim. discriminate Hclaim.
Qed.

(** C1, amended. The move constructor hands the block over, the backing
    allocator instance and the three pointers moved, the pointers of the
    source set to null, no element constructed, destroyed or assigned,
    when the two allocators have the same backing allocator, the source can
    allocate, the capacity of the source is beyond the inline buffer of the
    source and the size of the source is beyond the inline buffer of the
    destination. It takes the linear-time path when the backing allocators
    differ, or the source cannot allocate, or neither of the two
    comparisons holds. *)
Theorem move_ctor_paths {T : Type} (native : heap_alloc -> N -> N) (A : alloc_ty)
    (addr : nat) (junk : N) (src : vector) (m : mem T) :
  (backing_allocator_of A = Backing src -> can_allocate (Alloc src) = true ->
   buffer_capacity (Alloc src) < capacity src -> buffer_capacity A < size src ->
   exists v' src' m',
     move_ctor native A addr junk src m = Ok (v', src', m')
     /\ Alloc v' = A /\ this v' = addr
     /\ m_alloc v' = m_alloc src
     /\ m_storage v' = m_storage src
     /\ m_begin (m_storage src') = nullptr
     /\ m_end (m_storage src') = nullptr
     /\ m_capacity (m_storage src') = nullptr
     /\ size src' = 0
     /\ log m' = log m
     /\ element_events m' = element_events m)
  /\ (backing_allocator_of A <> Backing src \/ can_allocate (Alloc src) = false
      \/ (capacity src <= buffer_capacity (Alloc src) /\ size src <= buffer_capacity A) ->
      move_ctor native A addr junk src m = linear native A addr junk src m).
Proof.
  split.
  - intros HB Hc Hcap Hsz. unfold move_ctor, move_ctor_condition. simpl.
    rewrite bool_decide_eq_true_2, Hc by done. simpl.
    destruct (N.ltb_spec (buffer_capacity (Alloc src)) (capacity src)); [|lia]. simpl.
    eexists _, _, _. split; [reflexivity|]. simpl. split_and!; try done.
    unfold size. simpl. rewrite Hc. simpl. apply ptr_diff_self.
  - intros Hor. unfold move_ctor, linear, move_ctor_condition. simpl.
    destruct Hor as [HB | [Hc | [Hcap Hsz]]].
    + by rewrite bool_decide_eq_false_2.
    + by rewrite Hc, andb_false_r.
    + destruct (N.ltb_spec (buffer_capacity (Alloc src)) (capacity src)); [lia|].
      destruct (N.ltb_spec (buffer_capacity A) (size src)); [lia|].
      by rewrite andb_false_r.
Qed.

Lemma move_ctor_paths_witness :
  (exists v' src' m',
     move_ctor exact (allocator std_allocator) 2 0 five.1 five.2 = Ok (v', src', m')
     /\ m_storage v' = m_storage five.1 /\ size src' = 0 /\ log m' = log five.2)
  /\ move_ctor exact (allocator std_allocator) 2 0 emptied.1 emptied.2
     = linear exact (allocator std_allocator) 2 0 emptied.1 emptied.2.
Proof.
  split.
  - destruct (proj1 (move_ctor_paths exact (allocator std_allocator) 2 0 five.1 five.2))
      as (v' & src' & m' & E & _ & _ & _ & Hst & _ & _ & _ & Hs & Hl & _);
      try (vm_compute; reflexivity).
    exists v', src', m'. auto.
  - apply (proj2 (move_ctor_paths exact (allocator std_allocator) 2 0
                    emptied.1 emptied.2)).
    right. right. split; vm_compute; discriminate.
Defined.

(** The assertions at the end of the test program hold. *)
Example test_moves_asserts :
  test_moves 0 = Some ([Some 1; Some 2; Some 3; Some 4; Some 5]%Z,
                       [Some 1; Some 2; Some 3; Some 4; Some 5]%Z)
  /\ test_moves 200 = test_moves 0.
Proof. split; vm_compute; reflexivity. Qed.

(** ** The tests of the two move operations *)

Lemma move_assign_condition_move_ctor_condition v src :
  move_assign_condition v src = true -> move_ctor_condition (Alloc v) src = true.
Proof.
  unfold move_assign_condition, move_ctor_condition, Backing.
  intros H. split_andb. apply andb_true_intro. split; [by apply andb_true_intro|].
  apply orb_true_intro. by left.
Qed.

(** C2, at one source. A [vector<int>] with two elements in a block of
    two, and an SBO container with an inline buffer of three as the
    destination: the test of the move constructor holds and the test of
    move assignment does not, on the same capacity and size. The first has
    [||] where the second has [&&]; the comment on either says "and". *)
Theorem move_tests_differ :
  capacity two_heap.1 = 2 /\ size two_heap.1 = 2
  /\ move_ctor_condition (Alloc nothing.1) two_heap.1 = true
  /\ move_assign_condition nothing.1 two_heap.1 = false.
Proof. vm_compute. auto. Qed.

(** With [||], the move constructor of a [vector<int>] takes over the
    inline buffer of an SBO source: [data()] of the new container is the
    [m_data] of the allocator of the source. *)
Lemma move_ctor_takes_inline_buffer :
  exists v' src' m',
    move_ctor exact (allocator std_allocator) 2 0 two_inline.1 two_inline.2
    = Ok (v', src', m')
    /\ data v' = m_data (this two_inline.1) 0.
Proof. eexists _, _, _. split; vm_compute; reflexivity. Qed.

(** ** [take_elements] and [copy_elements] *)

Section take_facts.
Context {T : Type}.
Implicit Types (m : mem T) (v : vector) (b : base) (p q : ptr).

Lemma destroy_own_data A o d p m :
  destroy A o d p m = if own_data A o d p then m else destroy_at p m.
Proof.
  revert d. induction A; intros d; simpl; auto.
  repeat case_bool_decide; simpl; auto; by exfalso.
Qed.

Lemma own_data_off A o d p : own_data A o d p = true -> p_off p = 0.
Proof.
  revert d. induction A; intros d; simpl; try discriminate.
  intros [H|H]%orb_prop; [|eauto].
  apply bool_decide_eq_true_1 in H. by subst.
Qed.

Lemma frame_destroy_rest P A o n p m :
  ~ P (p_base p) -> frame P m (destroy_rest A o n p m).
Proof.
  revert p m. induction n; intros p m HP; simpl; [apply frame_refl|].
  eapply frame_trans; [by apply frame_destroy|]. apply IHn. by rewrite ptr_add_base.
Qed.

Lemma destroy_rest_store A o n p m :
  let m' := destroy_rest A o n p m in
  (forall b, block_size m' b = block_size m b)
  /\ next_block m' = next_block m
  /\ filter is_Allocate (log m') = filter is_Allocate (log m)
  /\ filter is_Assign (log m') = filter is_Assign (log m)
  /\ filter is_Construct (log m') = filter is_Construct (log m).
Proof.
  revert p m. induction n; intros p m; simpl; [done|].
  destruct (IHn (ptr_add p 1) (destroy A o 0 p m)) as (H1 & H2 & H3 & H4 & H5).
  split_and!.
  - intros b. by rewrite H1, block_size_destroy.
  - by rewrite H2, next_block_destroy.
  - by rewrite H3, allocations_destroy.
  - rewrite H4. destruct (destroy_cases A o 0 p m) as [-> | ->]; [|done].
    simpl. by rewrite log_store.
  - rewrite H5. destruct (destroy_cases A o 0 p m) as [-> | ->]; [|done].
    simpl. by rewrite log_store.
Qed.

Lemma load_destroy_rest_before A o n p m r :
  p_base r = p_base p -> p_off r < p_off p ->
  load (destroy_rest A o n p m) r = load m r.
Proof.
  revert p m. induction n; intros p m Hb Ho; simpl; [done|].
  rewrite IHn; [|done|simpl; lia].
  apply load_destroy_ne. intros ->. lia.
Qed.

Lemma destructions_destroy_rest_pos A o n p m :
  0 < p_off p ->
  destructions (destroy_rest A o n p m) = (n + destructions m)%nat.
Proof.
  revert p m. induction n; intros p m Hp; simpl; [done|].
  rewrite IHn by (simpl; lia). rewrite destroy_own_data.
  destruct (own_data A o 0 p) eqn:E; [apply own_data_off in E; lia|].
  unfold destructions. simpl. rewrite log_store. simpl. lia.
Qed.

(** The loop destroys every element of its run but the one at an [m_data]. *)
Lemma destructions_destroy_rest A o n p m :
  (destructions (destroy_rest A o n p m)
   + (if own_data A o 0 p && negb (n =? 0)%nat then 1 else 0)
   = n + destructions m)%nat.
Proof.
  destruct n; simpl; [rewrite andb_false_r; lia|].
  rewrite andb_true_r, destructions_destroy_rest_pos by (simpl; lia).
  rewrite destroy_own_data. destruct (own_data A o 0 p); [lia|].
  unfold destructions. simpl. rewrite log_store. simpl. lia.
Qed.

End take_facts.

Section take_spec.
Context {T : Type}.
Implicit Types (m : mem T) (v : vector) (b : base) (p q : ptr).

(** The rule of the overlapping prefix, in numbers: as many assignments as
    both have elements, a construction for each element the destination
    lacks, a destruction for each it has too many, but for one at an
    [m_data], which [buffered_allocator::destroy] holds back. *)
Lemma fill_events src count v1 m1 :
  let m3 := fill src count v1 m1 in
  assignments m3 = (N.to_nat (N.min (size v1) count) + assignments m1)%nat
  /\ constructions m3 = (N.to_nat (count - size v1) + constructions m1)%nat
  /\ (destructions m3
      + (if own_data (Alloc v1) (this v1) 0 (ptr_add (data v1) count)
            && negb (size v1 - count =? 0)%N then 1 else 0)
      = N.to_nat (size v1 - count) + destructions m1)%nat
  /\ filter is_Allocate (log m3) = filter is_Allocate (log m1).
Proof.
  unfold fill. destruct (N.ltb_spec (size v1) count) as [Hlt|Hge]; cbv zeta.
  - unfold assignments, constructions, destructions.
    rewrite !(log_copy_cells is_Assign false Construct) by done.
    rewrite !(log_copy_cells is_Construct true Construct) by done.
    rewrite !(log_copy_cells is_Destroy false Construct) by done.
    rewrite !(log_copy_cells is_Assign true Assign) by done.
    rewrite !(log_copy_cells is_Construct false Assign) by done.
    rewrite !(log_copy_cells is_Destroy false Assign) by done.
    replace (size v1 - count) with 0 by lia. rewrite N.eqb_refl, andb_false_r.
    split_and!; try lia.
    rewrite allocations_copy_cells; [|done]. by rewrite allocations_copy_cells.
  - set (m2 := copy_cells Assign (N.to_nat count) src (data v1) m1).
    destruct (destroy_rest_store (Alloc v1) (this v1) (N.to_nat (size v1 - count))
                (ptr_add (data v1) count) m2) as (_ & _ & Ha & Hb & Hc).
    pose proof (destructions_destroy_rest (Alloc v1) (this v1)
                  (N.to_nat (size v1 - count)) (ptr_add (data v1) count) m2) as Hd.
    unfold assignments, constructions. rewrite Ha, Hb, Hc. unfold m2 at 1 2 3.
    rewrite (log_copy_cells is_Assign true Assign) by done.
    rewrite (log_copy_cells is_Construct false Assign) by done.
    assert (Hm2 : destructions m2 = destructions m1).
    { unfold destructions, m2. by rewrite (log_copy_cells is_Destroy false Assign). }
    rewrite <- Hm2.
    assert (Hz : (N.to_nat (size v1 - count) =? 0)%nat = (size v1 - count =? 0)).
    { destruct (N.eqb_spec (size v1 - count) 0) as [->|?]; [done|].
      apply Nat.eqb_neq. lia. }
    rewrite <- Hz. split_and!; try done; try lia.
    unfold m2. by rewrite allocations_copy_cells.
Qed.

Lemma fill_spec src count v1 m1 :
  wf v1 m1 -> count <= capacity v1 ->
  let m3 := fill src count v1 m1 in
  (forall b, block_size m3 b = block_size m1 b)
  /\ next_block m3 = next_block m1
  /\ frame (fun b => b <> p_base (data v1)) m1 m3
  /\ (p_base src <> p_base (data v1) ->
      forall j, j < count -> load m3 (ptr_add (data v1) j) = load m1 (ptr_add src j)).
Proof.
  intros W Hc. pose proof (wf_block_size v1 m1 W) as Hbs.
  pose proof (wf_data_off v1 m1 W) as Hoff.
  unfold fill. destruct (N.ltb_spec (size v1) count) as [Hlt|Hge]; cbv zeta.
  - set (m2 := copy_cells Assign (N.to_nat (size v1)) src (data v1) m1).
    split_and!.
    + intros b. unfold m2. by rewrite !block_size_copy_cells.
    + unfold m2. by rewrite !next_block_copy_cells.
    + eapply (frame_trans _ m1 m2).
      * apply frame_copy_cells. auto.
      * apply frame_copy_cells. rewrite ptr_add_base. auto.
    + intros Hne j Hj.
      destruct (N.lt_ge_cases j (size v1)) as [Hj1|Hj2].
      * rewrite load_copy_cells_before; [|done|simpl; lia].
        unfold m2. apply load_copy_cells; [done| |lia].
        rewrite Hbs, Hoff. lia.
      * replace (ptr_add (data v1) j)
          with (ptr_add (ptr_add (data v1) (size v1)) (j - size v1))
          by (rewrite ptr_add_add; f_equal; lia).
        rewrite load_copy_cells.
        -- rewrite ptr_add_add. replace (size v1 + (j - size v1)) with j by lia.
           unfold m2.
           destruct (frame_copy_cells (fun b => b <> p_base (data v1)) Assign
                       (N.to_nat (size v1)) src (data v1) m1) as (FL & _); [auto|].
           apply FL. by rewrite ptr_add_base.
        -- by rewrite !ptr_add_base.
        -- rewrite ptr_add_base. unfold m2. rewrite block_size_copy_cells, Hbs.
           simpl. lia.
        -- lia.
  - set (m2 := copy_cells Assign (N.to_nat count) src (data v1) m1).
    destruct (destroy_rest_store (Alloc v1) (this v1) (N.to_nat (size v1 - count))
                (ptr_add (data v1) count) m2) as (Hb1 & Hb2 & _).
    split_and!.
    + intros b. rewrite Hb1. unfold m2. by rewrite block_size_copy_cells.
    + rewrite Hb2. unfold m2. by rewrite next_block_copy_cells.
    + eapply (frame_trans _ m1 m2).
      * apply frame_copy_cells. auto.
      * apply frame_destroy_rest. rewrite ptr_add_base. auto.
    + intros Hne j Hj.
      rewrite load_destroy_rest_before; [|done|simpl; lia].
      unfold m2. apply load_copy_cells; [done| |lia].
      rewrite Hbs, Hoff. lia.
Qed.

Variable native : heap_alloc -> N -> N.

Lemma take_elements_unfold src count v m :
  take_elements native src count v m
  = match reserve native count v m with
    | Ok (v1, m1) => Ok (set_size count v1, fill src count v1 m1)
    | Raise s => Raise s
    | Abort => Abort
    end.
Proof.
  unfold take_elements, fill. destruct (reserve native count v m) as [[v1 m1]| |]; try done.
  destruct (size v1 <? count).
  - by rewrite assign_range_copy_cells, construct_rest_copy_cells.
  - by rewrite assign_range_copy_cells.
Qed.

(** [take_elements] returns whenever the allocator can allocate or the
    elements fit, and the container then has [count] elements, those of
    the source. *)
Lemma take_elements_spec src count v m :
  wf v m -> count < size_modulus -> native_contract native ->
  can_allocate (Alloc v) = true \/ count <= capacity v ->
  exists v' m', take_elements native src count v m = Ok (v', m')
    /\ wf v' m' /\ Alloc v' = Alloc v /\ this v' = this v /\ m_alloc v' = m_alloc v
    /\ size v' = count
    /\ frame (foreign v m) m m'
    /\ (forall b, foreign v m b -> foreign v' m' b)
    /\ (foreign v m (p_base src) ->
        forall j, j < count -> load m' (index v' j) = load m (ptr_add src j)).
Proof.
  intros W HM Hnat Hor.
  destruct (reserve_ok native count v m W HM Hnat Hor) as (v1 & m1 & E & R).
  destruct R as [RW RA Rt Ra Rs Rc Rg Rl Rf Rfo].
  rewrite take_elements_unfold, E.
  destruct (fill_spec src count v1 m1 RW Rc) as (F1 & F2 & F3 & F4).
  eexists _, _. split; [reflexivity|]. autorewrite with vec. split_and!; auto.
  - apply wf_set_size; [|done]. eapply wf_mem; [exact RW|exact F1|lia].
  - by rewrite (size_set_size_fits _ _ m1).
  - eapply frame_trans; [exact Rf|]. eapply frame_weaken; [|exact F3].
    intros b F. apply Rfo in F. by destruct F.
  - intros b F. apply Rfo in F. destruct F as (G1 & G2 & G3).
    split_and!; autorewrite with vec; auto. intros id Hid. rewrite F2. auto.
  - intros F j Hj. rewrite index_set_size. unfold index.
    rewrite F4; [|by destruct (Rfo _ F)|done].
    destruct Rf as (FL & _). by apply FL.
Qed.

End take_spec.

(** ** What [pop_back] and the loop over it destroy *)

Section pop.
Context {T : Type}.
Implicit Types (m : mem T) (v : vector) (b : base).

Lemma elements_take v m v' m' :
  size v' <= size v ->
  (forall j, j < size v' -> load m' (index v' j) = load m (index v j)) ->
  elements v' m' = take (N.to_nat (size v')) (elements v m).
Proof.
  intros Hs Hl. apply list_eq. intros i.
  rewrite elements_lookup.
  destruct (decide (i < N.to_nat (size v'))%nat) as [H|H].
  - rewrite lookup_take_lt by done. rewrite elements_lookup, decide_True by lia.
    f_equal. apply Hl. lia.
  - by rewrite lookup_take_ge by lia.
Qed.

Lemma pop_back_spec v m :
  wf v m -> 0 < size v -> size v <= capacity v ->
  let v' := (pop_back v m).1 in
  let m' := (pop_back v m).2 in
  wf v' m' /\ size v' = size v - 1
  /\ Alloc v' = Alloc v /\ this v' = this v /\ m_alloc v' = m_alloc v
  /\ data v' = data v /\ capacity v' = capacity v
  /\ (forall j, j < size v - 1 -> load m' (index v' j) = load m (index v j))
  /\ (forall b, block_size m' b = block_size m b)
  /\ next_block m' = next_block m
  /\ m' = (if own_data (Alloc v) (this v) 0 (index v (size v - 1)) then m
           else destroy_at (index v (size v - 1)) m).
Proof.
  intros W H0 Hc. pose proof (wf_capacity_lt v m W) as HM.
  unfold pop_back. cbn [fst snd]. 
  rewrite size_sub_small by lia.
  set (v1 := set_size (size v - 1) v).
  assert (Hs : size v1 = size v - 1).
  { unfold v1. apply (size_set_size_fits _ _ m); [done|lia]. }
  assert (He : end_ v1 = index v (size v - 1)).
  { unfold end_, begin_, index. rewrite Hs. unfold v1. by rewrite data_set_size. }
  assert (HA : Alloc v1 = Alloc v) by (unfold v1; by rewrite Alloc_set_size).
  assert (Ht : this v1 = this v) by (unfold v1; by rewrite this_set_size).
  rewrite HA, Ht, He.
  assert (Hbs : forall b, block_size (destroy (Alloc v) (this v) 0 (index v (size v - 1)) m) b
                          = block_size m b)
    by (intros b; apply block_size_destroy).
  assert (Hnb : next_block (destroy (Alloc v) (this v) 0 (index v (size v - 1)) m)
                = next_block m) by apply next_block_destroy.
  split_and!.
  - eapply wf_mem; [apply wf_set_size; [exact W|lia]|exact Hbs|lia].
  - done.
  - done.
  - done.
  - unfold v1. by rewrite m_alloc_set_size.
  - unfold v1. by rewrite data_set_size.
  - unfold v1. by rewrite capacity_set_size.
  - intros j Hj. unfold v1. rewrite index_set_size. apply load_destroy_ne.
    unfold index, ptr_add. intros [=]. lia.
  - done.
  - done.
  - apply destroy_own_data.
Qed.

Lemma own_data_index v m k :
  wf v m ->
  own_data (Alloc v) (this v) 0 (index v k)
  = own_data (Alloc v) (this v) 0 (data v) && (k =? 0).
Proof.
  intros W. pose proof (wf_data_off v m W) as Ho.
  destruct (N.eqb_spec k 0) as [->|Hk].
  - unfold index. by rewrite ptr_add_0, andb_true_r.
  - rewrite andb_false_r. destruct (own_data _ _ _ (index v k)) eqn:E; [|done].
    apply own_data_off in E. unfold index in E. simpl in E. lia.
Qed.

Lemma destructions_destroy_at (p : ptr) m :
  destructions (destroy_at p m) = S (destructions m).
Proof. unfold destructions, destroy_at. simpl. by rewrite log_store. Qed.

Lemma load_destroy_at_eq (p : ptr) m :
  p_off p < block_size m (p_base p) -> load (destroy_at p m) p = None.
Proof. intros H. unfold destroy_at. rewrite load_record. by apply load_store_eq. Qed.

Lemma pop_loop_spec fuel sz v m :
  wf v m -> sz <= size v -> size v <= capacity v ->
  (N.to_nat (size v - sz) <= fuel)%nat ->
  let v' := (pop_loop fuel sz v m).1 in
  let m' := (pop_loop fuel sz v m).2 in
  let q := own_data (Alloc v) (this v) 0 (data v) in
  wf v' m' /\ size v' = sz
  /\ (forall j, j < sz \/ size v <= j -> load m' (index v j) = load m (index v j))
  /\ (forall j, sz <= j < size v -> q = false \/ 0 < j -> load m' (index v j) = None)
  /\ (q = true -> load m' (data v) = load m (data v))
  /\ (destructions m' + (if q && (sz =? 0)%N && negb (size v =? 0)%N then 1 else 0)
      = N.to_nat (size v - sz) + destructions m)%nat.
Proof.
  revert v m. induction fuel as [|k IH]; intros v m W Hsz Hc Hf; cbn [pop_loop].
  - cbn [fst snd]. assert (size v = sz) as -> by lia. split_and!; auto; try lia.
    rewrite N.sub_diag. destruct (N.eqb_spec sz 0); simpl;
      rewrite ?andb_true_r, ?andb_false_r; simpl; lia.
  - destruct (N.ltb_spec sz (size v)) as [Hlt|Hge].
    + destruct (pop_back_spec v m W ltac:(lia) Hc)
        as (W1 & S1 & A1 & T1 & _ & D1 & C1 & L1 & B1 & N1 & E1).
      destruct (pop_back v m) as [v1 m1] eqn:Ep. cbn [fst snd] in *.
      specialize (IH v1 m1 W1 ltac:(lia) ltac:(lia) ltac:(lia)).
      cbn zeta in IH. rewrite A1, T1, D1, S1 in IH.
      destruct IH as (W' & S' & L' & Z' & Q' & K').
      assert (Hidx : forall j, index v1 j = index v j)
        by (intros j; unfold index; by rewrite D1).
      rewrite (own_data_index v m) in E1 by done.
      assert (Hm1 : forall j, j <> size v - 1 -> load m1 (index v j) = load m (index v j)).
      { intros j Hj. rewrite E1.
        destruct (own_data (Alloc v) (this v) 0 (data v) && (size v - 1 =? 0)); [reflexivity|].
        unfold destroy_at. rewrite load_record. apply load_store_ne.
        unfold index, ptr_add. intros [=]. lia. }
      split_and!.
      * done.
      * done.
      * intros j Hj. rewrite <- Hidx, L' by lia. rewrite Hidx. apply Hm1. lia.
      * intros j Hj Hq. destruct (decide (j = size v - 1)) as [->|Hne].
        -- rewrite <- Hidx, L' by lia. rewrite Hidx, E1.
           destruct Hq as [->|Hq]; simpl.
           ++ apply load_destroy_at_eq. unfold index. rewrite ptr_add_base.
              rewrite (wf_block_size v m W). simpl. rewrite (wf_data_off v m W). lia.
           ++ destruct (N.eqb_spec (size v - 1) 0); [lia|]. rewrite andb_false_r.
              apply load_destroy_at_eq. unfold index. rewrite ptr_add_base.
              rewrite (wf_block_size v m W). simpl. rewrite (wf_data_off v m W). lia.
        -- rewrite <- Hidx. apply Z'; [lia|done].
      * intros Hq. rewrite (Q' Hq). rewrite E1, Hq. simpl.
        destruct (N.eqb_spec (size v - 1) 0); [done|].
        replace (data v) with (index v 0) by apply ptr_add_0.
        unfold destroy_at. rewrite load_record. apply load_store_ne.
        unfold index, ptr_add. intros [=]. lia.
      * clear Hm1. subst m1.
        destruct (own_data (Alloc v) (this v) 0 (data v)); simpl in *.
        -- destruct (N.eqb_spec (size v - 1) 0), (N.eqb_spec sz 0), (N.eqb_spec (size v) 0);
             simpl in *; rewrite ?destructions_destroy_at in K'; lia.
        -- rewrite destructions_destroy_at in K'. lia.
    + cbn [fst snd]. assert (size v = sz) as -> by lia. split_and!; auto; try lia.
      rewrite N.sub_diag. destruct (N.eqb_spec sz 0); simpl;
        rewrite ?andb_true_r, ?andb_false_r; simpl; lia.
Qed.
End pop.

(** ** [destroy_me] and propagating copy assignment *)

Section destroy_me_facts.
Context {T : Type}.
Implicit Types (m : mem T) (v : vector).

Lemma destroy_me_unfold v m :
  destroy_me v m
  = ((clear v m).1,
     deallocate (Alloc v) (this v) 0 (data v) (capacity v) (clear v m).2).
Proof.
  unfold destroy_me.
  destruct (pop_loop_keeps (N.to_nat (size v)) 0 v m) as (HA & Ht & _ & Hd & Hc & _).
  fold (clear v m) in *. destruct (clear v m) as [v1 m1]. simpl in *.
  by rewrite HA, Ht, Hd, Hc.
Qed.

Lemma allocations_destroy_me v m :
  filter is_Allocate (log (destroy_me v m).2) = filter is_Allocate (log m).
Proof.
  rewrite destroy_me_unfold. simpl. rewrite allocations_deallocate.
  apply pop_loop_store.
Qed.

Lemma log_destroy_other (P : event -> bool) A o d (p : ptr) m :
  (forall q, P (Destroy q) = false) ->
  filter P (log (destroy A o d p m)) = filter P (log m).
Proof.
  intros HP. destruct (destroy_cases A o d p m) as [-> | ->]; [|done].
  unfold destroy_at. simpl. rewrite log_store, filter_cons.
  destruct (decide (P (Destroy p))) as [H|H]; [|done]. by rewrite HP in H.
Qed.

Lemma log_deallocate_other (P : event -> bool) A o d (p : ptr) n m :
  (forall q, P (Deallocate q) = false) ->
  filter P (log (deallocate A o d p n m)) = filter P (log m).
Proof.
  intros HP. destruct (deallocate_cases A o d p n m) as [-> | ->]; [done|].
  assert (log (heap_deallocate p m) = Deallocate p :: log m) as ->.
  { unfold heap_deallocate. destruct p as [[| |id] off]; try done. by destruct off. }
  rewrite filter_cons. destruct (decide (P (Deallocate p))) as [H|H]; [|done].
  by rewrite HP in H.
Qed.



End destroy_me_facts.



(** The first element is in the buffer as it was. *)
Example destroy_me_leaves_first_element :
  elements three.1 three.2 = [Some 1; Some 2; Some 3]%Z
  /\ size (destroy_me three.1 three.2).1 = 0
  /\ destructions (destroy_me three.1 three.2).2 = 2%nat
  /\ load (destroy_me three.1 three.2).2 (index three.1 0) = Some 1%Z
  /\ load (destroy_me three.1 three.2).2 (index three.1 1) = None
  /\ load (destroy_me three.1 three.2).2 (index three.1 2) = None.
Proof. vm_compute. auto 7. Qed.


(** What the copy then writes to is the block that was given back: in the
    store the elements of the destination are not there. *)
Example copy_assign_after_teardown :
  match copy_assign exact pool3.1 pool2.1 pool2.2 with
  | Ok (v', m') =>
      blocks m' !! p_base (data v') = None /\ elements v' m' = [None; None]
  | _ => False
  end.
Proof. vm_compute. auto. Qed.


(** ** Moves and copies between containers over different allocators *)

Section transfer_facts.
Context {T : Type}.
Implicit Types (m : mem T) (v src : vector) (b : base).

Lemma elements_nil v m : size v = 0 -> elements v m = [].
Proof. intros H. unfold elements. by rewrite H. Qed.

(** The invariant looks at the null block, the [m_data] arrays of the
    container and the block of [data()] only. *)
Lemma wf_blocks v m m' :
  wf v m ->
  (forall b, b = BNull \/ (exists d, b = BInline (this v) d) \/ b = p_base (data v) ->
             block_size m' b = block_size m b) ->
  (next_block m <= next_block m')%nat -> wf v m'.
Proof.
  intros W Hs Hn. constructor; try apply W.
  - rewrite Hs by auto. apply W.
  - intros d SZ Hl. rewrite Hs by eauto. by apply W.
  - pose proof (wf_home v m W) as H. destruct (p_base (data v)) eqn:E; auto.
    rewrite Hs by auto. split; [lia|tauto].
Qed.

(** The block of another well-formed container is foreign, unless the two
    share it. *)
Lemma foreign_data v src m :
  wf src m -> this v <> this src -> p_base (data src) <> p_base (data v) ->
  foreign v m (p_base (data src)).
Proof.
  intros W Ht Hne. pose proof (wf_home src m W) as H. split_and!; [done| |].
  - intros d E. rewrite E in H. destruct H as [H _]. congruence.
  - intros id E. rewrite E in H. tauto.
Qed.

Lemma data_not_null src m : wf src m -> 0 < capacity src -> p_base (data src) <> BNull.
Proof. intros W Hc E. pose proof (wf_home src m W) as H. rewrite E in H. lia. Qed.

Lemma clear_nothing src m : size src = 0 -> clear src m = (src, m).
Proof. intros H. unfold clear. by rewrite H. Qed.

Lemma frame_clear P src m : ~ P (p_base (data src)) -> frame P m (clear src m).2.
Proof. apply pop_loop_frame. Qed.

Variable native : heap_alloc -> N -> N.

Lemma copy_spec v src m :
  native_contract native -> wf v m -> wf src m -> apart v src ->
  size src <= capacity src ->
  can_allocate (Alloc v) = true \/ size src <= capacity v ->
  exists v' m',
    take_elements native (data src) (size src) v m = Ok (v', m')
    /\ Alloc v' = Alloc v /\ this v' = this v /\ m_alloc v' = m_alloc v
    /\ elements v' m' = elements src m
    /\ elements src m' = elements src m
    /\ (0 < size src -> p_base (data v') <> p_base (data src)).
Proof.
  intros Hnat W Ws [Ht Hb] Hs Hor.
  pose proof (wf_capacity_lt src m Ws) as HM.
  destruct (take_elements_spec native (data src) (size src) v m W ltac:(lia) Hnat Hor)
    as (v' & m' & E & W' & HA & Ht' & Ha & Hsz & Hf & Hfo & Hl).
  exists v', m'. split_and!; auto.
  - destruct (N.eq_dec (size src) 0) as [H0|H0].
    { rewrite !elements_nil; auto. congruence. }
    assert (Hne : p_base (data src) <> p_base (data v)).
    { destruct Hb as [Hb|Hb]; [|done]. exfalso.
      apply (data_not_null src m Ws); [lia|done]. }
    apply elements_ext; [done|]. intros j Hj.
    apply Hl; [by apply (foreign_data v src m)|done].
  - destruct (N.eq_dec (size src) 0) as [H0|H0].
    { by rewrite !elements_nil. }
    assert (Hne : p_base (data src) <> p_base (data v)).
    { destruct Hb as [Hb|Hb]; [|done]. exfalso.
      apply (data_not_null src m Ws); [lia|done]. }
    apply elements_ext; [done|]. intros j Hj.
    destruct Hf as (FL & _). apply FL. unfold index. rewrite ptr_add_base.
    by apply (foreign_data v src m).
  - intros Hpos.
    assert (Hne : p_base (data src) <> p_base (data v)).
    { destruct Hb as [Hb|Hb]; [|done]. exfalso.
      apply (data_not_null src m Ws); [lia|done]. }
    pose proof (Hfo _ (foreign_data v src m Ws Ht Hne)) as (F & _). congruence.
Qed.

Lemma move_spec v src m :
  native_contract native -> wf v m -> wf src m -> apart v src ->
  size src <= capacity src ->
  can_allocate (Alloc v) = true \/ size src <= capacity v ->
  exists v' src' m',
    take_and_clear native v src m = Ok (v', src', m')
    /\ Alloc v' = Alloc v /\ this v' = this v
    /\ elements v' m' = elements src m
    /\ size src' = 0.
Proof.
  intros Hnat W Ws Hap Hs Hor.
  destruct (copy_spec v src m Hnat W Ws Hap Hs Hor)
    as (v' & m' & E & HA & Ht & _ & He & _ & Hne).
  unfold take_and_clear. rewrite E.
  pose proof (clear_size src m') as Hc0.
  destruct (N.eq_dec (size src) 0) as [H0|H0].
  - rewrite clear_nothing by done. exists v', src, m'. by split_and!.
  - pose proof (frame_clear (fun b => b = p_base (data v')) src m'
                  ltac:(intros ?; apply Hne; [lia|done])) as (FL & _).
    destruct (clear src m') as [src' m''] eqn:Ec. simpl in *.
    exists v', src', m''. split_and!; auto.
    rewrite <- He. apply elements_ext; [done|]. intros j Hj.
    apply FL. unfold index. by rewrite ptr_add_base.
Qed.

End transfer_facts.

Section moves.
Context {T : Type}.
Variable native : heap_alloc -> N -> N.
Implicit Types (m : mem T) (v src : vector).

Lemma size_null_pointers src :
  can_allocate (Alloc src) = true ->
  size (with_storage (null_pointers (m_storage src)) src) = 0.
Proof. intros Hc. unfold size. simpl. rewrite Hc. apply ptr_diff_self. Qed.




Lemma emerge_apart A addr junk src m :
  wf src m -> this src <> addr ->
  let '(v0, m0) := emerge A addr junk m in
  wf src m0 /\ apart v0 src /\ elements src m0 = elements src m
  /\ capacity v0 = (if can_allocate A then 0 else buffer_capacity A).
Proof.
  intros Ws Ht.
  assert (Hnot : forall k, p_base (data src) <> BInline addr k).
  { intros k E. pose proof (wf_home src m Ws) as H. rewrite E in H. by destruct H. }
  pose proof (frame_emerge A addr junk m) as (FL & FS & FN).
  destruct (emerge A addr junk m) as [v0 m0] eqn:E. simpl in *.
  assert (Hv0 : v0 = (emerge A addr junk m).1) by (by rewrite E).
  split_and!.
  - apply (wf_blocks src m m0 Ws); [|done].
    intros b [-> | [[d ->] | ->]]; apply FS; try done. intros k [=]. done.
  - split; [by rewrite Hv0|].
    rewrite Hv0. unfold data. simpl. destruct (can_allocate A); simpl.
    + destruct (decide (p_base (data src) = BNull)); auto.
    + right. apply Hnot.
  - apply elements_ext; [done|]. intros j _. apply FL.
    unfold index. by rewrite ptr_add_base.
  - rewrite Hv0. unfold capacity. simpl. destruct (can_allocate A); [|done].
    apply ptr_diff_self.
Qed.

End moves.



(** The move assignment itself: the container is empty afterwards and its
    first element is in the buffer as it was. *)
Example move_assign_leaves_first_element :
  match move_assign exact three.1 static10_beside_three.1 static10_beside_three.2 with
  | Ok (v', src', m') =>
      size v' = 0 /\ size src' = 0
      /\ destructions m' = (2 + destructions static10_beside_three.2)%nat
      /\ load m' (index three.1 0) = Some 1%Z
  | _ => False
  end.
Proof. vm_compute. auto. Qed.




(** * Further properties of the two headers

    What the member functions outside the claims do: [pop_back], [resize]
    and [clear], the destructor, the default constructor, the round trip
    through [allocate_at_least] and [deallocate], and what the assignments
    and the move constructor do when the backing allocators are the same. *)

(** ** [pop_back], the loop over it, [resize] and [clear] *)

Section pop_thms.
Context {T : Type}.
Implicit Types (m : mem T) (v : vector) (b : base).

(** X1. [pop_back()] on a container that is not empty takes the last
    element off: [size()] is one less, the elements before the last are as
    they were, [capacity()] and [data()] do not change, no block changes
    its size and nothing is allocated. The only cell written is the one of
    the last element, which holds no object afterwards, unless it is the
    first cell of an inline buffer, which [buffered_allocator::destroy]
    leaves alone. *)
Theorem pop_back_removes_last v m :
  wf v m -> 0 < size v -> size v <= capacity v ->
  let v' := (pop_back v m).1 in
  let m' := (pop_back v m).2 in
  wf v' m'
  /\ size v' = size v - 1
  /\ elements v' m' = take (N.to_nat (size v - 1)) (elements v m)
  /\ capacity v' = capacity v /\ data v' = data v
  /\ (forall b, block_size m' b = block_size m b)
  /\ heap_allocations m' = heap_allocations m
  /\ (forall q, q <> end_ v' -> load m' q = load m q)
  /\ load m' (end_ v')
     = if own_data (Alloc v) (this v) 0 (end_ v') then load m (end_ v') else None.
Proof.
  intros W H0 Hc.
  destruct (pop_back_spec v m W H0 Hc) as (W1 & S1 & A1 & T1 & _ & D1 & C1 & L1 & B1 & N1 & E1).
  cbn zeta.
  assert (He : end_ (pop_back v m).1 = index v (size v - 1)).
  { unfold end_, begin_, index. by rewrite S1, D1. }
  rewrite He. split_and!; auto.
  - rewrite <- S1. apply elements_take; [lia|]. intros j Hj. apply L1. lia.
  - unfold heap_allocations. rewrite E1. destruct (own_data _ _ _ _); [done|].
    unfold destroy_at. simpl. by rewrite log_store.
  - intros q Hq. rewrite E1. destruct (own_data _ _ _ _); [done|].
    unfold destroy_at. rewrite load_record. by apply load_store_ne.
  - rewrite E1. destruct (own_data _ _ _ _); [done|].
    apply load_destroy_at_eq. unfold index. rewrite ptr_add_base.
    rewrite (wf_block_size v m W). simpl. rewrite (wf_data_off v m W). lia.
Qed.

(** X2. [clear()] leaves an empty container with the capacity and the
    block it had, and allocates and releases nothing. It destroys the
    elements from the last to the first; where the elements are in the
    inline buffer of the allocator, all are destroyed but the first, the
    one at [m_data], which [buffered_allocator::destroy] does not pass on:
    its cell still holds the object. *)
Theorem clear_destroys v m :
  wf v m -> size v <= capacity v ->
  let v' := (clear v m).1 in
  let m' := (clear v m).2 in
  let inline := own_data (Alloc v) (this v) 0 (data v) in
  wf v' m' /\ size v' = 0 /\ empty v' = true /\ elements v' m' = []
  /\ capacity v' = capacity v /\ data v' = data v
  /\ (forall b, block_size m' b = block_size m b)
  /\ heap_allocations m' = heap_allocations m
  /\ (forall j, j < size v -> inline = false \/ 0 < j -> load m' (index v j) = None)
  /\ (inline = true -> load m' (data v) = load m (data v))
  /\ (destructions m' + (if inline && negb (size v =? 0)%N then 1 else 0)
      = N.to_nat (size v) + destructions m)%nat.
Proof.
  intros W Hc. unfold clear.
  destruct (pop_loop_spec (N.to_nat (size v)) 0 v m W ltac:(lia) Hc ltac:(lia))
    as (W' & S' & L' & Z' & Q' & K').
  destruct (pop_loop_keeps (N.to_nat (size v)) 0 v m) as (_ & _ & _ & D' & C' & _).
  destruct (pop_loop_store (N.to_nat (size v)) 0 v m) as (B' & _ & A').
  cbn zeta. split_and!; auto.
  - unfold empty. by rewrite S'.
  - by apply elements_nil.
  - unfold heap_allocations. by rewrite A'.
  - intros j Hj Hq. apply Z'; [lia|done].
  - rewrite N.sub_0_r in K'. rewrite andb_true_r in K'. exact K'.
Qed.

Variable native : heap_alloc -> N -> N.

(** X3. [push_back(x)] followed by [pop_back()] gives back the size and
    the elements; the capacity stays where [push_back] has taken it. *)
Theorem push_back_pop_back (x : T) v m :
  native_contract native -> wf v m -> size v + 1 < size_modulus ->
  can_allocate (Alloc v) = true \/ request v <= capacity v ->
  exists v1 m1,
    push_back native x v m = Ok (v1, m1)
    /\ size (pop_back v1 m1).1 = size v
    /\ elements (pop_back v1 m1).1 (pop_back v1 m1).2 = elements v m
    /\ capacity (pop_back v1 m1).1 = capacity v1
    /\ capacity v <= capacity v1.
Proof.
  intros Hnat W HM Hor.
  destruct (push_back_spec native x v m W HM Hnat Hor) as (v1 & m1 & E & P & _).
  exists v1, m1. split; [exact E|].
  destruct P as [PW PA Pt Pa Ps Pc Pn Po Pf Pfo].
  assert (Hc1 : size v1 <= capacity v1).
  { destruct (can_allocate (Alloc v1)) eqn:Hc; [by apply (wf_size v1 m1 PW)|].
    rewrite PA in Hc. destruct Hor as [?|Hr]; [congruence|].
    unfold request in Hr. rewrite wrap_small in Hr by done. lia. }
  destruct (pop_back_spec v1 m1 PW ltac:(lia) Hc1)
    as (W2 & S2 & _ & _ & _ & D2 & C2 & L2 & _).
  split_and!.
  - lia.
  - apply elements_ext; [lia|]. intros j Hj. rewrite L2 by lia. by apply Po.
  - done.
  - done.
Qed.

(** X4. [resize(sz)] with [sz <= size()] returns with [size() == sz] and
    the first [sz] elements; it keeps [capacity()] and [data()], changes
    the size of no block and allocates nothing. *)
Theorem resize_shrinks (T0 : T) (fuel : nat) sz v m :
  wf v m -> sz <= size v -> size v <= capacity v ->
  exists v' m',
    resize native T0 fuel sz v m = Some (Ok (v', m'))
    /\ wf v' m'
    /\ size v' = sz
    /\ elements v' m' = take (N.to_nat sz) (elements v m)
    /\ capacity v' = capacity v /\ data v' = data v
    /\ (forall b, block_size m' b = block_size m b)
    /\ heap_allocations m' = heap_allocations m.
Proof.
  intros W Hsz Hc. unfold resize. destruct (N.ltb_spec (size v) sz) as [?|_]; [lia|].
  destruct (pop_loop_spec (N.to_nat (size v)) sz v m W Hsz Hc ltac:(lia))
    as (W' & S' & L' & _).
  destruct (pop_loop_keeps (N.to_nat (size v)) sz v m) as (_ & _ & _ & D' & C' & _).
  destruct (pop_loop_store (N.to_nat (size v)) sz v m) as (B' & _ & A').
  destruct (pop_loop (N.to_nat (size v)) sz v m) as [v' m'] eqn:E. cbn [fst snd] in *.
  exists v', m'. split_and!; auto.
  - rewrite <- S'. apply elements_take; [lia|]. intros j Hj.
    unfold index at 1. rewrite D'. apply L'. lia.
  - unfold heap_allocations. by rewrite A'.
Qed.

End pop_thms.

Section grow.
Context {T : Type}.
Variable native : heap_alloc -> N -> N.
Implicit Types (m : mem T) (v : vector) (b : base).

Lemma push_loop_spec (T0 : T) fuel sz v m :
  native_contract native -> wf v m -> can_allocate (Alloc v) = true ->
  size v <= sz -> sz < size_modulus -> (N.to_nat (sz - size v) <= fuel)%nat ->
  exists v' m',
    push_loop native T0 fuel sz v m = Some (Ok (v', m'))
    /\ wf v' m' /\ Alloc v' = Alloc v /\ this v' = this v /\ m_alloc v' = m_alloc v
    /\ size v' = sz
    /\ elements v' m' = elements v m ++ replicate (N.to_nat (sz - size v)) (Some T0)
    /\ capacity v <= capacity v'.
Proof.
  intros Hnat. revert v m.
  induction fuel as [|k IH]; intros v m W Hc Hsz HM Hf.
  - assert (size v = sz) as <- by lia. exists v, m. 
    cbn [push_loop]. destruct (N.ltb_spec (size v) (size v)); [lia|].
    rewrite N.sub_diag. simpl. rewrite app_nil_r. split_and!; auto; lia.
  - cbn [push_loop]. destruct (N.ltb_spec (size v) sz) as [Hlt|Hge].
    + destruct (push_back_spec native T0 v m W ltac:(lia) Hnat (or_introl Hc))
        as (v1 & m1 & E & P & _).
      rewrite E. destruct P as [PW PA Pt Pa Ps Pc Pn Po Pf Pfo].
      destruct (IH v1 m1 PW ltac:(congruence) ltac:(lia) HM ltac:(lia))
        as (v' & m' & E' & W' & A' & T' & M' & S' & L' & C').
      exists v', m'. split_and!; auto; try congruence; try lia.
      rewrite L'. rewrite (elements_snoc v m v1 m1 (Some T0)) by done.
      rewrite <- app_assoc. f_equal. rewrite Ps.
      replace (N.to_nat (sz - size v)) with (S (N.to_nat (sz - (size v + 1)))) by lia.
      done.
    + assert (size v = sz) as <- by lia. exists v, m.
      rewrite N.sub_diag. simpl. rewrite app_nil_r. split_and!; auto; lia.
Qed.

(** X5. [resize(sz)] with [sz >= size()] on a container that can allocate
    returns, given [sz - size()] rounds for its loop, with [size() == sz],
    the elements it had followed by [sz - size()] copies of [T{}], and
    [capacity()] at least [sz] and not less than before. *)
Theorem resize_grows (T0 : T) (fuel : nat) sz v m :
  native_contract native -> wf v m -> can_allocate (Alloc v) = true ->
  size v <= sz -> sz < size_modulus -> (N.to_nat (sz - size v) <= fuel)%nat ->
  exists v' m',
    resize native T0 fuel sz v m = Some (Ok (v', m'))
    /\ wf v' m'
    /\ size v' = sz
    /\ elements v' m' = elements v m ++ replicate (N.to_nat (sz - size v)) (Some T0)
    /\ sz <= capacity v'
    /\ capacity v <= capacity v'.
Proof.
  intros Hnat W Hc Hsz HM Hf. unfold resize.
  destruct (N.ltb_spec (size v) sz) as [Hlt|Hge].
  - unfold bump. destruct (N.leb_spec sz (size v)) as [?|_]; [lia|].
    assert (Hn : N.max sz (wrap (size v * 3) / 2) < size_modulus).
    { unfold wrap, size_modulus in *. lia. }
    destruct (reserve_ok native _ v m W Hn Hnat (or_introl Hc)) as (v1 & m1 & E & R).
    rewrite E. destruct R as [RW RA Rt Ra Rs Rc Rg Rl Rf Rfo].
    destruct (push_loop_spec T0 fuel sz v1 m1 Hnat RW ltac:(congruence) ltac:(lia) HM
                ltac:(lia))
      as (v' & m' & E' & W' & A' & T' & M' & S' & L' & C').
    exists v', m'. split_and!; auto; try lia.
    rewrite L', Rs. f_equal. by apply elements_ext.
  - assert (size v = sz) as <- by lia.
    assert (Hcap : size v <= capacity v) by (by apply (wf_size v m W)).
    destruct (pop_loop_spec (N.to_nat (size v)) (size v) v m W ltac:(lia) Hcap ltac:(lia))
      as (W' & S' & L' & _).
    destruct (pop_loop_keeps (N.to_nat (size v)) (size v) v m) as (_ & _ & _ & D' & C' & _).
    destruct (pop_loop (N.to_nat (size v)) (size v) v m) as [v' m'] eqn:E.
    cbn [fst snd] in *. exists v', m'.
    rewrite N.sub_diag. simpl. rewrite app_nil_r. split_and!; auto; try lia.
    apply elements_ext; [done|]. intros j Hj. unfold index at 1. rewrite D'. apply L'. lia.
Qed.

End grow.

Lemma pop_back_removes_last_witness :
  elements (pop_back three.1 three.2).1 (pop_back three.1 three.2).2 = [Some 1; Some 2]%Z.
Proof.
  destruct (pop_back_removes_last three.1 three.2 three_wf
              ltac:(vm_compute; reflexivity) ltac:(vm_compute; discriminate))
    as (_ & _ & He & _).
  rewrite He. vm_compute. reflexivity.
Defined.

Lemma clear_destroys_witness :
  size (clear three.1 three.2).1 = 0
  /\ load (clear three.1 three.2).2 (data three.1) = Some 1%Z
  /\ destructions (clear three.1 three.2).2 = (2 + destructions three.2)%nat.
Proof.
  destruct (clear_destroys three.1 three.2 three_wf ltac:(vm_compute; discriminate))
    as (_ & Hs & _ & _ & _ & _ & _ & _ & _ & Hq & Hn).
  split; [exact Hs|]. split.
  - rewrite Hq by (vm_compute; reflexivity). vm_compute. reflexivity.
  - change (own_data (Alloc three.1) (this three.1) 0 (data three.1)
            && negb (size three.1 =? 0)) with true in Hn. cbv iota in Hn.
    change (N.to_nat (size three.1)) with 3%nat in Hn. lia.
Defined.

Lemma push_back_pop_back_witness :
  exists v1 m1,
    push_back exact 4%Z three.1 three.2 = Ok (v1, m1)
    /\ elements (pop_back v1 m1).1 (pop_back v1 m1).2 = [Some 1; Some 2; Some 3]%Z.
Proof.
  destruct (push_back_pop_back exact 4%Z three.1 three.2 exact_contract three_wf
              ltac:(vm_compute; reflexivity) ltac:(left; vm_compute; reflexivity))
    as (v1 & m1 & E & _ & He & _).
  exists v1, m1. split; [exact E|]. rewrite He. vm_compute. reflexivity.
Defined.

Lemma resize_shrinks_witness :
  exists v' m',
    resize exact 0%Z 0 2 five.1 five.2 = Some (Ok (v', m'))
    /\ elements v' m' = [Some 1; Some 2]%Z.
Proof.
  destruct (resize_shrinks exact 0%Z 0 2 five.1 five.2 five_wf
              ltac:(vm_compute; discriminate) ltac:(vm_compute; discriminate))
    as (v' & m' & E & _ & _ & He & _).
  exists v', m'. split; [exact E|]. rewrite He. vm_compute. reflexivity.
Defined.

Lemma resize_grows_witness :
  exists v' m',
    resize exact 0%Z 2 5 three.1 three.2 = Some (Ok (v', m'))
    /\ elements v' m' = [Some 1; Some 2; Some 3; Some 0; Some 0]%Z.
Proof.
  destruct (resize_grows exact 0%Z 2 5 three.1 three.2 exact_contract three_wf
              ltac:(vm_compute; reflexivity) ltac:(vm_compute; discriminate)
              ltac:(vm_compute; reflexivity) ltac:(vm_compute; lia))
    as (v' & m' & E & _ & _ & He & _).
  exists v', m'. split; [exact E|]. rewrite He. vm_compute. reflexivity.
Defined.

(** ** The blocks of the free store over the life of a container *)

Section gone.
Context {T : Type}.
Implicit Types (m : mem T) (v : vector) (b : base).

Lemma store_None (p : ptr) (c : option T) m b :
  blocks m !! b = None -> blocks (store p c m) !! b = None.
Proof.
  intros H. unfold store. destruct (blocks m !! p_base p) eqn:E; [|done]. simpl.
  rewrite lookup_insert_ne; [done|]. intros <-. congruence.
Qed.

Lemma copy_cells_None ev n (p q : ptr) m b :
  blocks m !! b = None -> blocks (copy_cells ev n p q m) !! b = None.
Proof.
  revert p q m. induction n; intros p q m H; simpl; [done|].
  apply IHn. simpl. by apply store_None.
Qed.

Lemma destroy_None A o d (p : ptr) m b :
  blocks m !! b = None -> blocks (destroy A o d p m) !! b = None.
Proof.
  intros H. destruct (destroy_cases A o d p m) as [-> | ->]; [|done].
  unfold destroy_at. simpl. by apply store_None.
Qed.

Lemma heap_deallocate_None (p : ptr) m b :
  blocks m !! b = None -> blocks (heap_deallocate p m) !! b = None.
Proof.
  intros H. unfold heap_deallocate. destruct p as [[| |id] o]; try done.
  destruct o; try done. simpl. apply lookup_delete_None. auto.
Qed.

Lemma deallocate_None A o d (p : ptr) n m b :
  blocks m !! b = None -> blocks (deallocate A o d p n m) !! b = None.
Proof.
  intros H. destruct (deallocate_cases A o d p n m) as [-> | ->]; [done|].
  by apply heap_deallocate_None.
Qed.

Lemma pop_loop_None fuel sz v m b :
  blocks m !! b = None -> blocks (pop_loop fuel sz v m).2 !! b = None.
Proof.
  intros H. apply (pop_loop_ind (fun _ m' => blocks m' !! b = None)); [done|].
  intros v' m' H' _. unfold pop_back. simpl. by apply destroy_None.
Qed.

Variable native : heap_alloc -> N -> N.

Lemma reserve_released n0 n v m v' m' :
  native_contract native -> wf v m -> can_allocate (Alloc v) = true -> n < size_modulus ->
  released n0 v m ->
  reserve native n v m = Ok (v', m') -> released n0 v' m'.
Proof.
  intros Hnat W Hc HM J E.
  destruct (N.le_gt_cases n (capacity v)) as [Hle|Hgt].
  { rewrite reserve_noop in E by done. by injection E as <- <-. }
  destruct (reserve_grow native n v m W Hc Hgt HM Hnat)
    as (v1 & m1 & E1 & R & Hne & Hgone & _).
  rewrite E in E1. injection E1 as <- <-.
  rewrite reserve_unfold in E by done.
  intros id Hid Hd.
  destruct (decide (BHeap id = p_base (data v))) as [Heq|Hne'].
  { by apply Hgone. }
  specialize (J id Hid Hne').
  destruct (allocate_at_least_can native (Alloc v) (this v) 0 n m Hc)
    as [(k & SZ & Hl & Hn & Ea) | (g & Hall & Hg & Ea)]; rewrite Ea in E;
    injection E as <- <-.
  - apply deallocate_None, copy_cells_None, J.
  - apply deallocate_None, copy_cells_None. simpl.
    rewrite lookup_insert_ne; [done|].
    intros Heq. apply Hd. rewrite data_adopted by done. simpl. done.
Qed.

Lemma push_back_released n0 (x : T) v m v' m' :
  native_contract native -> wf v m -> can_allocate (Alloc v) = true ->
  size v + 1 < size_modulus -> released n0 v m ->
  push_back native x v m = Ok (v', m') -> released n0 v' m'.
Proof.
  intros Hnat W Hc HM J E. unfold push_back in E. rewrite bump_push in E by done.
  destruct (reserve native (request v) v m) as [[v1 m1]| |] eqn:Er; try done.
  injection E as <- <-.
  pose proof (reserve_released n0 _ v m v1 m1 Hnat W Hc (request_lt v) J Er) as J1.
  intros id Hid Hd. rewrite data_set_size in Hd.
  rewrite construct_construct_at. unfold construct_at. simpl.
  apply store_None. by apply J1.
Qed.

Lemma push_all_released n0 (xs : list T) v0 m0 :
  native_contract native -> wf v0 m0 -> can_allocate (Alloc v0) = true ->
  size v0 + N.of_nat (length xs) < size_modulus -> released n0 v0 m0 ->
  exists v m, push_all native xs (v0, m0) = Ok (v, m)
    /\ wf v m /\ Alloc v = Alloc v0 /\ this v = this v0
    /\ size v = size v0 + N.of_nat (length xs)
    /\ elements v m = elements v0 m0 ++ (Some <$> xs)
    /\ released n0 v m
    /\ frame (foreign v0 m0) m0 m
    /\ (forall b, foreign v0 m0 b -> foreign v m b).
Proof.
  intros Hnat W0 Hc0. induction xs as [|x xs IH] using rev_ind; intros HM J0.
  - exists v0, m0. simpl. rewrite app_nil_r. split_and!; auto; try lia. apply frame_refl.
  - rewrite length_app in HM. simpl in HM.
    destruct IH as (v & m & E & W & HA & Ht & Hs & He & J & F & Fo); [lia|done|].
    assert (Hc : can_allocate (Alloc v) = true) by congruence.
    destruct (push_back_spec native x v m W ltac:(lia) Hnat (or_introl Hc))
      as (v' & m' & E' & P & _).
    pose proof (push_back_released n0 x v m v' m' Hnat W Hc ltac:(lia) J E') as J'.
    destruct P as [PW PA Pt Pa Ps Pc Pn Po Pf Pfo].
    exists v', m'. rewrite push_all_snoc, E. simpl. split_and!; auto; try congruence.
    + rewrite length_app. simpl. lia.
    + rewrite (elements_snoc v m v' m' (Some x)) by done.
      rewrite He, fmap_app, app_assoc. done.
    + apply (frame_trans _ m0 m); [done|]. eapply frame_weaken; [|exact Pf]. exact Fo.
Qed.

End gone.

Section lifetime.
Context {T : Type}.
Variable native : heap_alloc -> N -> N.
Implicit Types (m : mem T) (v : vector) (b : base).

Lemma dtor_released n0 v m :
  wf v m -> can_allocate (Alloc v) = true -> released n0 v m ->
  forall id, (n0 <= id)%nat -> blocks (dtor v m).2 !! BHeap id = None.
Proof.
  intros W Hc J id Hid. unfold dtor. rewrite destroy_me_unfold. cbn [snd].
  destruct (decide (BHeap id = p_base (data v))) as [Heq|Hne].
  - pose proof (wf_data_off v m W) as Hoff.
    assert (Hdv : data v = Ptr (BHeap id) 0)
      by (destruct (data v); simpl in *; congruence).
    rewrite deallocate_heap; [|done|rewrite <- Heq; done].
    rewrite Hdv. apply heap_deallocate_gone.
  - apply deallocate_None. unfold clear. apply pop_loop_None. by apply J.
Qed.

Lemma frame_dtor P v m : ~ P (p_base (data v)) -> frame P m (dtor v m).2.
Proof.
  intros HP. unfold dtor. rewrite destroy_me_unfold. cbn [snd].
  apply (frame_trans _ m (clear v m).2); [by apply frame_clear|].
  by apply frame_deallocate.
Qed.

(** X6. A container that can allocate, from [vector()] through any run of
    [push_back] to [~vector()]: the pushes return with the pushed values as
    the elements, and after the destructor no block of the free store that
    was allocated on the way is left, while the blocks that were there
    before have the size and the cells they had. *)
Theorem lifetime_releases (A : alloc_ty) (addr : nat) (junk : N) (xs : list T) (m0 : mem T) :
  native_contract native -> usable A -> can_allocate A = true ->
  block_size m0 BNull = 0 ->
  (forall id, (next_block m0 <= id)%nat -> blocks m0 !! BHeap id = None) ->
  N.of_nat (length xs) < size_modulus ->
  exists v m,
    push_all native xs (default_ctor A addr junk m0) = Ok (v, m)
    /\ elements v m = Some <$> xs
    /\ size (dtor v m).1 = 0
    /\ (forall id, (next_block m0 <= id)%nat -> blocks (dtor v m).2 !! BHeap id = None)
    /\ (forall id, (id < next_block m0)%nat ->
          block_size (dtor v m).2 (BHeap id) = block_size m0 (BHeap id)
          /\ forall off, load (dtor v m).2 (Ptr (BHeap id) off) = load m0 (Ptr (BHeap id) off)).
Proof.
  intros Hnat HA Hc H0 Hfresh HM.
  pose proof (default_ctor_wf A addr junk m0 H0 HA) as W0.
  pose proof (frame_emerge A addr junk m0) as Fe.
  destruct (default_ctor A addr junk m0) as [v0 m1] eqn:E0. cbn [fst snd] in *.
  assert (Hv0 : v0 = with_storage (null_pointers (m_storage (emerge A addr junk m0).1))
                       (emerge A addr junk m0).1 /\ m1 = (emerge A addr junk m0).2).
  { unfold default_ctor in E0. destruct (emerge A addr junk m0) as [ve me].
    rewrite Hc in E0. by injection E0 as <- <-. }
  destruct Hv0 as [Hv0 Hm1].
  assert (HA0 : Alloc v0 = A) by (by rewrite Hv0).
  assert (Ht0 : this v0 = addr) by (by rewrite Hv0).
  assert (Hd0 : data v0 = nullptr) by (rewrite Hv0; unfold data; simpl; by rewrite Hc).
  assert (Hs0 : size v0 = 0).
  { rewrite Hv0. unfold size. simpl. rewrite Hc. apply ptr_diff_self. }
  assert (Hn1 : next_block m1 = next_block m0) by (by rewrite Hm1).
  assert (J0 : released (next_block m0) v0 m1).
  { intros id Hid _. rewrite Hm1. simpl. rewrite place_buffers_other by done. by apply Hfresh. }
  destruct (push_all_released native (next_block m0) xs v0 m1 Hnat W0 ltac:(congruence)
              ltac:(lia) J0)
    as (v & m & E & W & HAv & Ht & Hs & He & J & F & Fo).
  exists v, m. split; [exact E|]. split.
  { rewrite He, elements_nil by done. done. }
  split.
  { unfold dtor. rewrite destroy_me_unfold. cbn [fst]. apply clear_size. }
  split.
  { apply dtor_released; [done|congruence|done]. }
  intros id Hid.
  assert (Hf0 : foreign v0 m1 (BHeap id)).
  { repeat split; [by rewrite Hd0|done|]. intros ? [= <-]. lia. }
  assert (Hf : foreign v m (BHeap id)) by auto.
  pose proof (frame_dtor (fun b => b = BHeap id) v m) as Fd.
  destruct Fd as (DL & DS & _). { intros Hb. destruct Hf as [Hf _]. by apply Hf. }
  destruct F as (FL & FS & _). destruct Fe as (EL & ES & _).
  rewrite <- Hm1 in EL, ES.
  split.
  - rewrite DS, FS, ES by auto. done.
  - intros off. rewrite DL, FL, EL by auto. done.
Qed.

End lifetime.

Lemma sbo3_usable : usable sbo3.
Proof. split; [|discriminate]. simpl. split; [reflexivity|exact I]. Qed.

Lemma lifetime_releases_witness :
  exists v m,
    push_all exact [1; 2; 3; 4; 5]%Z (default_ctor sbo3 1 0 empty_store) = Ok (v, m)
    /\ forall id, blocks (dtor v m).2 !! BHeap id = None.
Proof.
  destruct (lifetime_releases exact sbo3 1 0 [1; 2; 3; 4; 5]%Z empty_store exact_contract
              sbo3_usable ltac:(vm_compute; reflexivity) ltac:(vm_compute; reflexivity)
              ltac:(intros; apply lookup_empty) ltac:(vm_compute; reflexivity))
    as (v & m & E & _ & _ & Hg & _).
  exists v, m. split; [exact E|]. intros id. apply Hg. simpl. lia.
Defined.

(** ** [allocate_at_least] and [deallocate] *)

Section roundtrip.
Context {T : Type}.
Variable native : heap_alloc -> N -> N.
Implicit Types (m : mem T) (v : vector) (b : base).

Lemma allocate_deallocate A o d n m r m1 :
  blocks m !! BHeap (next_block m) = None ->
  allocate_at_least native A o d n m = Granted r m1 ->
  blocks (deallocate A o d (ptr_ r) (count r) m1) = blocks m
  /\ (forall d', (d' < d)%nat -> ptr_ r <> m_data o d').
Proof.
  intros Hfresh. revert d r m1.
  induction A as [h| | | |SZ B IH]; intros d r m1 E; simpl in E; try discriminate.
  - assert (exists g, r = {| ptr_ := Ptr (BHeap (next_block m)) 0; count := g |}
                      /\ m1 = (heap_allocate g m).2) as (g & -> & ->).
    { destruct (ha_has_allocate_at_least h); injection E as <- <-; eauto. }
    split; [|done]. simpl. by apply delete_insert_id.
  - injection E as <- <-. split; done.
  - destruct (N.leb_spec n SZ).
    + injection E as <- <-. simpl. rewrite bool_decide_eq_true_2 by done.
      split; [done|]. intros d' Hd. unfold m_data. intros [=]. lia.
    + destruct (IH (S d) r m1 E) as [Hb Hp]. simpl.
      rewrite bool_decide_eq_false_2 by (apply Hp; lia).
      split; [done|]. intros d' Hd. apply Hp. lia.
Qed.

(** X7. A block that [allocate_at_least] grants, given back through
    [deallocate] of the same allocator with the pointer and the count of
    the result, leaves the store with the blocks it had: a block of the
    free store is released, and an inline buffer is never passed to the
    backing allocator. For a request of no more than [SZ] a
    [buffered_allocator] does not touch the store at all. *)
Theorem allocate_at_least_deallocate A o d n m r m1 :
  blocks m !! BHeap (next_block m) = None ->
  allocate_at_least native A o d n m = Granted r m1 ->
  blocks (deallocate A o d (ptr_ r) (count r) m1) = blocks m
  /\ (forall SZ B, A = buffered_allocator SZ B -> n <= SZ ->
        m1 = m /\ deallocate A o d (ptr_ r) (count r) m1 = m).
Proof.
  intros Hfresh E. split; [by apply (allocate_deallocate A o d n m r m1)|].
  intros SZ B -> Hn. simpl in E. destruct (N.leb_spec n SZ); [|lia].
  injection E as <- <-. simpl. by rewrite bool_decide_eq_true_2.
Qed.

End roundtrip.

Lemma allocate_at_least_deallocate_witness :
  exists r m1,
    allocate_at_least exact sbo3 1 0 4 empty_store = Granted r m1
    /\ blocks (deallocate sbo3 1 0 (ptr_ r) (count r) m1) = blocks empty_store.
Proof.
  eexists _, _. split; [vm_compute; reflexivity|].
  apply (allocate_at_least_deallocate exact sbo3 1 0 4 empty_store);
    [vm_compute; reflexivity|vm_compute; reflexivity].
Defined.

(** ** The size field, and containers that cannot allocate *)

(** X8. [set_size(sz)] followed by [size()] gives [sz] for every [sz] up
    to [capacity()], in both representations: with the three pointers
    [m_end] stays within the block [data()] is in, and with [m_size] the
    type [uint_holding<SZ>] holds every size up to [SZ]. The container
    stays well formed, [capacity()] and [data()] as they were. *)
Theorem size_set_size_roundtrip {T : Type} (v : vector) (m : mem T) (sz : N) :
  wf v m -> sz <= capacity v ->
  size (set_size sz v) = sz
  /\ wf (set_size sz v) m
  /\ capacity (set_size sz v) = capacity v
  /\ data (set_size sz v) = data v.
Proof.
  intros W Hsz. split_and!.
  - by apply (size_set_size_fits sz v m).
  - by apply wf_set_size.
  - apply capacity_set_size.
  - apply data_set_size.
Qed.

Section edges.
Context {T : Type}.
Variable native : heap_alloc -> N -> N.
Implicit Types (m : mem T) (v : vector) (b : base).

(** X9. [pop_back()] does not look at [size()] first. On an empty
    container that cannot allocate, [size() - 1] wraps round and is cut to
    the type of [m_size]: [size()] becomes 255, 65535, 2^32 - 1 or
    2^64 - 1, the largest value of [uint_holding<SZ>], which is beyond
    [capacity()] for every [SZ] below 255. *)
Theorem pop_back_empty_static v m :
  can_allocate (Alloc v) = false -> size v = 0 ->
  size (pop_back v m).1
  = (if buffer_capacity (Alloc v) <? 256 then 255
     else if buffer_capacity (Alloc v) <? 65536 then 65535
     else if buffer_capacity (Alloc v) <? 4294967296 then 4294967295
     else 18446744073709551615)
  /\ (buffer_capacity (Alloc v) < 255 -> capacity (pop_back v m).1 < size (pop_back v m).1).
Proof.
  intros Hc Hs. unfold pop_back. cbn [fst].
  rewrite size_set_size, capacity_set_size, Hc, Hs.
  unfold capacity. rewrite Hc.
  unfold uint_holding, size_sub, wrap, size_modulus.
  split.
  - N_cases; try lia; reflexivity.
  - intros H. destruct (N.ltb_spec (buffer_capacity (Alloc v)) 256); [|lia].
    change ((0 + (18446744073709551616 - 1 mod 18446744073709551616))
              mod 18446744073709551616 mod 256) with 255. lia.
Qed.

Lemma allocate_at_least_cannot A o d n m r m1 :
  can_allocate A = false ->
  allocate_at_least native A o d n m = Granted r m1 -> m1 = m.
Proof.
  revert d. induction A as [h| | | |SZ B IH]; intros d Hc E; simpl in *; try discriminate.
  - by injection E as <- <-.
  - destruct (n <=? SZ); [by injection E as <- <-|by eapply IH].
Qed.

(** X10. [reserve(n)] on a container that cannot allocate never changes
    the container or the store, whether it returns or throws. It returns
    for [n] within the inline buffer; beyond it, it throws with
    [throwing_allocator], ends the process with [terminating_allocator],
    and with [unchecked_allocator] returns although [capacity()] is still
    less than [n]. *)
Theorem reserve_cannot_allocate n v m :
  can_allocate (Alloc v) = false ->
  match reserve native n v m with
  | Ok s | Raise s => s = (v, m)
  | Abort => True
  end
  /\ (n <= buffer_capacity (Alloc v) -> reserve native n v m = Ok (v, m))
  /\ (forall SZ, SZ < n ->
        (Alloc v = sbo_vector SZ throwing_allocator -> reserve native n v m = Raise (v, m))
        /\ (Alloc v = sbo_vector SZ terminating_allocator -> reserve native n v m = Abort)
        /\ (Alloc v = sbo_vector SZ unchecked_allocator ->
              reserve native n v m = Ok (v, m) /\ capacity v < n)).
Proof.
  intros Hc. split_and!.
  - unfold reserve. destruct (n <=? capacity v); [done|]. rewrite Hc.
    destruct (allocate_at_least native (Alloc v) (this v) 0 n m) as [r m1| |] eqn:E; try done.
    by rewrite (allocate_at_least_cannot _ _ _ _ _ _ _ Hc E).
  - intros Hn. apply reserve_noop. unfold capacity. by rewrite Hc.
  - intros SZ Hn. split_and!; intros HA.
    + rewrite (reserve_static native SZ throwing_allocator) by (unfold sentinel; auto).
      by destruct (N.leb_spec n SZ); [lia|].
    + rewrite (reserve_static native SZ terminating_allocator) by (unfold sentinel; auto).
      by destruct (N.leb_spec n SZ); [lia|].
    + rewrite (reserve_static native SZ unchecked_allocator) by (unfold sentinel; auto).
      split; [by destruct (N.leb_spec n SZ)|].
      unfold capacity. rewrite HA. simpl. done.
Qed.

(** X11. [push_back] on a [static_vector_throw<T, SZ>] asks the allocator
    for [max(size() + 1, size() * 3 / 2)] elements: it returns, [size()]
    one more, when that is within [SZ], and throws [bad_alloc], container
    and store unchanged, when it is not, also where [size() + 1 <= SZ]. For
    every [SZ] of 5 or more the [push_back] at [size() == SZ - 1] throws:
    such a container cannot be filled by [push_back]. *)
Theorem push_back_raises_before_full (SZ : N) (x : T) v m :
  Alloc v = static_vector_throw SZ -> size v * 3 < size_modulus ->
  (N.max (size v + 1) (size v * 3 / 2) <= SZ -> SZ < size_modulus ->
     exists v' m', push_back native x v m = Ok (v', m')
       /\ size v' = size v + 1 /\ capacity v' = SZ)
  /\ (SZ < N.max (size v + 1) (size v * 3 / 2) -> push_back native x v m = Raise (v, m))
  /\ (5 <= SZ -> size v = SZ - 1 -> push_back native x v m = Raise (v, m)).
Proof.
  intros HA HM.
  assert (HP : sentinel throwing_allocator) by (unfold sentinel; auto).
  assert (Hreq : request v = N.max (size v + 1) (size v * 3 / 2)).
  { unfold request. rewrite !wrap_small by (unfold size_modulus in *; lia). done. }
  assert (Hpb : push_back native x v m
                = match reserve native (request v) v m with
                  | Ok (v1, m1) =>
                      Ok (set_size (wrap (size v1 + 1)) v1,
                          construct (Alloc v1) (end_ v1) (Some x) m1)
                  | Raise s => Raise s
                  | Abort => Abort
                  end).
  { unfold push_back. rewrite bump_push by (unfold size_modulus in *; lia).
    by destruct (reserve native (request v) v m) as [[? ?]| |]. }
  split_and!.
  - intros H HSZ.
    rewrite Hpb, (reserve_static native SZ throwing_allocator), Hreq by done.
    destruct (N.leb_spec (N.max (size v + 1) (size v * 3 / 2)) SZ); [|lia].
    eexists _, _. split; [reflexivity|]. rewrite capacity_set_size. split.
    + rewrite size_set_size, (can_allocate_static SZ throwing_allocator) by done.
      rewrite HA. simpl. rewrite wrap_small by (unfold size_modulus in *; lia).
      apply uint_holding_small; [done|lia].
    + by apply (capacity_static SZ throwing_allocator).
  - intros H. rewrite Hpb, (reserve_static native SZ throwing_allocator), Hreq by done.
    by destruct (N.leb_spec (N.max (size v + 1) (size v * 3 / 2)) SZ); [lia|].
  - intros H5 Hs. rewrite Hpb, (reserve_static native SZ throwing_allocator), Hreq by done.
    destruct (N.leb_spec (N.max (size v + 1) (size v * 3 / 2)) SZ); [|done].
    exfalso. rewrite Hs in *. lia.
Qed.

End edges.

Lemma empty_static3_wf : wf empty_static3.1 empty_static3.2.
Proof. apply wfb_wf. vm_compute. reflexivity. Qed.

Lemma size_set_size_roundtrip_witness :
  size (set_size 2 empty_static3.1) = 2 /\ size (set_size 4 five.1) = 4.
Proof.
  split.
  - apply (size_set_size_roundtrip empty_static3.1 empty_static3.2 2 empty_static3_wf).
    vm_compute. discriminate.
  - apply (size_set_size_roundtrip five.1 five.2 4 five_wf).
    vm_compute. discriminate.
Defined.

Lemma pop_back_empty_static_witness :
  size (pop_back empty_static3.1 empty_static3.2).1 = 255.
Proof.
  destruct (pop_back_empty_static empty_static3.1 empty_static3.2
              ltac:(vm_compute; reflexivity) ltac:(vm_compute; reflexivity)) as [H _].
  rewrite H. vm_compute. reflexivity.
Defined.

Lemma reserve_cannot_allocate_witness :
  reserve exact 4 empty_static3.1 empty_static3.2 = Ok empty_static3
  /\ capacity empty_static3.1 < 4.
Proof.
  destruct (reserve_cannot_allocate exact 4 empty_static3.1 empty_static3.2
              ltac:(vm_compute; reflexivity)) as (_ & _ & H).
  destruct (H 3 ltac:(vm_compute; reflexivity)) as (_ & _ & H3).
  apply H3. vm_compute. reflexivity.
Defined.

Lemma push_back_raises_before_full_witness :
  size four_of_five.1 = 4 /\ capacity four_of_five.1 = 5
  /\ push_back exact 5%Z four_of_five.1 four_of_five.2 = Raise four_of_five.
Proof.
  split; [vm_compute; reflexivity|]. split; [vm_compute; reflexivity|].
  apply (push_back_raises_before_full exact 5 5%Z four_of_five.1 four_of_five.2);
    [vm_compute; reflexivity|vm_compute; reflexivity|vm_compute; discriminate
    |vm_compute; reflexivity].
Defined.

(** ** Handing the block over, and the moves on every path *)

Section handover.
Context {T : Type}.
Implicit Types (m : mem T) (v src : vector) (b : base).

Lemma log_pop_loop_other (P : event -> bool) fuel sz v m :
  (forall q, P (Destroy q) = false) ->
  filter P (log (pop_loop fuel sz v m).2) = filter P (log m).
Proof.
  intros HP. apply (pop_loop_ind (fun _ m' => filter P (log m') = filter P (log m))); [done|].
  intros v' m' H _. unfold pop_back. simpl. by rewrite log_destroy_other.
Qed.

Lemma log_destroy_me_other (P : event -> bool) v m :
  (forall q, P (Destroy q) = false) -> (forall q, P (Deallocate q) = false) ->
  filter P (log (destroy_me v m).2) = filter P (log m).
Proof.
  intros H1 H2. rewrite destroy_me_unfold. cbn [snd].
  rewrite log_deallocate_other by done. by apply log_pop_loop_other.
Qed.

Lemma destroy_me_gone v m id :
  wf v m -> can_allocate (Alloc v) = true -> p_base (data v) = BHeap id ->
  blocks (destroy_me v m).2 !! BHeap id = None.
Proof.
  intros W Hc Hid. rewrite destroy_me_unfold. cbn [snd].
  pose proof (wf_data_off v m W) as Hoff.
  assert (Hdv : data v = Ptr (BHeap id) 0)
    by (destruct (data v); simpl in *; congruence).
  rewrite deallocate_heap; [|done|rewrite Hid; done].
  rewrite Hdv. apply heap_deallocate_gone.
Qed.

Lemma frame_destroy_me P v m : ~ P (p_base (data v)) -> frame P m (destroy_me v m).2.
Proof. apply frame_dtor. Qed.

Lemma destroy_me_keeps v m :
  Alloc (destroy_me v m).1 = Alloc v /\ this (destroy_me v m).1 = this v
  /\ m_alloc (destroy_me v m).1 = m_alloc v.
Proof.
  rewrite destroy_me_unfold. cbn [fst]. unfold clear.
  destruct (pop_loop_keeps (N.to_nat (size v)) 0 v m) as (H1 & H2 & H3 & _). auto.
Qed.

(** Two containers that can allocate and have the same pointers have the
    same elements. *)
Lemma elements_same_storage v src m :
  can_allocate (Alloc v) = true -> can_allocate (Alloc src) = true ->
  m_storage v = m_storage src ->
  size v = size src /\ data v = data src /\ capacity v = capacity src
  /\ elements v m = elements src m.
Proof.
  intros Hv Hs E.
  assert (Hsz : size v = size src) by (unfold size; by rewrite Hv, Hs, E).
  assert (Hd : data v = data src) by (unfold data; by rewrite Hv, Hs, E).
  split_and!; auto.
  - unfold capacity. by rewrite Hv, Hs, E.
  - apply elements_ext; [done|]. intros j _. unfold index. by rewrite Hd.
Qed.

Variable native : heap_alloc -> N -> N.

Lemma move_assign_fast v src m :
  wf v m -> wf src m -> apart v src ->
  move_assign_condition v src && move_assign_allowed v src = true ->
  exists v' src' m',
    move_assign native v src m = Ok (v', src', m')
    /\ Alloc v' = Alloc v /\ this v' = this v
    /\ m_storage v' = m_storage src
    /\ m_alloc v' = (if propagate_on_container_move_assignment (Backing v)
                     then m_alloc src else m_alloc v)
    /\ size v' = size src /\ data v' = data src /\ capacity v' = capacity src
    /\ elements v' m' = elements src m
    /\ size src' = 0 /\ capacity src' = 0 /\ data src' = nullptr
    /\ constructions m' = constructions m
    /\ assignments m' = assignments m
    /\ heap_allocations m' = heap_allocations m
    /\ (forall id, p_base (data v) = BHeap id -> blocks m' !! BHeap id = None).
Proof.
  intros W Ws [Ht Hb] Hcond. unfold move_assign. rewrite Hcond.
  apply andb_prop in Hcond as [Hcond _]. unfold move_assign_condition in Hcond.
  apply andb_prop in Hcond as [H1 H2]. apply andb_prop in H1 as [HB Hcs].
  apply andb_prop in H2 as [Hcap _].
  apply bool_decide_eq_true_1 in HB. apply N.ltb_lt in Hcap.
  assert (Hcv : can_allocate (Alloc v) = true).
  { rewrite <- can_allocate_backing. fold (Backing v). rewrite HB.
    unfold Backing. by rewrite can_allocate_backing. }
  assert (Hne : p_base (data v) <> p_base (data src)).
  { destruct Hb as [Hb|Hb]; [|congruence]. exfalso.
    apply (data_not_null src m Ws); [lia|done]. }
  destruct (destroy_me_keeps v m) as (KA & Kt & Ka).
  pose proof (log_destroy_me_other is_Construct v m ltac:(done) ltac:(done)) as LC.
  pose proof (log_destroy_me_other is_Assign v m ltac:(done) ltac:(done)) as LA.
  pose proof (allocations_destroy_me v m) as LAl.
  pose proof (frame_destroy_me (fun b => b = p_base (data src)) v m Hne) as (FL & _).
  pose proof (fun id => destroy_me_gone v m id W Hcv) as Hgone.
  destruct (destroy_me v m) as [v1 m1]. cbn [fst snd] in *.
  set (v2 := if propagate_on_container_move_assignment (Backing v1)
             then with_alloc (m_alloc src) v1 else v1).
  assert (HA2 : Alloc v2 = Alloc v) by (unfold v2; by destruct (propagate_on_container_move_assignment _)).
  assert (Ht2 : this v2 = this v) by (unfold v2; by destruct (propagate_on_container_move_assignment _)).
  set (v' := with_storage (m_storage src) v2).
  assert (HA' : Alloc v' = Alloc v) by done.
  destruct (elements_same_storage v' src m1 ltac:(congruence) Hcs eq_refl)
    as (Es & Ed & Ec & Ee).
  exists v', (with_storage (null_pointers (m_storage src)) src), m1.
  split_and!; auto.
  - unfold v', v2, Backing. simpl. rewrite KA.
    destruct (propagate_on_container_move_assignment (backing_allocator_of (Alloc v)));
      simpl; congruence.
  - rewrite Ee. apply elements_ext; [done|]. intros j _. apply FL.
    unfold index. by rewrite ptr_add_base.
  - by apply size_null_pointers.
  - unfold capacity. simpl. rewrite Hcs. apply ptr_diff_self.
  - unfold data. simpl. by rewrite Hcs.
  - unfold constructions. by rewrite LC.
  - unfold assignments. by rewrite LA.
  - unfold heap_allocations. by rewrite LAl.
Qed.

End handover.

Section every_path.
Context {T : Type}.
Variable native : heap_alloc -> N -> N.
Implicit Types (m : mem T) (v src : vector) (b : base).

Lemma elements_size v m v' m' : elements v' m' = elements v m -> size v' = size v.
Proof.
  intros E. apply (f_equal length) in E. rewrite !elements_length in E. lia.
Qed.

(** X12. Move assignment hands the block over when its test holds (same
    backing allocator, a source that can allocate, [capacity()] of the
    source beyond the inline buffer of the source and [size()] of the
    source beyond that of the destination) and taking is allowed. The
    destination then has the [data()], [size()], [capacity()] and elements
    of the source, no element is constructed or assigned and nothing is
    allocated, the block the destination had is given back to the free
    store, its allocator instance is that of the source when the backing
    allocator propagates on move assignment, and the source is left with
    null pointers. *)
Theorem move_assign_hands_over v src m :
  wf v m -> wf src m -> apart v src ->
  move_assign_condition v src = true -> move_assign_allowed v src = true ->
  exists v' src' m',
    move_assign native v src m = Ok (v', src', m')
    /\ data v' = data src /\ size v' = size src /\ capacity v' = capacity src
    /\ elements v' m' = elements src m
    /\ m_alloc v' = (if propagate_on_container_move_assignment (Backing v)
                     then m_alloc src else m_alloc v)
    /\ size src' = 0 /\ capacity src' = 0 /\ data src' = nullptr
    /\ constructions m' = constructions m
    /\ assignments m' = assignments m
    /\ heap_allocations m' = heap_allocations m
    /\ (forall id, p_base (data v) = BHeap id -> blocks m' !! BHeap id = None).
Proof.
  intros W Ws Hap H1 H2.
  destruct (move_assign_fast native v src m W Ws Hap ltac:(by rewrite H1, H2))
    as (v' & src' & m' & E & _ & _ & _ & Ha & Hs & Hd & Hc & He & Hz & Hzc & Hzd
        & C1 & C2 & C3 & G).
  exists v', src', m'. by split_and!.
Qed.

(** X13. Move construction and move assignment between two distinct
    well-formed containers return, given a destination that can allocate or
    a source that fits, with the elements of the source in the destination
    and [size() == 0] in the source: on the path that hands the block over
    as on the one that moves element by element, whatever the backing
    allocators. *)
Theorem moves_keep_elements :
  native_contract native ->
  (forall v src m,
     wf v m -> wf src m -> apart v src -> size src <= capacity src ->
     can_allocate (Alloc v) = true \/ size src <= capacity v ->
     exists v' src' m',
       move_assign native v src m = Ok (v', src', m')
       /\ elements v' m' = elements src m
       /\ size v' = size src /\ size src' = 0)
  /\ (forall A addr junk src m,
     usable A -> wf src m -> this src <> addr -> size src <= capacity src ->
     can_allocate A = true \/ size src <= buffer_capacity A ->
     exists v' src' m',
       move_ctor native A addr junk src m = Ok (v', src', m')
       /\ elements v' m' = elements src m
       /\ size v' = size src /\ size src' = 0).
Proof.
  intros Hnat. split.
  - intros v src m W Ws Hap Hs Hor.
    destruct (move_assign_condition v src && move_assign_allowed v src) eqn:Hcond.
    + destruct (move_assign_fast native v src m W Ws Hap Hcond)
        as (v' & src' & m' & E & _ & _ & _ & _ & Hsz & _ & _ & He & Hz & _).
      exists v', src', m'. by split_and!.
    + destruct (move_spec native v src m Hnat W Ws Hap Hs Hor)
        as (v' & src' & m' & E & _ & _ & He & Hz).
      exists v', src', m'. unfold move_assign. rewrite Hcond.
      split_and!; auto. by eapply elements_size.
  - intros A addr junk src m HA Ws Ht Hs Hor.
    assert (H0 : block_size m BNull = 0) by apply Ws.
    pose proof (emerge_wf A addr junk m H0 HA) as W0.
    pose proof (emerge_apart A addr junk src m Ws Ht) as Hem.
    unfold move_ctor.
    destruct (emerge A addr junk m) as [v0 m0] eqn:E.
    assert (HAv0 : Alloc v0 = A) by (by injection E as <- _).
    destruct Hem as (Ws0 & Hap & Hel & Hcap). simpl in W0.
    destruct (move_ctor_condition A src) eqn:Hcond.
    + unfold move_ctor_condition in Hcond.
      apply andb_prop in Hcond as [H1 _]. apply andb_prop in H1 as [HB Hcs].
      apply bool_decide_eq_true_1 in HB.
      assert (HcA : can_allocate A = true).
      { rewrite <- can_allocate_backing, HB. unfold Backing.
        by rewrite can_allocate_backing. }
      set (v' := with_storage (m_storage src) (with_alloc (m_alloc src) v0)).
      destruct (elements_same_storage v' src m0 ltac:(simpl; congruence) Hcs eq_refl)
        as (Es & _ & _ & Ee).
      eexists _, _, _. split; [reflexivity|]. split_and!.
      * fold v'. congruence.
      * done.
      * by apply size_null_pointers.
    + assert (Hor0 : can_allocate (Alloc v0) = true \/ size src <= capacity v0).
      { rewrite HAv0, Hcap. destruct Hor as [->|?]; [by left|].
        destruct (can_allocate A); [by left|by right]. }
      destruct (move_spec native v0 src m0 Hnat W0 Ws0 Hap Hs Hor0)
        as (v' & src' & m' & Em & _ & _ & He & Hz).
      exists v', src', m'. split_and!; auto; try congruence.
      apply (elements_size src m v' m'). congruence.
Qed.

End every_path.

Lemma beside_five_wf : wf beside_five.1 beside_five.2 /\ wf five.1 beside_five.2.
Proof. split; apply wfb_wf; vm_compute; reflexivity. Qed.

Lemma move_assign_hands_over_witness :
  exists v' src' m',
    move_assign exact beside_five.1 five.1 beside_five.2 = Ok (v', src', m')
    /\ data v' = data five.1
    /\ elements v' m' = [Some 1; Some 2; Some 3; Some 4; Some 5]%Z
    /\ size src' = 0.
Proof.
  destruct beside_five_wf as [W1 W2].
  destruct (move_assign_hands_over exact beside_five.1 five.1 beside_five.2 W1 W2
              ltac:(split; [vm_compute; discriminate|right; vm_compute; discriminate])
              ltac:(vm_compute; reflexivity) ltac:(vm_compute; reflexivity))
    as (v' & src' & m' & E & Hd & _ & _ & He & _ & Hz & _).
  exists v', src', m'. split; [exact E|]. split; [exact Hd|]. split; [|exact Hz].
  rewrite He. vm_compute. reflexivity.
Defined.

Lemma moves_keep_elements_witness :
  exists v' src' m',
    move_ctor exact (allocator std_allocator) 2 0 five.1 five.2 = Ok (v', src', m')
    /\ elements v' m' = [Some 1; Some 2; Some 3; Some 4; Some 5]%Z /\ size src' = 0.
Proof.
  destruct (moves_keep_elements (T:=Z) exact exact_contract) as [_ H].
  destruct (H (allocator std_allocator) 2%nat 0 five.1 five.2
              ltac:(split; [exact I|discriminate]) five_wf ltac:(vm_compute; discriminate)
              ltac:(vm_compute; discriminate) ltac:(left; reflexivity))
    as (v' & src' & m' & E & He & _ & Hz).
  exists v', src', m'. split; [exact E|]. split; [|exact Hz].
  rewrite He. vm_compute. reflexivity.
Defined.

(** ** The capability queries, the allocator instance, and the block in use *)

(** X14. [backing_allocator_of_t] strips every [buffered_allocator]
    layer: the result is never a [buffered_allocator], stripping twice is
    stripping once, the result has no inline buffer, and [can_allocate] and
    the two propagation traits of an adapter are those of the allocator at
    its core. [buffer_capacity] is [0] for an allocator that is not an
    adapter and [SZ] for an adapter. *)
Theorem backing_allocator_of_strips (A : alloc_ty) :
  backing_allocator_of (backing_allocator_of A) = backing_allocator_of A
  /\ (forall SZ B, backing_allocator_of A <> buffered_allocator SZ B)
  /\ buffer_capacity (backing_allocator_of A) = 0
  /\ can_allocate (backing_allocator_of A) = can_allocate A
  /\ propagate_on_container_copy_assignment (backing_allocator_of A)
     = propagate_on_container_copy_assignment A
  /\ propagate_on_container_move_assignment (backing_allocator_of A)
     = propagate_on_container_move_assignment A
  /\ (forall SZ, backing_allocator_of (buffered_allocator SZ A) = backing_allocator_of A)
  /\ (buffer_capacity A = 0 \/ exists B, A = buffered_allocator (buffer_capacity A) B).
Proof.
  split_and!.
  - induction A; simpl; auto.
  - induction A; simpl; auto; discriminate.
  - induction A; simpl; auto.
  - apply can_allocate_backing.
  - induction A; simpl; auto.
  - induction A; simpl; auto.
  - done.
  - destruct A; simpl; eauto.
Qed.

Section propagation.
Context {T : Type}.
Variable native : heap_alloc -> N -> N.
Implicit Types (m : mem T) (v src : vector) (b : base).

Lemma reserve_keeps n v m :
  match reserve native n v m with
  | Ok (v', _) | Raise (v', _) =>
      Alloc v' = Alloc v /\ this v' = this v /\ m_alloc v' = m_alloc v
  | Abort => True
  end.
Proof.
  unfold reserve. destruct (n <=? capacity v); [done|].
  destruct (can_allocate (Alloc v));
    destruct (allocate_at_least native (Alloc v) (this v) 0 n m); done.
Qed.

Lemma take_elements_keeps p n v m :
  match take_elements native p n v m with
  | Ok (v', _) | Raise (v', _) =>
      Alloc v' = Alloc v /\ this v' = this v /\ m_alloc v' = m_alloc v
  | Abort => True
  end.
Proof.
  rewrite take_elements_unfold. pose proof (reserve_keeps n v m) as H.
  destruct (reserve native n v m) as [[v1 m1]|[v1 m1]|]; try done.
  by autorewrite with vec.
Qed.

Lemma take_and_clear_keeps v src m :
  match take_and_clear native v src m with
  | Ok (v', src', _) | Raise (v', src', _) =>
      (Alloc v' = Alloc v /\ this v' = this v /\ m_alloc v' = m_alloc v)
      /\ (Alloc src' = Alloc src /\ this src' = this src /\ m_alloc src' = m_alloc src)
  | Abort => True
  end.
Proof.
  unfold take_and_clear. pose proof (take_elements_keeps (data src) (size src) v m) as H.
  destruct (take_elements native (data src) (size src) v m) as [[v1 m1]|[v1 m1]|]; try done.
  destruct (pop_loop_keeps (N.to_nat (size src)) 0 src m1) as (H1 & H2 & H3 & _).
  fold (clear src m1) in *. destruct (clear src m1) as [s1 m2]. simpl in *. auto.
Qed.

(** X15. The allocator instance the destination ends with. Copy
    assignment takes that of the source exactly when the backing allocators
    are the same type and propagate on copy assignment. Move assignment
    takes it exactly when the block is handed over and the backing
    allocator propagates on move assignment, so never on the
    element-by-element path. The move constructor takes it exactly when it
    hands the block over; a container that is filled element by element
    keeps the instance it was constructed with. *)
Theorem allocator_propagation :
  (forall v src m v' m',
     copy_assign native v src m = Ok (v', m') ->
     Alloc v' = Alloc v
     /\ m_alloc v' = if bool_decide (Backing v = Backing src)
                        && propagate_on_container_copy_assignment (Backing v)
                     then m_alloc src else m_alloc v)
  /\ (forall v src m v' src' m',
     move_assign native v src m = Ok (v', src', m') ->
     Alloc v' = Alloc v /\ Alloc src' = Alloc src
     /\ m_alloc v' = if move_assign_condition v src && move_assign_allowed v src
                        && propagate_on_container_move_assignment (Backing v)
                     then m_alloc src else m_alloc v)
  /\ (forall A addr junk src m v' src' m',
     move_ctor native A addr junk src m = Ok (v', src', m') ->
     Alloc v' = A /\ this v' = addr /\ Alloc src' = Alloc src
     /\ m_alloc v' = if move_ctor_condition A src then m_alloc src else 0%nat).
Proof.
  split_and!.
  - intros v src m v' m' E. unfold copy_assign in E.
    destruct (bool_decide (Backing v = Backing src)
              && propagate_on_container_copy_assignment (Backing v)).
    + destruct (negb (is_always_equal (Backing v)) && bool_decide (m_alloc v ≠ m_alloc src)).
      * destruct (destroy_me_keeps v m) as (KA & Kt & Ka).
        destruct (destroy_me v m) as [v1 m1]. cbn [fst snd] in *.
        pose proof (take_elements_keeps (data src) (size src) (with_alloc (m_alloc src) v1) m1) as H.
        change (@copy_elements T native) with (@take_elements T native) in E.
        rewrite E in H. simpl in H. destruct H as (H1 & _ & H3). split; congruence.
      * pose proof (take_elements_keeps (data src) (size src) (with_alloc (m_alloc src) v) m) as H.
        change (@copy_elements T native) with (@take_elements T native) in E.
        rewrite E in H. simpl in H. tauto.
    + pose proof (take_elements_keeps (data src) (size src) v m) as H.
      change (@copy_elements T native) with (@take_elements T native) in E.
      rewrite E in H. tauto.
  - intros v src m v' src' m' E. unfold move_assign in E.
    destruct (move_assign_condition v src && move_assign_allowed v src).
    + destruct (destroy_me_keeps v m) as (KA & Kt & Ka).
      destruct (destroy_me v m) as [v1 m1]. cbn [fst snd] in *.
      injection E as <- <- <-. simpl. unfold Backing. rewrite KA.
      destruct (propagate_on_container_move_assignment (backing_allocator_of (Alloc v)));
        simpl; auto.
    + pose proof (take_and_clear_keeps v src m) as H. rewrite E in H. simpl. tauto.
  - intros A addr junk src m v' src' m' E. unfold move_ctor in E. simpl in E.
    destruct (move_ctor_condition A src).
    + by injection E as <- <- <-.
    + match type of E with take_and_clear _ ?v0 _ ?m0 = _ =>
        pose proof (take_and_clear_keeps v0 src m0) as H end.
      rewrite E in H. simpl in H. tauto.
Qed.

(** X16. [take_elements] and [copy_elements] with [count <= capacity()]
    work in the block the container has: they return, [data()] and
    [capacity()] are unchanged, nothing is allocated and no block changes
    its size. *)
Theorem take_elements_reuses_block (p : ptr) (n : N) v m :
  n <= capacity v ->
  exists v' m',
    take_elements native p n v m = Ok (v', m')
    /\ copy_elements native p n v m = Ok (v', m')
    /\ data v' = data v /\ capacity v' = capacity v
    /\ heap_allocations m' = heap_allocations m
    /\ next_block m' = next_block m
    /\ (forall b, block_size m' b = block_size m b).
Proof.
  intros Hn. change (@copy_elements T native) with (@take_elements T native).
  rewrite take_elements_unfold, reserve_noop by done.
  eexists _, _. split; [reflexivity|]. split; [reflexivity|].
  destruct (fill_events p n v m) as (_ & _ & _ & HA).
  autorewrite with vec. split_and!; auto.
  - unfold heap_allocations. by rewrite HA.
  - unfold fill. destruct (size v <? n).
    + by rewrite !next_block_copy_cells.
    + destruct (destroy_rest_store (Alloc v) (this v) (N.to_nat (size v - n))
                  (ptr_add (data v) n) (copy_cells Assign (N.to_nat n) p (data v) m))
        as (_ & -> & _). by rewrite next_block_copy_cells.
  - intros b. unfold fill. destruct (size v <? n).
    + by rewrite !block_size_copy_cells.
    + destruct (destroy_rest_store (Alloc v) (this v) (N.to_nat (size v - n))
                  (ptr_add (data v) n) (copy_cells Assign (N.to_nat n) p (data v) m))
        as (-> & _). by rewrite block_size_copy_cells.
Qed.

End propagation.

Lemma allocator_propagation_witness :
  match copy_assign exact pool3.1 pool2.1 pool2.2 with
  | Ok (v', _) => m_alloc v' = m_alloc pool2.1
  | _ => False
  end.
Proof.
  destruct (copy_assign exact pool3.1 pool2.1 pool2.2) as [[v' m']| |] eqn:E;
    [|vm_compute in E; discriminate..].
  destruct (allocator_propagation (T:=Z) exact) as (H & _).
  destruct (H pool3.1 pool2.1 pool2.2 v' m' E) as [_ Ha]. exact Ha.
Defined.

Lemma take_elements_reuses_block_witness :
  exists v' m',
    take_elements exact (data five.1) 2 three_beside_five.1 three_beside_five.2 = Ok (v', m')
    /\ data v' = data three_beside_five.1
    /\ heap_allocations m' = heap_allocations three_beside_five.2.
Proof.
  destruct (take_elements_reuses_block exact (data five.1) 2 three_beside_five.1
              three_beside_five.2 ltac:(vm_compute; discriminate))
    as (v' & m' & E & _ & Hd & _ & Ha & _).
  exists v', m'. by split_and!.
Defined.

(** ** The default constructor, and containers side by side *)

Section first_push.
Context {T : Type}.
Variable native : heap_alloc -> N -> N.
Implicit Types (m : mem T) (v : vector) (b : base).

Lemma default_ctor_unfold A addr junk m :
  default_ctor A addr junk m
  = (let v := (emerge A addr junk m).1 in
     if can_allocate A then with_storage (null_pointers (m_storage v)) v
     else with_storage (with_size 0 (m_storage v)) v,
     (emerge A addr junk m).2).
Proof. reflexivity. Qed.

Lemma default_ctor_facts A addr junk m0 :
  let v0 := (default_ctor A addr junk m0).1 in
  let m1 := (default_ctor A addr junk m0).2 in
  Alloc v0 = A /\ this v0 = addr /\ m_alloc v0 = 0%nat
  /\ size v0 = 0
  /\ capacity v0 = (if can_allocate A then 0 else buffer_capacity A)
  /\ data v0 = (if can_allocate A then nullptr else m_data addr 0)
  /\ m1 = (emerge A addr junk m0).2.
Proof.
  rewrite default_ctor_unfold. cbn [fst snd]. cbn zeta.
  destruct (can_allocate A) eqn:Hc; split_and!; auto.
  - unfold size. simpl. rewrite Hc. apply ptr_diff_self.
  - unfold capacity. simpl. rewrite Hc. apply ptr_diff_self.
  - unfold data. simpl. by rewrite Hc.
  - unfold size. simpl. by rewrite Hc.
  - unfold capacity. simpl. by rewrite Hc.
  - unfold data. simpl. by rewrite Hc.
Qed.

(** X17. A default-constructed container is empty whatever [m_size] held
    before. It has [capacity() == 0] and [data() == nullptr] when its
    allocator can allocate, also over a [buffered_allocator], and
    [capacity() == buffer_capacity] with the inline buffer as [data()] when
    it cannot; the constructor allocates nothing and touches no element.
    The first [push_back] into a container with an inline buffer of at
    least one element takes the inline buffer: [data()] is [m_data],
    [capacity()] is [SZ], the element is there and nothing has come from
    the free store. *)
Theorem default_ctor_first_push (A : alloc_ty) (addr : nat) (junk : N) (x : T) m0 :
  native_contract native -> usable A -> block_size m0 BNull = 0 ->
  let v0 := (default_ctor A addr junk m0).1 in
  let m1 := (default_ctor A addr junk m0).2 in
  size v0 = 0 /\ empty v0 = true /\ elements v0 m1 = []
  /\ capacity v0 = (if can_allocate A then 0 else buffer_capacity A)
  /\ data v0 = (if can_allocate A then nullptr else m_data addr 0)
  /\ log m1 = log m0
  /\ (1 <= buffer_capacity A ->
      exists v' m',
        push_back native x v0 m1 = Ok (v', m')
        /\ data v' = m_data addr 0
        /\ capacity v' = buffer_capacity A
        /\ size v' = 1
        /\ elements v' m' = [Some x]
        /\ heap_allocations m' = heap_allocations m0).
Proof.
  intros Hnat HA H0. pose proof (default_ctor_wf A addr junk m0 H0 HA) as W0.
  destruct (default_ctor_facts A addr junk m0) as (HAv & Htv & _ & Hs0 & Hc0 & Hd0 & Hm1).
  cbn zeta.
  set (v0 := (default_ctor A addr junk m0).1) in *.
  set (m1 := (default_ctor A addr junk m0).2) in *.
  split_and!; auto.
  - unfold empty. by rewrite Hs0.
  - by apply elements_nil.
  - intros HSZ.
    assert (Hreq : request v0 = 1) by (unfold request; rewrite Hs0; reflexivity).
    assert (Hor : can_allocate (Alloc v0) = true \/ request v0 <= capacity v0).
    { rewrite HAv, Hreq, Hc0. destruct (can_allocate A); auto. }
    destruct (push_back_spec native x v0 m1 W0 ltac:(rewrite Hs0; reflexivity) Hnat Hor)
      as (v' & m' & E & P & v1 & m1' & Er & -> & Hal).
    destruct P as [PW PA Pt Pa Ps Pc Pn Po Pf Pfo].
    exists (set_size (size v0 + 1) v1), m'. split; [exact E|].
    assert (Hv1 : data v1 = m_data addr 0 /\ capacity v1 = buffer_capacity A
                  /\ filter is_Allocate (log m1') = filter is_Allocate (log m0)).
    { rewrite Hreq in Er. destruct (can_allocate A) eqn:Hc.
      - rewrite reserve_unfold in Er by (rewrite ?Hc0, ?HAv; done || lia).
        destruct A as [h| | | |SZ B]; simpl in HSZ; try lia.
        assert (Ea : allocate_at_least native (Alloc v0) (this v0) 0 1 m1
                     = Granted {| ptr_ := m_data addr 0; count := SZ |} m1).
        { rewrite HAv, Htv. simpl. by destruct (N.leb_spec 1 SZ); [|lia]. }
        rewrite Ea in Er. injection Er as <- <-.
        rewrite data_adopted by (rewrite HAv; done).
        rewrite capacity_adopted; [|rewrite HAv; done|destruct HA as [[? _] _]; done].
        split_and!; auto.
        rewrite HAv. simpl.
        case_bool_decide; rewrite ?allocations_deallocate, allocations_copy_cells by done;
          by rewrite Hm1.
      - rewrite reserve_noop in Er by (rewrite Hc0; done). injection Er as <- <-.
        split_and!; auto. }
    destruct Hv1 as (Hd1 & Hc1 & Ha1).
    autorewrite with vec. split_and!; auto.
    + rewrite Ps, Hs0. done.
    + rewrite (elements_snoc v0 m1 _ m' (Some x)); auto.
      by rewrite elements_nil.
    + unfold heap_allocations. by rewrite Hal, Ha1.
Qed.

End first_push.

Section others.
Context {T : Type}.
Implicit Types (m : mem T) (v w : vector) (b : base).

(** What a change to the store that keeps the blocks foreign to [v] does
    to another container [w]. *)
Lemma other_container (P : base -> Prop) w m m' :
  wf w m -> frame P m m' -> block_size m' BNull = 0 ->
  P (p_base (data w)) -> (forall d, P (BInline (this w) d)) ->
  wf w m' /\ elements w m' = elements w m.
Proof.
  intros Ww (FL & FS & FN) H0 Hd Hi. split.
  - apply (wf_blocks w m m' Ww); [|done].
    intros b [-> | [[d ->] | ->]]; auto.
    rewrite H0. symmetry. apply Ww.
  - apply elements_ext; [done|]. intros j _. apply FL. unfold index.
    by rewrite ptr_add_base.
Qed.

Lemma foreign_inline v w m d :
  wf v m -> this v <> this w -> foreign v m (BInline (this w) d).
Proof.
  intros W Ht. split_and!; try done.
  - intros E. pose proof (wf_home v m W) as H. rewrite <- E in H. destruct H. congruence.
  - intros d' [=]. congruence.
Qed.

Lemma not_data_inline v w m d :
  wf v m -> this v <> this w -> BInline (this w) d <> p_base (data v).
Proof.
  intros W Ht E. pose proof (wf_home v m W) as H. rewrite <- E in H. destruct H. congruence.
Qed.

Variable native : heap_alloc -> N -> N.

(** X18. [reserve], [push_back], [pop_back], [clear] and the destructor
    of one container leave every other well-formed container as it was, as
    long as the two do not share a block: it has the same elements and is
    still well formed. *)
Theorem other_containers_untouched v w m :
  native_contract native -> wf v m -> wf w m ->
  this v <> this w -> p_base (data w) <> p_base (data v) ->
  (forall n, n < size_modulus -> can_allocate (Alloc v) = true \/ n <= capacity v ->
     exists v' m', reserve native n v m = Ok (v', m')
       /\ wf v' m' /\ wf w m' /\ elements w m' = elements w m)
  /\ (forall x, size v + 1 < size_modulus ->
        can_allocate (Alloc v) = true \/ request v <= capacity v ->
     exists v' m', push_back native x v m = Ok (v', m')
       /\ wf v' m' /\ wf w m' /\ elements w m' = elements w m)
  /\ (0 < size v <= capacity v ->
        wf (pop_back v m).1 (pop_back v m).2
        /\ wf w (pop_back v m).2 /\ elements w (pop_back v m).2 = elements w m)
  /\ (size v <= capacity v ->
        wf (clear v m).1 (clear v m).2
        /\ wf w (clear v m).2 /\ elements w (clear v m).2 = elements w m)
  /\ (wf w (dtor v m).2 /\ elements w (dtor v m).2 = elements w m).
Proof.
  intros Hnat W Ww Ht Hne.
  pose proof (foreign_data v w m Ww Ht Hne) as Fd.
  pose proof (fun d => foreign_inline v w m d W Ht) as Fi.
  split; [|split; [|split; [|split]]].
  - intros n HM Hor.
    destruct (reserve_ok native n v m W HM Hnat Hor) as (v' & m' & E & R).
    destruct R as [RW RA Rt Ra Rs Rc Rg Rl Rf Rfo].
    exists v', m'. split; [done|]. split; [done|].
    apply (other_container (foreign v m)); auto. apply RW.
  - intros x HM Hor.
    destruct (push_back_spec native x v m W HM Hnat Hor) as (v' & m' & E & P & _).
    destruct P as [PW PA Pt Pa Ps Pc Pn Po Pf Pfo].
    exists v', m'. split; [done|]. split; [done|].
    apply (other_container (foreign v m)); auto. apply PW.
  - intros [H0 Hc].
    destruct (pop_back_spec v m W H0 Hc) as (W1 & _ & _ & _ & _ & _ & _ & _ & B1 & N1 & _).
    split; [done|].
    apply (other_container (fun b => b <> p_base (data v))); auto.
    + pose proof (pop_loop_frame (fun b => b <> p_base (data v)) 1 (size v - 1) v m
                    ltac:(tauto)) as F.
      cbn [pop_loop] in F. destruct (N.ltb_spec (size v - 1) (size v)); [|lia].
      by destruct (pop_back v m).
    + apply W1.
    + intros d. by apply (not_data_inline v w m).
  - intros Hc.
    destruct (pop_loop_spec (N.to_nat (size v)) 0 v m W ltac:(lia) Hc ltac:(lia))
      as (W' & _).
    fold (clear v m) in W'. split; [done|].
    apply (other_container (fun b => b <> p_base (data v))); auto.
    + apply frame_clear. tauto.
    + apply W'.
    + intros d. by apply (not_data_inline v w m).
  - apply (other_container (fun b => b <> p_base (data v))); auto.
    + apply frame_dtor. tauto.
    + unfold dtor. rewrite destroy_me_unfold. cbn [snd].
      rewrite block_size_deallocate_not_heap by done.
      destruct (pop_loop_store (N.to_nat (size v)) 0 v m) as (B & _).
      fold (clear v m) in B. rewrite B. apply W.
    + intros d. by apply (not_data_inline v w m).
Qed.

End others.

Lemma default_ctor_first_push_witness :
  exists v' m',
    push_back exact 7%Z (default_ctor sbo3 1 0 empty_store).1
      (default_ctor sbo3 1 0 empty_store).2 = Ok (v', m')
    /\ data v' = m_data 1 0 /\ capacity v' = 3 /\ elements v' m' = [Some 7%Z]
    /\ heap_allocations m' = 0%nat.
Proof.
  destruct (default_ctor_first_push exact sbo3 1 0 7%Z empty_store exact_contract sbo3_usable
              ltac:(vm_compute; reflexivity)) as (_ & _ & _ & _ & _ & _ & H).
  destruct (H ltac:(vm_compute; discriminate)) as (v' & m' & E & Hd & Hc & _ & He & Ha).
  exists v', m'. by split_and!.
Defined.

Lemma other_containers_untouched_witness :
  exists v' m',
    push_back exact 9%Z beside_five.1 beside_five.2 = Ok (v', m')
    /\ elements five.1 m' = [Some 1; Some 2; Some 3; Some 4; Some 5]%Z.
Proof.
  destruct beside_five_wf as [W1 W2].
  destruct (other_containers_untouched exact beside_five.1 five.1 beside_five.2
              exact_contract W1 W2 ltac:(vm_compute; discriminate)
              ltac:(vm_compute; discriminate)) as (_ & H & _).
  destruct (H 9%Z ltac:(vm_compute; reflexivity) ltac:(left; vm_compute; reflexivity))
    as (v' & m' & E & _ & _ & He).
  exists v', m'. split; [exact E|]. rewrite He. vm_compute. reflexivity.
Defined.

(** ** Copy assignment, and [push_back] within a fixed capacity *)

Section copies.
Context {T : Type}.
Variable native : heap_alloc -> N -> N.
Implicit Types (m : mem T) (v src : vector) (b : base).

Lemma wf_with_alloc a v m : wf v m -> wf (with_alloc a v) m.
Proof. intros [W1 W2 W3 W4 W5 W6 W7]. by constructor. Qed.

(** X19. Copy assignment gives the destination the elements of the source
    and leaves the source as it was, in every case but the one where it
    tears the destination down first (same backing allocator, propagation
    on copy assignment, instances that are not always equal and differ).
    When the elements of the source fit [capacity()] it keeps [data()] and
    [capacity()] and allocates nothing. *)
Theorem copy_assign_keeps_elements v src m :
  native_contract native -> wf v m -> wf src m -> apart v src ->
  size src <= capacity src ->
  can_allocate (Alloc v) = true \/ size src <= capacity v ->
  tears_down v src = false ->
  exists v' m',
    copy_assign native v src m = Ok (v', m')
    /\ elements v' m' = elements src m
    /\ elements src m' = elements src m
    /\ size v' = size src
    /\ (size src <= capacity v ->
        data v' = data v /\ capacity v' = capacity v
        /\ heap_allocations m' = heap_allocations m).
Proof.
  intros Hnat W Ws Hap Hs Hor Ht. unfold copy_assign, tears_down in *.
  change (@copy_elements T native) with (@take_elements T native).
  assert (Hgo : forall a,
    exists v' m',
      take_elements native (data src) (size src) (with_alloc a v) m = Ok (v', m')
      /\ elements v' m' = elements src m
      /\ elements src m' = elements src m
      /\ size v' = size src
      /\ (size src <= capacity v ->
          data v' = data v /\ capacity v' = capacity v
          /\ heap_allocations m' = heap_allocations m)).
  { intros a.
    destruct (copy_spec native (with_alloc a v) src m Hnat (wf_with_alloc a v m W) Ws Hap Hs Hor)
      as (v' & m' & E & _ & _ & _ & He & Hes & _).
    exists v', m'. split_and!; auto.
    - by eapply elements_size.
    - intros Hfit. rewrite take_elements_unfold, reserve_noop in E by done.
      injection E as <- <-.
      destruct (fill_events (data src) (size src) (with_alloc a v) m) as (_ & _ & _ & Ha).
      autorewrite with vec. unfold heap_allocations. rewrite Ha. done. }
  destruct (bool_decide (Backing v = Backing src)
            && propagate_on_container_copy_assignment (Backing v)); simpl in Ht.
  - rewrite Ht. apply Hgo.
  - destruct (Hgo (m_alloc v)) as (v' & m' & E & H).
    exists v', m'. split; [|exact H]. rewrite <- E. by destruct v.
Qed.

End copies.

Section fixed.
Context {T : Type}.
Variable native : heap_alloc -> N -> N.
Implicit Types (m : mem T) (v : vector) (b : base).

(** X20. On a container that cannot allocate, a [push_back] whose request
    [max(size() + 1, size() * 3 / 2)] is within [SZ] appends: it returns
    with the element at the end and the others as they were, [size()] one
    more, [data()] and [capacity()] unchanged and nothing allocated. *)
Theorem push_back_fixed_capacity (SZ : N) (P : alloc_ty) (x : T) v m :
  native_contract native -> wf v m -> Alloc v = sbo_vector SZ P -> sentinel P ->
  size v * 3 < size_modulus -> N.max (size v + 1) (size v * 3 / 2) <= SZ ->
  exists v' m',
    push_back native x v m = Ok (v', m')
    /\ size v' = size v + 1
    /\ elements v' m' = elements v m ++ [Some x]
    /\ capacity v' = SZ /\ data v' = data v
    /\ heap_allocations m' = heap_allocations m
    /\ wf v' m'.
Proof.
  intros Hnat W HA HP HM Hfit.
  assert (Hreq : request v = N.max (size v + 1) (size v * 3 / 2)).
  { unfold request. rewrite !wrap_small by (unfold size_modulus in *; lia). done. }
  assert (Hcap : capacity v = SZ) by (by apply (capacity_static SZ P)).
  destruct (push_back_spec native x v m W ltac:(unfold size_modulus in *; lia) Hnat
              ltac:(right; lia))
    as (v' & m' & E & Pu & v1 & m1 & Er & -> & Hal).
  rewrite reserve_noop in Er by lia. injection Er as <- <-.
  destruct Pu as [PW PA Pt Pa Ps Pc Pn Po Pf Pfo].
  eexists _, _. split; [exact E|]. autorewrite with vec. split_and!; auto.
  - by apply elements_snoc.
  - unfold heap_allocations. by rewrite Hal.
Qed.

End fixed.

Lemma three_beside_five_wf :
  wf three_beside_five.1 three_beside_five.2 /\ wf five.1 three_beside_five.2.
Proof. split; apply wfb_wf; vm_compute; reflexivity. Qed.

Lemma copy_assign_keeps_elements_witness :
  exists v' m',
    copy_assign exact three_beside_five.1 five.1 three_beside_five.2 = Ok (v', m')
    /\ elements v' m' = [Some 1; Some 2; Some 3; Some 4; Some 5]%Z
    /\ elements five.1 m' = [Some 1; Some 2; Some 3; Some 4; Some 5]%Z.
Proof.
  destruct three_beside_five_wf as [W1 W2].
  destruct (copy_assign_keeps_elements exact three_beside_five.1 five.1 three_beside_five.2
              exact_contract W1 W2
              ltac:(split; [vm_compute; discriminate|right; vm_compute; discriminate])
              ltac:(vm_compute; discriminate) ltac:(left; vm_compute; reflexivity)
              ltac:(vm_compute; reflexivity))
    as (v' & m' & E & He & Hs & _).
  exists v', m'. split; [exact E|]. rewrite He, Hs. split; vm_compute; reflexivity.
Defined.

Lemma push_back_fixed_capacity_witness :
  exists v' m',
    push_back exact 1%Z empty_static3.1 empty_static3.2 = Ok (v', m')
    /\ size v' = 1 /\ elements v' m' = [Some 1%Z].
Proof.
  destruct (push_back_fixed_capacity exact 3 unchecked_allocator 1%Z empty_static3.1
              empty_static3.2 exact_contract empty_static3_wf ltac:(vm_compute; reflexivity)
              ltac:(right; right; reflexivity) ltac:(vm_compute; reflexivity)
              ltac:(vm_compute; discriminate))
    as (v' & m' & E & Hs & He & _).
  exists v', m'. split; [exact E|]. split; [exact Hs|]. rewrite He. vm_compute. reflexivity.
Defined.

(** ** The test program *)

Section main_facts.
Context {T : Type}.
Implicit Types (m : mem T) (v src w : vector) (b : base).

(** A container whose capacity is beyond every inline buffer of its
    allocator has its elements in a block of the free store. *)
Lemma data_in_heap v m :
  wf v m -> 0 < capacity v ->
  (forall d SZ, layer_size (Alloc v) d = Some SZ -> SZ < capacity v) ->
  exists id, p_base (data v) = BHeap id.
Proof.
  intros W H0 Hl. pose proof (wf_home v m W) as H.
  destruct (p_base (data v)) as [|o d|id]; [lia| |eauto].
  destruct H as [_ H]. specialize (Hl d _ H). lia.
Qed.

Lemma wf_null_pointers v m :
  block_size m BNull = 0 -> sizes_in_range (Alloc v) ->
  (forall d SZ, layer_size (Alloc v) d = Some SZ -> block_size m (BInline (this v) d) = SZ) ->
  can_allocate (Alloc v) = true ->
  wf (with_storage (null_pointers (m_storage v)) v) m.
Proof.
  intros H0 Hr Hp Hc. constructor; simpl; auto.
  - unfold data. simpl. by rewrite Hc.
  - intros _. unfold size, capacity. simpl. rewrite Hc, ptr_diff_self. lia.
  - intros _. unfold size, capacity, data. simpl. rewrite Hc, ptr_diff_self. done.
  - unfold data, capacity. simpl. rewrite Hc. simpl. apply ptr_diff_self.
Qed.

Lemma wf_take_storage v src m id a :
  block_size m BNull = 0 -> sizes_in_range (Alloc v) ->
  (forall d SZ, layer_size (Alloc v) d = Some SZ -> block_size m (BInline (this v) d) = SZ) ->
  can_allocate (Alloc v) = true -> can_allocate (Alloc src) = true ->
  wf src m -> p_base (data src) = BHeap id ->
  wf (with_storage (m_storage src) (with_alloc a v)) m.
Proof.
  intros H0 Hr Hp Hc Hcs Ws Hid.
  set (v' := with_storage (m_storage src) (with_alloc a v)).
  destruct (elements_same_storage v' src m Hc Hcs eq_refl) as (Es & Ed & Ec & _).
  constructor; auto.
  - rewrite Ed. apply Ws.
  - intros _. rewrite Es, Ec. by apply (wf_size src m Ws).
  - intros _. rewrite Ed, Es, Ec. by apply (wf_rep src m Ws).
  - rewrite Ed, Ec, Hid. pose proof (wf_home src m Ws) as H. by rewrite Hid in H.
Qed.

Lemma block_size_destroy_me v m b :
  b <> p_base (data v) \/ (forall id, b <> BHeap id) ->
  block_size (destroy_me v m).2 b = block_size m b.
Proof.
  intros H. rewrite destroy_me_unfold. cbn [snd].
  destruct (pop_loop_store (N.to_nat (size v)) 0 v m) as (B & _).
  fold (clear v m) in B. rewrite <- B. destruct H as [H|H].
  - by apply block_size_deallocate_ne.
  - by apply block_size_deallocate_not_heap.
Qed.

Lemma next_block_destroy_me v m : next_block (destroy_me v m).2 = next_block m.
Proof.
  rewrite destroy_me_unfold. cbn [snd]. rewrite next_block_deallocate.
  apply pop_loop_store.
Qed.

Lemma elements_at v m l (i : nat) x :
  elements v m = l -> l !! i = Some x -> load m (index v (N.of_nat i)) = x.
Proof.
  intros <- H. rewrite elements_lookup in H. case_decide; congruence.
Qed.

Variable native : heap_alloc -> N -> N.

(** One [push_back] in a run of them. *)
Lemma push_step (x : T) v m l :
  native_contract native -> wf v m -> can_allocate (Alloc v) = true \/ request v <= capacity v ->
  size v + 1 < size_modulus -> elements v m = l ->
  exists v' m',
    push_back native x v m = Ok (v', m')
    /\ wf v' m' /\ Alloc v' = Alloc v /\ this v' = this v
    /\ size v' = size v + 1 /\ elements v' m' = l ++ [Some x].
Proof.
  intros Hnat W Hor HM <-.
  destruct (push_back_spec native x v m W HM Hnat Hor) as (v' & m' & E & P & _).
  destruct P as [PW PA Pt Pa Ps Pc Pn Po Pf Pfo].
  exists v', m'. split_and!; auto. by apply elements_snoc.
Qed.

(** The move constructor handing over a block of the free store. *)
Lemma move_ctor_hands_over A addr junk src m id :
  usable A -> wf src m -> this src <> addr ->
  move_ctor_condition A src = true -> p_base (data src) = BHeap id ->
  exists v' src' m',
    move_ctor native A addr junk src m = Ok (v', src', m')
    /\ wf v' m' /\ wf src' m'
    /\ Alloc v' = A /\ this v' = addr /\ Alloc src' = Alloc src /\ this src' = this src
    /\ size v' = size src /\ capacity v' = capacity src /\ data v' = data src
    /\ elements v' m' = elements src m
    /\ size src' = 0 /\ capacity src' = 0 /\ data src' = nullptr.
Proof.
  intros HA Ws Ht Hcond Hid.
  assert (H0 : block_size m BNull = 0) by apply Ws.
  pose proof (emerge_wf A addr junk m H0 HA) as W0.
  pose proof (emerge_apart A addr junk src m Ws Ht) as Hem.
  unfold move_ctor. destruct (emerge A addr junk m) as [v0 m0] eqn:E.
  assert (HAv0 : Alloc v0 = A) by (by injection E as <- _).
  assert (Htv0 : this v0 = addr) by (by injection E as <- _).
  destruct Hem as (Ws0 & Hap & Hel & Hcap). simpl in W0. rewrite Hcond.
  unfold move_ctor_condition in Hcond.
  apply andb_prop in Hcond as [H1 _]. apply andb_prop in H1 as [HB Hcs].
  apply bool_decide_eq_true_1 in HB.
  assert (HcA : can_allocate A = true).
  { rewrite <- can_allocate_backing, HB. unfold Backing. by rewrite can_allocate_backing. }
  set (v' := with_storage (m_storage src) (with_alloc (m_alloc src) v0)).
  destruct (elements_same_storage v' src m0 ltac:(simpl; congruence) Hcs eq_refl)
    as (Es & Ed & Ec & Ee).
  eexists _, _, _. split; [reflexivity|]. fold v'. split_and!; auto.
  - apply (wf_take_storage v0 src m0 id); try apply W0; auto; congruence.
  - apply wf_null_pointers; try apply Ws0; auto.
  - congruence.
  - by apply size_null_pointers.
  - unfold capacity. simpl. rewrite Hcs. apply ptr_diff_self.
  - unfold data. simpl. by rewrite Hcs.
Qed.

(** Move assignment handing over a block of the free store: both
    containers are well formed afterwards. *)
Lemma move_assign_hands_over_wf v src m id :
  wf v m -> wf src m -> apart v src ->
  move_assign_condition v src && move_assign_allowed v src = true ->
  p_base (data src) = BHeap id ->
  exists v' src' m',
    move_assign native v src m = Ok (v', src', m')
    /\ wf v' m' /\ wf src' m'
    /\ Alloc v' = Alloc v /\ this v' = this v /\ Alloc src' = Alloc src /\ this src' = this src
    /\ size v' = size src /\ capacity v' = capacity src /\ data v' = data src
    /\ elements v' m' = elements src m
    /\ size src' = 0 /\ capacity src' = 0 /\ data src' = nullptr.
Proof.
  intros W Ws Hap Hcond Hid.
  destruct (move_assign_fast native v src m W Ws Hap Hcond)
    as (v' & src' & m' & E & HA & Ht & Hst & _ & Hs & Hd & Hc & He & Hz & Hzc & Hzd & _).
  exists v', src', m'. split; [exact E|].
  unfold move_assign in E. rewrite Hcond in E.
  apply andb_prop in Hcond as [Hcond _]. unfold move_assign_condition in Hcond.
  apply andb_prop in Hcond as [H1 H2]. apply andb_prop in H1 as [HB Hcs].
  apply bool_decide_eq_true_1 in HB.
  assert (Hcv : can_allocate (Alloc v) = true).
  { rewrite <- can_allocate_backing. fold (Backing v). rewrite HB.
    unfold Backing. by rewrite can_allocate_backing. }
  destruct Hap as [Hth Hb].
  assert (Hne : p_base (data src) <> p_base (data v)).
  { destruct Hb as [Hb|Hb]; [congruence|done]. }
  destruct (destroy_me_keeps v m) as (KA & Kt & Ka).
  pose proof (block_size_destroy_me v m) as HB1.
  pose proof (next_block_destroy_me v m) as HN1.
  destruct (destroy_me v m) as [v1 m1]. cbn [fst snd] in *.
  injection E as <- <- <-.
  assert (Ws1 : wf src m1).
  { apply (wf_blocks src m m1 Ws); [|lia].
    intros b [-> | [[d ->] | ->]]; apply HB1; auto. }
  assert (H01 : block_size m1 BNull = 0) by apply Ws1.
  assert (Hp1 : forall d SZ, layer_size (Alloc v1) d = Some SZ ->
                             block_size m1 (BInline (this v1) d) = SZ).
  { intros d SZ Hl. rewrite HB1 by (right; done). rewrite KA, Kt in *. by apply W. }
  split_and!; auto.
  - destruct (propagate_on_container_move_assignment (Backing v1)).
    + apply (wf_take_storage v1 src m1 id); auto; try congruence.
      rewrite KA. apply W.
    + replace v1 with (with_alloc (m_alloc v1) v1) by (by destruct v1).
      apply (wf_take_storage v1 src m1 id); auto; try congruence.
      rewrite KA. apply W.
  - apply wf_null_pointers; try apply Ws1; auto.
Qed.

(** The element-by-element move in full: both containers are well formed
    afterwards, and a third one that shares no block with them is as it
    was. *)
Lemma take_and_clear_spec v src m :
  native_contract native -> wf v m -> wf src m -> apart v src ->
  size src <= capacity src ->
  can_allocate (Alloc v) = true \/ size src <= capacity v ->
  exists v' src' m',
    take_and_clear native v src m = Ok (v', src', m')
    /\ wf v' m' /\ wf src' m'
    /\ Alloc v' = Alloc v /\ this v' = this v /\ Alloc src' = Alloc src /\ this src' = this src
    /\ elements v' m' = elements src m /\ size v' = size src
    /\ size src' = 0 /\ capacity src' = capacity src /\ data src' = data src
    /\ (forall w, wf w m -> this w <> this v -> this w <> this src ->
          p_base (data w) <> p_base (data v) -> p_base (data w) <> p_base (data src) ->
          wf w m' /\ elements w m' = elements w m).
Proof.
  intros Hnat W Ws Hap Hs Hor.
  destruct (move_spec native v src m Hnat W Ws Hap Hs Hor)
    as (v' & src' & m' & E & HA & Ht & He & Hz).
  exists v', src', m'. split; [exact E|].
  pose proof (wf_capacity_lt src m Ws) as HM.
  destruct (take_elements_spec native (data src) (size src) v m W ltac:(lia) Hnat Hor)
    as (v1 & m1 & E1 & W1 & HA1 & Ht1 & Ha1 & Hsz1 & Hf1 & Hfo1 & Hl1).
  unfold take_and_clear in E. rewrite E1 in E.
  destruct Hap as [Hth Hb].
  assert (Ws1 : wf src m1).
  { destruct Hf1 as (FL & FS & FN).
    apply (wf_blocks src m m1 Ws); [|done].
    intros b [-> | [[d ->] | ->]].
    - transitivity 0; [apply W1|symmetry; apply Ws].
    - apply FS. by apply (foreign_inline v src m).
    - destruct Hb as [Hb|Hb].
      + rewrite Hb. transitivity 0; [apply W1|symmetry; apply Ws].
      + apply FS. by apply (foreign_data v src m). }
  destruct (pop_loop_spec (N.to_nat (size src)) 0 src m1 Ws1 ltac:(lia) Hs ltac:(lia))
    as (Wc & Sc & _).
  destruct (pop_loop_keeps (N.to_nat (size src)) 0 src m1) as (KA & Kt & _ & KD & KC & _).
  destruct (pop_loop_store (N.to_nat (size src)) 0 src m1) as (KB & KN & _).
  pose proof (fun P => frame_clear P src m1) as Fc.
  fold (clear src m1) in *. destruct (clear src m1) as [s1 m2]. cbn [fst snd] in *.
  injection E as <- <- <-.
  split_and!; auto; try congruence.
  - apply (wf_mem v1 m1 m2 W1); [done|lia].
  - intros w Ww Hw1 Hw2 Hd1 Hd2.
    destruct (other_container (foreign v m) w m m1 Ww Hf1 ltac:(apply W1)
                ltac:(by apply (foreign_data v w m))
                ltac:(intros d; by apply (foreign_inline v w m)))
      as [Ww1 Hew1].
    destruct (other_container (fun b => b <> p_base (data src)) w m1 m2 Ww1
                ltac:(apply Fc; tauto) ltac:(apply Wc) Hd2
                ltac:(intros d; by apply (not_data_inline src w m1)))
      as [Ww2 Hew2].
    split; [done|congruence].
Qed.

End main_facts.

Lemma static_usable (SZ : N) : SZ < size_modulus -> usable (static_vector SZ).
Proof. intros H. split; [|reflexivity]. simpl. auto. Qed.

Lemma std_usable : usable (allocator std_allocator).
Proof. split; [exact I|discriminate]. Qed.

Ltac passes H := rewrite (bool_decide_eq_true_2 _ H); cbv beta iota.

(** X21. [main] of [test_vector.cpp] returns: no assertion fails, nothing
    is thrown and [terminate()] is not called, whatever the members
    [allocate_at_least] of [std::allocator] grant within their contract and
    whatever the memory of the five containers holds before their
    constructors run. *)
Theorem main_returns (native : heap_alloc -> N -> N) (junk : nat -> N) :
  native_contract native -> exists m, main native junk = Returned m.
Proof.
  intros Hnat. unfold main.
  (* x *)
  pose proof (default_ctor_wf (allocator std_allocator) 1 (junk 1%nat) empty_store eq_refl
                std_usable) as Wx.
  destruct (default_ctor_facts (allocator std_allocator) 1 (junk 1%nat) empty_store)
    as (Ax & _ & _ & Sx & _).
  destruct (default_ctor (allocator std_allocator) 1 (junk 1%nat) empty_store) as [x0 m0].
  cbn [fst snd] in *.
  destruct (push_step native 1%Z x0 m0 [] Hnat Wx ltac:(left; by rewrite Ax)
              ltac:(by rewrite Sx) ltac:(by apply elements_nil))
    as (x1 & m1 & -> & Wx1 & _ & _ & Sx1 & _).
  cbv beta iota.
  replace (size x1 =? 1) with true by (rewrite Sx1, Sx; reflexivity).
  (* s *)
  pose proof (default_ctor_wf (static_vector 3) 2 (junk 2%nat) m1 ltac:(apply Wx1)
                (static_usable 3 eq_refl)) as Ws.
  destruct (default_ctor_facts (static_vector 3) 2 (junk 2%nat) m1)
    as (As & _ & _ & Ss & Cs & _).
  destruct (default_ctor (static_vector 3) 2 (junk 2%nat) m1) as [s0 m2].
  cbn [fst snd] in *.
  destruct (push_step native 1%Z s0 m2 [] Hnat Ws
              ltac:(right; unfold request; rewrite Ss, Cs; vm_compute; discriminate)
              ltac:(by rewrite Ss) ltac:(by apply elements_nil))
    as (s1 & m3 & -> & Ws1 & _ & _ & Ss1 & _).
  cbv beta iota.
  replace (size s1 =? 1) with true by (rewrite Ss1, Ss; reflexivity).
  (* sbo *)
  pose proof (default_ctor_wf sbo3 3 (junk 3%nat) m3 ltac:(apply Ws1) sbo3_usable) as Wb.
  destruct (default_ctor_facts sbo3 3 (junk 3%nat) m3) as (Ab & Tb & _ & Sb & _).
  destruct (default_ctor sbo3 3 (junk 3%nat) m3) as [b0 m4].
  cbn [fst snd] in *.
  destruct (push_step native 1%Z b0 m4 [] Hnat Wb ltac:(left; by rewrite Ab)
              ltac:(by rewrite Sb) ltac:(by apply elements_nil))
    as (b1 & m5 & -> & Wb1 & Ab1 & Tb1 & Sb1 & Eb1).
  cbv beta iota. rewrite Sb in Sb1. change (0 + 1) with 1 in Sb1. rewrite Ab in Ab1. rewrite Tb in Tb1.
  replace (size b1 =? 1) with true by (by rewrite Sb1).
  destruct (push_step native 2%Z b1 m5 _ Hnat Wb1 ltac:(left; by rewrite Ab1)
              ltac:(by rewrite Sb1) Eb1)
    as (b2 & m6 & -> & Wb2 & Ab2 & Tb2 & Sb2 & Eb2).
  cbv beta iota. rewrite Sb1 in Sb2. change (1 + 1) with 2 in Sb2. rewrite Ab1 in Ab2. rewrite Tb1 in Tb2.
  replace (size b2 =? 2) with true by (by rewrite Sb2).
  destruct (push_step native 3%Z b2 m6 _ Hnat Wb2 ltac:(left; by rewrite Ab2)
              ltac:(by rewrite Sb2) Eb2)
    as (b3 & m7 & -> & Wb3 & Ab3 & Tb3 & Sb3 & Eb3).
  cbv beta iota. rewrite Sb2 in Sb3. change (2 + 1) with 3 in Sb3. rewrite Ab2 in Ab3. rewrite Tb2 in Tb3.
  replace (size b3 =? 3) with true by (by rewrite Sb3).
  destruct (push_step native 4%Z b3 m7 _ Hnat Wb3 ltac:(left; by rewrite Ab3)
              ltac:(by rewrite Sb3) Eb3)
    as (b4 & m8 & -> & Wb4 & Ab4 & Tb4 & Sb4 & Eb4).
  cbv beta iota. rewrite Sb3 in Sb4. change (3 + 1) with 4 in Sb4. rewrite Ab3 in Ab4. rewrite Tb3 in Tb4.
  replace (size b4 =? 4) with true by (by rewrite Sb4).
  destruct (push_step native 5%Z b4 m8 _ Hnat Wb4 ltac:(left; by rewrite Ab4)
              ltac:(by rewrite Sb4) Eb4)
    as (b5 & m9 & -> & Wb5 & Ab5 & Tb5 & Sb5 & Eb5).
  cbv beta iota. rewrite Sb4 in Sb5. change (4 + 1) with 5 in Sb5. rewrite Ab4 in Ab5. rewrite Tb4 in Tb5.
  replace (size b5 =? 5) with true by (by rewrite Sb5).
  simpl in Eb5. unfold at_is.
  passes (elements_at b5 m9 _ 0%nat _ Eb5 eq_refl).
  passes (elements_at b5 m9 _ 1%nat _ Eb5 eq_refl).
  passes (elements_at b5 m9 _ 2%nat _ Eb5 eq_refl).
  passes (elements_at b5 m9 _ 3%nat _ Eb5 eq_refl).
  passes (elements_at b5 m9 _ 4%nat _ Eb5 eq_refl).
  (* std::vector<int> v(std::move(sbo)) *)
  assert (Cb5 : 5 <= capacity b5).
  { rewrite <- Sb5. apply (wf_size b5 m9 Wb5). by rewrite Ab5. }
  destruct (data_in_heap b5 m9 Wb5 ltac:(lia)) as [id Hid].
  { rewrite Ab5. intros [|d] SZ [=]. lia. }
  destruct (move_ctor_hands_over native (allocator std_allocator) 4 (junk 4%nat) b5 m9 id
              std_usable Wb5 ltac:(by rewrite Tb5))
    as (v1 & b6 & m10 & -> & Wv1 & Wb6 & Av1 & Tv1 & Ab6 & Tb6 & Sv1 & Cv1 & Dv1 & Ev1
        & Sb6 & Cb6 & Db6); [|done|].
  { unfold move_ctor_condition, Backing. rewrite Ab5.
    apply andb_true_intro. split; [reflexivity|].
    apply orb_true_intro. left. apply N.ltb_lt. simpl. lia. }
  cbv beta iota.
  (* sbo = std::move(v) *)
  destruct (move_assign_hands_over_wf native b6 v1 m10 id Wb6 Wv1)
    as (b7 & v2 & m11 & -> & Wb7 & Wv2 & Ab7 & Tb7 & Av2 & Tv2 & Sb7 & Cb7 & Db7 & Eb7
        & Sv2 & Cv2 & Dv2).
  { split; [congruence|]. right. rewrite Dv1, Hid, Db6. done. }
  { unfold move_assign_condition, move_assign_allowed, Backing.
    rewrite Ab6, Ab5, Av1, Cv1, Sv1, Sb5.
    apply andb_true_intro. split; [|reflexivity].
    apply andb_true_intro. split; [reflexivity|].
    apply andb_true_intro. split; [|reflexivity]. apply N.ltb_lt. simpl. lia. }
  { by rewrite Dv1. }
  cbv beta iota.
  (* std::static_vector<int, 10> svec(std::move(sbo)) *)
  assert (Hlin : move_ctor native (static_vector 10) 5 (junk 5%nat) b7 m11
                 = linear native (static_vector 10) 5 (junk 5%nat) b7 m11).
  { unfold move_ctor, linear, move_ctor_condition, Backing. rewrite Ab7, Ab6, Ab5. done. }
  rewrite Hlin. unfold linear.
  pose proof (emerge_wf (static_vector 10) 5 (junk 5%nat) m11 ltac:(apply Wb7)
                (static_usable 10 eq_refl)) as Wc0.
  pose proof (emerge_apart (static_vector 10) 5 (junk 5%nat) b7 m11 Wb7
                ltac:(rewrite Tb7, Tb6, Tb5; done)) as Hem.
  pose proof (frame_emerge (static_vector 10) 5 (junk 5%nat) m11) as Fe.
  destruct (emerge (static_vector 10) 5 (junk 5%nat) m11) as [c0 m12] eqn:Ec.
  assert (Ac0 : Alloc c0 = static_vector 10) by (by injection Ec as <- _).
  assert (Tc0 : this c0 = 5%nat) by (by injection Ec as <- _).
  cbn [fst snd] in *. destruct Hem as (Wb7' & Hap & Hel & Hcap).
  assert (Wv2' : wf v2 m12).
  { apply (other_container (fun b => forall k, b <> BInline 5 k) v2 m11 m12 Wv2 Fe);
      [apply Wc0|by rewrite Dv2|]. intros d k [=]. rewrite Tv2, Tv1 in *. done. }
  destruct (take_and_clear_spec native c0 b7 m12 Hnat Wc0 Wb7' Hap
              ltac:(rewrite Sb7, Cb7, Sv1, Cv1; by apply (wf_size b5 m9 Wb5); rewrite Ab5)
              ltac:(right; rewrite Hcap, Sb7, Sv1, Sb5; simpl; lia))
    as (c1 & b8 & m13 & -> & Wc1 & Wb8 & Ac1 & Tc1 & Ab8 & Tb8 & Ec1 & Sc1 & Sb8 & Cb8 & Db8
        & Hthird).
  cbv beta iota.
  assert (Ec1' : elements c1 m13 = [Some 1; Some 2; Some 3; Some 4; Some 5]%Z)
    by congruence.
  passes (elements_at c1 m13 _ 0%nat _ Ec1' eq_refl).
  passes (elements_at c1 m13 _ 1%nat _ Ec1' eq_refl).
  passes (elements_at c1 m13 _ 2%nat _ Ec1' eq_refl).
  passes (elements_at c1 m13 _ 3%nat _ Ec1' eq_refl).
  passes (elements_at c1 m13 _ 4%nat _ Ec1' eq_refl).
  (* v = std::move(svec) *)
  assert (Dc0 : data c0 = m_data 5 0).
  { unfold data. rewrite Ac0, Tc0. done. }
  destruct (Hthird v2 Wv2') as [Wv2'' _].
  { rewrite Tv2, Tv1, Tc0. done. }
  { rewrite Tv2, Tv1, Tb7, Tb6, Tb5. done. }
  { rewrite Dv2, Dc0. done. }
  { rewrite Dv2, Db7, Dv1, Hid. done. }
  assert (Dc1 : data c1 = m_data 5 0).
  { unfold data. rewrite Ac1, Ac0, Tc1, Tc0. done. }
  assert (Cc1 : capacity c1 = 10).
  { unfold capacity. rewrite Ac1, Ac0. done. }
  assert (Hslow : move_assign native v2 c1 m13 = take_and_clear native v2 c1 m13).
  { unfold move_assign, move_assign_condition, Backing. rewrite Av2, Av1, Ac1, Ac0. done. }
  rewrite Hslow.
  destruct (move_spec native v2 c1 m13 Hnat Wv2'' Wc1)
    as (v3 & c2 & m14 & -> & _ & _ & Ev3 & _).
  { split; [rewrite Tv2, Tv1, Tc1, Tc0; done|]. right. rewrite Dc1, Dv2. done. }
  { rewrite Sc1, Cc1, Sb7, Sv1, Sb5. simpl. lia. }
  { left. by rewrite Av2, Av1. }
  cbv beta iota.
  assert (Ev3' : elements v3 m14 = [Some 1; Some 2; Some 3; Some 4; Some 5]%Z)
    by congruence.
  passes (elements_at v3 m14 _ 0%nat _ Ev3' eq_refl).
  passes (elements_at v3 m14 _ 1%nat _ Ev3' eq_refl).
  passes (elements_at v3 m14 _ 2%nat _ Ev3' eq_refl).
  passes (elements_at v3 m14 _ 3%nat _ Ev3' eq_refl).
  passes (elements_at v3 m14 _ 4%nat _ Ev3' eq_refl).
  (* the destructors *)
  destruct (dtor c2 m14) as [? m15]. destruct (dtor v3 m15) as [? m16].
  destruct (dtor b8 m16) as [? m17]. destruct (dtor s1 m17) as [? m18].
  destruct (dtor x1 m18) as [? m19]. by exists m19.
Qed.

Lemma main_returns_witness : exists m, main exact (fun _ : nat => 0) = Returned m.
Proof. apply (main_returns exact (fun _ => 0)). exact exact_contract. Defined.
